(** * cacheSerializer.ts: the structural codec and the flat codec

    A shallow embedding of [CacheSerializer] and [SimpleSerializer]
    (packages/pyright-internal/src/common/cacheSerializer.ts).

    The codecs walk a JavaScript object graph.  Object identity, sharing and
    cycles matter to them, so the input is a heap: a finite map from
    locations to objects, and a value is a primitive or a reference into the
    heap.  What the encoder returns is a freshly built tree (it is never
    aliased), whose leaves are values of the input heap.  What the host's
    [JSON.parse] returns, and what the decoder builds from it, are fresh
    trees as well.

    The primitives are those of the language: [undefined], [null],
    booleans, numbers, BigInts, strings and symbols.  A number is an
    integer, or one of the numbers the host's [JSON.stringify] does not
    write as they are: [NaN], the two infinities and [-0].  The codecs
    compute with their own counter only and pass every other number
    through; a fraction goes through every step as an integer does, and
    the model has none.

    The file has the model first (values and objects, the host, the two
    codecs), then example heaps and the notions the statements use, then the
    properties, and at the end the statements at concrete inputs. *)

From Stdlib Require Import ZArith String List Lia.
From stdpp Require Import base option list gmap strings.
Open Scope string_scope.
Open Scope list_scope.
Set Warnings "-register-all".

(** ** Values, exceptions, objects *)

Abbreviation loc := nat (only parsing).

(** The numbers that are not integers. *)
Inductive special := NaN | Infinity | NegInfinity | NegZero.

#[global] Instance special_eq_dec : EqDecision special.
Proof. solve_decision. Defined.

(** A symbol is known by its identity, a function is not looked into, an
    object is a reference into the heap. *)
Inductive value :=
| VUndef
| VNull
| VBool (b : bool)
| VNum (n : Z)
| VSpecial (x : special)
| VBigInt (n : Z)
| VStr (s : string)
| VSymbol (id : nat)
| VFun
| VRef (l : loc).

#[global] Instance value_eq_dec : EqDecision value.
Proof. solve_decision. Defined.

Record exn := mkExn { exn_name : string; exn_message : string }.

#[global] Instance exn_eq_dec : EqDecision exn.
Proof. solve_decision. Defined.

Definition Error (msg : string) : exn := mkExn "Error" msg.
Definition TypeError (msg : string) : exn := mkExn "TypeError" msg.
Definition RangeError (msg : string) : exn := mkExn "RangeError" msg.

(** The text of [`${e}`]. *)
Definition exn_toString (e : exn) : string :=
  exn_name e +:+ ": " +:+ exn_message e.

(** A call returns, throws, or has no result in the model: it ran out of
    fuel (the recursion is deeper than the bound it was given) or met a
    reference that is not in the heap. *)
Inductive outcome (A : Type) :=
| Ret (a : A)
| Throw (e : exn)
| Stuck.
Arguments Ret {A} a.
Arguments Throw {A} e.
Arguments Stuck {A}.

(** A property under a string key: the key, whether [for..in] lists it, and
    what reading it gives (an accessor may throw).  A property under a
    symbol is seen by no step of the codecs, and an object of the model has
    none. *)
Record prop := mkProp { pkey : string; penum : bool; pread : exn + value }.

Definition field (k : string) (v : value) : prop := mkProp k true (inr v).

(** The time value of a [Date]: milliseconds, or [None] for an invalid date. *)
Abbreviation time := (option Z) (only parsing).

(** Modelled from the spec: [TextRangeCollection] (textRangeCollection.ts is
    not among the sources) is "an indexable, countable sequence of text
    ranges": [count] is the number of its items and [getItemAt(i)] is the
    item at index [i]. *)
Definition TextRangeCollection : Type := list value.

(** What [instanceof] and [Array.isArray] can tell apart, with the state that
    goes with it. *)
Inductive cls :=
| CObject
| CArray (elems : list value)
| CDate (t : time)
| CRegExp (source flags : string)
| CMap (entries : list (value * value))
| CSet (members : list value)
| CTextRangeCollection (items : TextRangeCollection).

(** An object: its class, its own properties in the order the host
    enumerates them, and the properties it inherits (the prototype chain,
    flattened, nearest first).  What the host's own prototypes give is not
    listed: of that the model knows the [length] of an array and the
    [toJSON] of a date. *)
Record obj := mkObj { kind : cls; own : list prop; inherited : list prop }.

Abbreviation heap := (gmap nat obj) (only parsing).

Definition plain (fields : list prop) : obj := mkObj CObject fields [].

(** ** Property access *)

Fixpoint find_prop (k : string) (ps : list prop) : option prop :=
  match ps with
  | [] => None
  | p :: ps => if String.eqb (pkey p) k then Some p else find_prop k ps
  end.

Definition own_keys (o : obj) : list string := pkey <$> own o.

(** [Object.prototype.hasOwnProperty.call(o, k)] *)
Definition hasOwnProperty (o : obj) (k : string) : bool :=
  bool_decide (k ∈ own_keys o).

(** [k in o] *)
Definition has_property (o : obj) (k : string) : bool :=
  match kind o, String.eqb k "length" with
  | CArray _, true => true
  | _, _ =>
    match find_prop k (own o) with
    | Some _ => true
    | None => bool_decide (is_Some (find_prop k (inherited o)))
    end
  end.

(** [o[k]], for the keys the codec reads (none of them is an array index). *)
Definition get (o : obj) (k : string) : exn + value :=
  match kind o, String.eqb k "length" with
  | CArray elems, true => inr (VNum (Z.of_nat (length elems)))
  | _, _ =>
    match find_prop k (own o) with
    | Some p => pread p
    | None =>
      match find_prop k (inherited o) with
      | Some p => pread p
      | None => inr VUndef
      end
    end
  end.

(** The keys [for (const key in o)] visits: the enumerable own ones, then the
    enumerable inherited ones that no own property shadows. *)
Definition for_in_keys (o : obj) : list string :=
  (pkey <$> filter (λ p, penum p = true) (own o)) ++
  (pkey <$> filter (λ p, penum p = true ∧ pkey p ∉ own_keys o) (inherited o)).

(** [typeof v === 'number'] *)
Definition is_number (v : value) : bool :=
  match v with VNum _ | VSpecial _ => true | _ => false end.

(** ** Trees *)

(** What [JSON.parse] returns. An object is its list of entries, in order. *)
Inductive json :=
| JNull
| JBool (b : bool)
| JNum (n : Z)
| JStr (s : string)
| JArr (items : list json)
| JObj (entries : list (string * json)).

(** What the encoder returns: a value of the input heap passed on as it is,
    or a new array, or a new object. *)
Inductive enc :=
| EVal (v : value)
| EArr (items : list enc)
| EObj (entries : list (string * enc)).

Definition ENum (n : Z) : enc := EVal (VNum n).
Definition EStr (s : string) : enc := EVal (VStr s).

(** What the decoder returns. *)
Inductive dval :=
| DUndef
| DNull
| DBool (b : bool)
| DNum (n : Z)
| DStr (s : string)
| DDate (t : time)
| DRegExp (source flags : string)
| DMap (entries : list (dval * dval))
| DSet (members : list dval)
| DTextRangeCollection (items : dval)
| DArr (items : list dval)
| DObj (entries : list (string * dval)).

(** [o[k] = v] on a new object. Assigning to ["__proto__"] goes to the
    prototype's setter and makes no own property. *)
Fixpoint assoc_set {A} (k : string) (v : A) (l : list (string * A)) : list (string * A) :=
  match l with
  | [] => [(k, v)]
  | (k', v') :: l => if String.eqb k' k then (k, v) :: l else (k', v') :: assoc_set k v l
  end.

Definition obj_set {A} (k : string) (v : A) (l : list (string * A)) : list (string * A) :=
  if String.eqb k "__proto__" then l else assoc_set k v l.

Fixpoint assoc_get {A} (k : string) (l : list (string * A)) : option A :=
  match l with
  | [] => None
  | (k', v) :: l => if String.eqb k' k then Some v else assoc_get k l
  end.

(** [j[k]] for a key that is not an array index; [None] is [undefined].
    Reading a property of [null] throws: the callers check for it. *)
Definition json_get (j : json) (k : string) : option json :=
  match j with
  | JObj entries => assoc_get k entries
  | JArr items => if String.eqb k "length" then Some (JNum (Z.of_nat (length items))) else None
  | JStr s => if String.eqb k "length" then Some (JNum (Z.of_nat (String.length s))) else None
  | _ => None
  end.

(** A parsed tree handed on as it is. *)
Fixpoint raw (j : json) : dval :=
  match j with
  | JNull => DNull
  | JBool b => DBool b
  | JNum n => DNum n
  | JStr s => DStr s
  | JArr items => DArr (map raw items)
  | JObj entries => DObj (map (λ kv, (kv.1, raw kv.2)) entries)
  end.

Definition raw_opt (j : option json) : dval :=
  match j with Some j => raw j | None => DUndef end.

(** The nesting of arrays and objects. *)
Fixpoint json_depth (j : json) : nat :=
  match j with
  | JArr items => S (list_max (map json_depth items))
  | JObj entries => S (list_max (map (λ kv, json_depth kv.2) entries))
  | _ => 0
  end.

(** [const { a, b } = x]: throws on [null]. *)
Definition destructure (x : json) : exn + json :=
  match x with
  | JNull => inl (TypeError "Cannot destructure 'null' as it is null.")
  | _ => inr x
  end.

(** [([k, v]) => ...]: the first two things the argument iterates over. An
    array gives its elements, a string its characters; nothing else
    iterates. *)
Definition destructure_pair (x : json) : exn + (option json * option json) :=
  match x with
  | JArr items => inr (items !! 0, items !! 1)
  | JStr EmptyString => inr (None, None)
  | JStr (String a EmptyString) => inr (Some (JStr (String a EmptyString)), None)
  | JStr (String a (String b _)) =>
    inr (Some (JStr (String a EmptyString)), Some (JStr (String b EmptyString)))
  | _ => inl (TypeError "object is not iterable")
  end.

(** [x.map(...)] is there for an array only. *)
Definition as_array (x : json) : exn + list json :=
  match x with
  | JArr items => inr items
  | JNull => inl (TypeError "Cannot read properties of null (reading 'map')")
  | _ => inl (TypeError "map is not a function")
  end.

(** The key equality of [Map] and [Set]. Two objects the decoder built are
    never the same object. *)
Definition same_value_zero (a b : dval) : bool :=
  match a, b with
  | DUndef, DUndef => true
  | DNull, DNull => true
  | DBool x, DBool y => Bool.eqb x y
  | DNum x, DNum y => Z.eqb x y
  | DStr x, DStr y => String.eqb x y
  | _, _ => false
  end.

Fixpoint Map_set (k v : dval) (m : list (dval * dval)) : list (dval * dval) :=
  match m with
  | [] => [(k, v)]
  | (k', v') :: m => if same_value_zero k' k then (k', v) :: m else (k', v') :: Map_set k v m
  end.

(** [new Map(entries)] *)
Definition Map_new (entries : list (dval * dval)) : list (dval * dval) :=
  fold_left (λ m kv, Map_set kv.1 kv.2 m) entries [].

Fixpoint Set_add (x : dval) (s : list dval) : list dval :=
  match s with
  | [] => [x]
  | y :: s => if same_value_zero y x then y :: s else y :: Set_add x s
  end.

(** [new Set(values)] *)
Definition Set_new (values : list dval) : list dval :=
  fold_left (λ s x, Set_add x s) values [].

(** ** The host *)

(** The parts of the JavaScript host the codecs call and the model does not
    look into: the text of a JSON tree and its parser (parsing the text of a
    tree gives the tree back; the entries of an object are listed in the
    order the host enumerates them), the ISO rendering of a time value and
    the [Date] constructor, the [RegExp] constructor (it gives the source
    and the flags of the expression it builds, or throws). *)
Class Host := {
  text : Type;
  JSON_print : json → text;
  JSON_parse : text → exn + json;
  JSON_parse_print : ∀ j, JSON_parse (JSON_print j) = inr j;
  Date_toISOString : Z → string;
  Date_new : json → time;
  RegExp_new : option json → option json → exn + (string * string);
}.

(** Type markers for serialization *)
Module TYPE_MARKERS.
Definition Map := "__Map__".
Definition Set_ := "__Set__".
Definition TextRange := "__TextRange__".
Definition TextRangeCollection := "__TextRangeCollection__".
Definition ParseNode := "__ParseNode__".
Definition Diagnostic := "__Diagnostic__".
Definition Date := "__Date__".
Definition RegExp := "__RegExp__".
Definition Circular := "__Circular__".
Definition all : list string :=
  [Map; Set_; TextRange; TextRangeCollection; ParseNode; Diagnostic; Date; RegExp; Circular].
End TYPE_MARKERS.

(** ** Computations over a mutable state *)

(** The state is a mutable object: what was written before a [throw] stays
    written. *)
Definition M (St A : Type) : Type := St → outcome A * St.

Definition ret {St A} (a : A) : M St A := λ c, (Ret a, c).
Definition throw {St A} (e : exn) : M St A := λ c, (Throw e, c).
Definition stuck {St A} : M St A := λ c, (Stuck, c).

Definition bind {St A B} (m : M St A) (k : A → M St B) : M St B :=
  λ c, match m c with
       | (Ret a, c') => k a c'
       | (Throw e, c') => (Throw e, c')
       | (Stuck, c') => (Stuck, c')
       end.

Notation "'let*' x ':=' m 'in' k" := (bind m (λ x, k))
  (at level 10, x pattern, m at level 100, k at level 200).

(** Reading a property, or a host call that may throw. *)
Definition lift {St A} (r : exn + A) : M St A :=
  match r with inl e => throw e | inr a => ret a end.

(** [try { m } catch (e) { handler }] *)
Definition try_catch {St A} (m : M St A) (handler : exn → M St A) : M St A :=
  λ c, match m c with
       | (Throw e, c') => handler e c'
       | r => r
       end.

Fixpoint mapM {St A B} (f : A → M St B) (l : list A) : M St (list B) :=
  match l with
  | [] => ret []
  | x :: l => let* y := f x in let* ys := mapM f l in ret (y :: ys)
  end.

Fixpoint foldM {St A B} (f : B → A → M St B) (acc : B) (l : list A) : M St B :=
  match l with
  | [] => ret acc
  | x :: l => let* acc := f acc x in foldM f acc l
  end.

Definition deref {St} (h : heap) (l : loc) : M St obj :=
  match h !! l with Some o => ret o | None => stuck end.

(** [d.toISOString()] *)
Definition toISOString `{Host} (t : time) : exn + string :=
  match t with
  | Some ms => inr (Date_toISOString ms)
  | None => inl (RangeError "Invalid time value")
  end.

(** ** The host's [JSON.stringify] *)

(** [JSON.stringify] walks the value it is given: it drops a property whose
    value is [undefined], a function or a symbol, writes [null] for such an
    element of an array, writes [null] for a number that is not finite and
    [0] for [-0], and throws on a BigInt and on a cycle.  For each property
    it first calls the value's [toJSON] (of the objects of the model, a
    [Date] has one), then the replacer, and serializes what the replacer
    returned: these are steps 2 and 3 of SerializeJSONProperty in ECMA-262,
    in this order. *)
Section JSON_stringify.
Context `{Host} {St : Type}.

(** The replacer, called on a value of the heap. It returns that value, or
    another one, or a new tree of arrays and objects.  On a new array or
    object the replacers of this file return their argument, so the walk
    does not call them there. *)
Variable replacer : heap → value → M St enc.

(** The new arrays and objects: the walk follows the tree. *)
Fixpoint stringify_enc (leaf : value → M St (option json)) (e : enc) : M St (option json) :=
  match e with
  | EVal v => leaf v
  | EArr items =>
    let* js :=
      (fix go (items : list enc) : M St (list json) :=
         match items with
         | [] => ret []
         | x :: items =>
           let* j := stringify_enc leaf x in
           let* js := go items in
           ret (default JNull j :: js)
         end) items in
    ret (Some (JArr js))
  | EObj entries =>
    let* js :=
      (fix go (entries : list (string * enc)) : M St (list (string * json)) :=
         match entries with
         | [] => ret []
         | (k, x) :: entries =>
           let* j := stringify_enc leaf x in
           let* js := go entries in
           ret (match j with Some j => (k, j) :: js | None => js end)
         end) entries in
    ret (Some (JObj js))
  end.

(** [Date.prototype.toJSON]: the ISO string, or [null] for an invalid date. *)
Definition toJSON (h : heap) (v : value) : M St value :=
  match v with
  | VRef l =>
    let* o := deref h l in
    match kind o with
    | CDate (Some ms) => ret (VStr (Date_toISOString ms))
    | CDate None => ret VNull
    | _ => ret v
    end
  | _ => ret v
  end.

(** The objects of the heap: [stack] holds the objects the walk is inside
    of. *)
Fixpoint SerializeJSONProperty (fuel : nat) (h : heap) (stack : list loc) (v : value)
    : M St (option json) :=
  let* v := toJSON h v in
  let* e := replacer h v in
  match e with
  | EVal VUndef | EVal VFun | EVal (VSymbol _) => ret None
  | EVal VNull => ret (Some JNull)
  | EVal (VBool b) => ret (Some (JBool b))
  | EVal (VNum n) => ret (Some (JNum n))
  | EVal (VSpecial NegZero) => ret (Some (JNum 0))
  | EVal (VSpecial _) => ret (Some JNull)
  | EVal (VBigInt _) => throw (TypeError "Do not know how to serialize a BigInt")
  | EVal (VStr s) => ret (Some (JStr s))
  | EVal (VRef l) =>
    match fuel with
    | O => stuck
    | S fuel =>
      if bool_decide (l ∈ stack)
      then throw (TypeError "Converting circular structure to JSON")
      else
        let* o := deref h l in
        match kind o with
        | CArray elems =>
          let* js := mapM (λ x, let* j := SerializeJSONProperty fuel h (l :: stack) x in
                                ret (default JNull j)) elems in
          ret (Some (JArr js))
        | _ =>
          let* js := foldM (λ js p,
                       let* x := lift (pread p) in
                       let* j := SerializeJSONProperty fuel h (l :: stack) x in
                       ret (match j with Some j => js ++ [(pkey p, j)] | None => js end))
                     [] (filter (λ p, penum p = true) (own o)) in
          ret (Some (JObj js))
        end
    end
  | _ =>
    match fuel with
    | O => stuck
    | S fuel => stringify_enc (SerializeJSONProperty fuel h stack) e
    end
  end.

(** [JSON.stringify(e, replacer, 2)]: the text, or [undefined]. *)
Definition JSON_stringify (h : heap) (e : enc) : M St (option text) :=
  let* j := stringify_enc (SerializeJSONProperty (S (size h)) h []) e in
  ret (JSON_print <$> j).
End JSON_stringify.

(** No replacer. *)
Definition no_replacer {St} (h : heap) (v : value) : M St enc := ret (EVal v).

(** * The structural codec *)

Module CacheSerializer.
Section CacheSerializer.
Context `{Host}.

(** [seen] is the [WeakMap] from a visited object to its number; nothing in
    the source pushes to [refs]. *)
Record SerializationContext := mkSer {
  seen : gmap nat nat;
  refs : list enc;
  refCount : nat;
}.

(** [refs] is a [Map] from a number to a value; nothing in the source adds
    to it. *)
Record DeserializationContext := mkDe {
  de_refs : list (json * dval);
}.

(** Type guards. Each is called on a value the caller knows to be an
    object, so [value && typeof value === 'object'] holds; reading [start]
    or [length] may throw. *)
Definition _isTextRange (value : obj) : exn + bool :=
  match get value "start" with
  | inl e => inl e
  | inr start =>
    if is_number start then
      match get value "length" with
      | inl e => inl e
      | inr length => inr (is_number length)
      end
    else inr false
  end.

Definition _isParseNode (value : obj) : exn + bool :=
  if has_property value "nodeType" && has_property value "id" then
    match get value "start" with
    | inl e => inl e
    | inr start =>
      if is_number start then
        match get value "length" with
        | inl e => inl e
        | inr length => inr (is_number length)
        end
      else inr false
    end
  else inr false.

Definition _isDiagnostic (value : obj) : bool :=
  has_property value "category" && has_property value "message" &&
  has_property value "range".

Definition seen_get (l : loc) : M SerializationContext (option nat) :=
  λ c, (Ret (seen c !! l), c).

(** [const refId = context.refCount++; context.seen.set(value, refId)] *)
Definition mark_seen (l : loc) : M SerializationContext nat :=
  λ c, (Ret (refCount c),
        {| seen := <[l := refCount c]> (seen c); refs := refs c; refCount := S (refCount c) |}).

Definition is_undefined (e : enc) : bool :=
  match e with EVal VUndef => true | _ => false end.

(** The kind dispatch of [_serializeValue], on an object [o] met for the
    first time; [recur] is the recursive call. *)
Definition _serializeObject (recur : value → M SerializationContext enc) (o : obj)
    : M SerializationContext enc :=
  match kind o with
  (* Handle Date *)
  | CDate t =>
    let* iso := lift (toISOString t) in
    ret (EObj [(TYPE_MARKERS.Date, EStr iso)])
  (* Handle RegExp *)
  | CRegExp source flags =>
    ret (EObj [(TYPE_MARKERS.RegExp,
                EObj [("source", EStr source); ("flags", EStr flags)])])
  (* Handle Map *)
  | CMap entries =>
    let* es := mapM (λ kv,
                 let* k := recur kv.1 in
                 let* v := recur kv.2 in
                 ret (EArr [k; v])) entries in
    ret (EObj [(TYPE_MARKERS.Map, EArr es)])
  (* Handle Set *)
  | CSet members =>
    let* es := mapM recur members in
    ret (EObj [(TYPE_MARKERS.Set_, EArr es)])
  | _ =>
    (* Handle TextRange *)
    let* isTextRange := lift (_isTextRange o) in
    if isTextRange then
      let* start := lift (get o "start") in
      let* length := lift (get o "length") in
      ret (EObj [(TYPE_MARKERS.TextRange,
                  EObj [("start", EVal start); ("length", EVal length)])])
    else
    match kind o with
    (* Handle TextRangeCollection *)
    | CTextRangeCollection items =>
      (* for (let i = 0; i < value.count; i++)
           items.push(this._serializeValue(value.getItemAt(i), context)) *)
      let* es := mapM recur items in
      ret (EObj [(TYPE_MARKERS.TextRangeCollection,
                  EObj [("items", EArr es);
                        ("count", ENum (Z.of_nat (length items)))])])
    | _ =>
      (* Handle ParseNode (simplified - store essential properties) *)
      let* isParseNode := lift (_isParseNode o) in
      if isParseNode then
        let* nodeType := lift (get o "nodeType") in
        let* id := lift (get o "id") in
        let* start := lift (get o "start") in
        let* length := lift (get o "length") in
        ret (EObj [(TYPE_MARKERS.ParseNode,
                    EObj [("nodeType", EVal nodeType); ("id", EVal id);
                          ("start", EVal start); ("length", EVal length)])])
      (* Handle Diagnostic *)
      else if _isDiagnostic o then
        let* category := lift (get o "category") in
        let* message := lift (get o "message") in
        let* range := lift (get o "range") in
        let* range := recur range in
        ret (EObj [(TYPE_MARKERS.Diagnostic,
                    EObj [("category", EVal category); ("message", EVal message);
                          ("range", range)])])
      else
      match kind o with
      (* Handle Arrays *)
      | CArray elems =>
        let* es := mapM recur elems in
        ret (EArr es)
      | _ =>
        (* Handle plain objects *)
        let* serialized :=
          foldM (λ serialized key,
            if hasOwnProperty o key then
              try_catch
                (let* v := lift (get o key) in
                 let* serializedValue := recur v in
                 if is_undefined serializedValue then ret serialized
                 else ret (obj_set key serializedValue serialized))
                (* Skip properties that can't be serialized *)
                (λ e, ret serialized)
            else ret serialized)
          [] (for_in_keys o) in
        ret (EObj serialized)
      end
    end
  end.

Fixpoint _serializeValue (fuel : nat) (h : heap) (value : value)
    : M SerializationContext enc :=
  match value with
  (* Handle primitives *)
  | VUndef | VNull => ret (EVal value)
  | VBool _ | VNum _ | VSpecial _ | VBigInt _ | VStr _ | VSymbol _ => ret (EVal value)
  (* Skip functions *)
  | VFun => ret (EVal VUndef)
  | VRef l =>
    match fuel with
    | O => stuck
    | S fuel =>
      (* Handle circular references *)
      let* known := seen_get l in
      match known with
      | Some refId => ret (EObj [(TYPE_MARKERS.Circular, ENum (Z.of_nat refId))])
      | None =>
        (* Mark as seen *)
        let* _ := mark_seen l in
        let* o := deref h l in
        _serializeObject (_serializeValue fuel h) o
      end
    end
  end.

(** Serialize complex objects to JSON-compatible format

    The walk may go one level deeper than the heap has objects: every level
    numbers an object that had no number (see [serializeValue_returns]). *)
Definition serialize (h : heap) (data : value) : outcome text :=
  let context := {| seen := ∅; refs := []; refCount := 0 |} in
  match _serializeValue (S (size h)) h data context with
  | (Ret serialized, context) =>
    match JSON_stringify no_replacer h
            (EObj [("version", ENum 1); ("data", serialized); ("refs", EArr (refs context))])
            tt with
    | (Ret (Some t), _) => Ret t
    | (Ret None, _) => Stuck (* not reached: the document is an object *)
    | (Throw e, _) => Throw e
    | (Stuck, _) => Stuck
    end
  | (Throw e, _) => Throw e
  | (Stuck, _) => Stuck
  end.

Definition bindo {A B} (m : outcome A) (k : A → outcome B) : outcome B :=
  match m with
  | Ret a => k a
  | Throw e => Throw e
  | Stuck => Stuck
  end.

Definition lifto {A} (r : exn + A) : outcome A :=
  match r with inl e => Throw e | inr a => Ret a end.

Fixpoint mapo {A B} (f : A → outcome B) (l : list A) : outcome (list B) :=
  match l with
  | [] => Ret []
  | x :: l => bindo (f x) (λ y, bindo (mapo f l) (λ ys, Ret (y :: ys)))
  end.

(** The key equality of [context.refs]: two parsed arrays or objects are
    never the same object. *)
Definition same_key (a b : json) : bool :=
  match a, b with
  | JNull, JNull => true
  | JBool x, JBool y => Bool.eqb x y
  | JNum x, JNum y => Z.eqb x y
  | JStr x, JStr y => String.eqb x y
  | _, _ => false
  end.

(** [context.refs.has(refId)] and [context.refs.get(refId)] *)
Fixpoint refs_get (refId : json) (m : list (json * dval)) : option dval :=
  match m with
  | [] => None
  | (k, d) :: m => if same_key k refId then Some d else refs_get refId m
  end.

(** The tag dispatch of [_deserializeValue], on an array or an object;
    [recur] is the recursive call (it takes the same [context] and
    [refs]). *)
Definition _deserializeObject (recur : option json → outcome dval) (value : json)
    (context : DeserializationContext) : outcome dval :=
  let tag := json_get value in
  match tag TYPE_MARKERS.Circular with
  | Some refId =>
    (* Handle circular references *)
    match refs_get refId (de_refs context) with
    | Some d => Ret d
    | None => Ret DNull (* Reference not yet resolved, return placeholder *)
    end
  | None =>
  match tag TYPE_MARKERS.Date with
  | Some x => Ret (DDate (Date_new x))
  | None =>
  match tag TYPE_MARKERS.RegExp with
  | Some x =>
    bindo (lifto (destructure x)) (λ x,
    bindo (lifto (RegExp_new (json_get x "source") (json_get x "flags"))) (λ r,
    Ret (DRegExp r.1 r.2)))
  | None =>
  match tag TYPE_MARKERS.Map with
  | Some x =>
    bindo (lifto (as_array x)) (λ items,
    bindo (mapo (λ item,
             bindo (lifto (destructure_pair item)) (λ kv,
             bindo (recur kv.1) (λ k,
             bindo (recur kv.2) (λ v,
             Ret (k, v))))) items) (λ entries,
    Ret (DMap (Map_new entries))))
  | None =>
  match tag TYPE_MARKERS.Set_ with
  | Some x =>
    bindo (lifto (as_array x)) (λ items,
    bindo (mapo (λ v, recur (Some v)) items) (λ values,
    Ret (DSet (Set_new values))))
  | None =>
  match tag TYPE_MARKERS.TextRange with
  | Some x =>
    bindo (lifto (destructure x)) (λ x,
    Ret (DObj [("start", raw_opt (json_get x "start"));
               ("length", raw_opt (json_get x "length"))]))
  | None =>
  match tag TYPE_MARKERS.TextRangeCollection with
  | Some x =>
    bindo (lifto (destructure x)) (λ x,
    bindo (recur (json_get x "items")) (λ items,
    Ret (DTextRangeCollection items)))
  | None =>
  match tag TYPE_MARKERS.ParseNode with
  | Some x =>
    (* Return a minimal parse node object *)
    bindo (lifto (destructure x)) (λ x,
    Ret (DObj [("nodeType", raw_opt (json_get x "nodeType"));
               ("id", raw_opt (json_get x "id"));
               ("start", raw_opt (json_get x "start"));
               ("length", raw_opt (json_get x "length"))]))
  | None =>
  match tag TYPE_MARKERS.Diagnostic with
  | Some x =>
    bindo (lifto (destructure x)) (λ x,
    bindo (recur (json_get x "range")) (λ range,
    Ret (DObj [("category", raw_opt (json_get x "category"));
               ("message", raw_opt (json_get x "message"));
               ("range", range)])))
  | None =>
  match value with
  | JArr items =>
    (* Handle Arrays *)
    bindo (mapo (λ item, recur (Some item)) items) (λ ds,
    Ret (DArr ds))
  | JObj entries =>
    (* Handle plain objects *)
    bindo (fold_left (λ acc kv,
             bindo acc (λ deserialized,
             bindo (recur (Some kv.2)) (λ d,
             Ret (obj_set kv.1 d deserialized))))
           entries (Ret [])) (λ deserialized,
    Ret (DObj deserialized))
  | _ => Ret (raw value) (* not reached: [value] is an array or an object *)
  end end end end end end end end end end.

Fixpoint _deserializeValue (fuel : nat) (value : option json)
    (context : DeserializationContext) (refs : option json) : outcome dval :=
  match value with
  (* Handle primitives *)
  | None => Ret DUndef
  | Some JNull => Ret DNull
  | Some (JBool b) => Ret (DBool b)
  | Some (JNum n) => Ret (DNum n)
  | Some (JStr s) => Ret (DStr s)
  | Some value =>
    match fuel with
    | O => Stuck
    | S fuel =>
      _deserializeObject (λ v, _deserializeValue fuel v context refs) value context
    end
  end.

(** Deserialize from JSON string back to complex objects

    The decoder follows the parsed tree, so it may go as deep as the tree
    is. *)
Definition deserialize (json : text) : outcome dval :=
  let body :=
    bindo (lifto (JSON_parse json)) (λ parsed,
    bindo (match parsed with
           | JNull => Throw (TypeError "Cannot read properties of null (reading 'version')")
           | _ => Ret (json_get parsed "version")
           end) (λ version,
    match version with
    | Some (JNum 1) =>
      let context := {| de_refs := [] |} in
      _deserializeValue (json_depth parsed) (json_get parsed "data") context
        (json_get parsed "refs")
    | _ => Throw (Error "Unsupported cache version")
    end)) in
  match body with
  | Throw e => Throw (Error ("Failed to deserialize cache: " +:+ exn_toString e))
  | r => r
  end.

End CacheSerializer.
End CacheSerializer.

(** * The flat codec *)

Module SimpleSerializer.
Section SimpleSerializer.
Context `{Host}.
Import CacheSerializer.

(** The replacer handed to [JSON.stringify]; the state is the [WeakSet]
    [seen].  The new arrays and objects it is called on are not in the
    heap: each is new, so [seen] never has it, and it is returned as it
    is.  (The source also tests [typeof value === 'function'] where
    [typeof value === 'object'] is known.) *)
Definition replacer (h : heap) (value : value) : M (gset nat) enc :=
  match value with
  | VRef l =>
    (* typeof value === 'object' && value !== null *)
    λ seen,
      if bool_decide (l ∈ seen) then (Ret (EStr "[Circular]"), seen)
      else
        (let* o := deref h l in
         match kind o with
         | CMap entries =>
           ret (EObj [("_type", EStr "Map");
                      ("entries", EArr (map (λ kv, EArr [EVal kv.1; EVal kv.2]) entries))])
         | CSet members =>
           ret (EObj [("_type", EStr "Set"); ("values", EArr (map EVal members))])
         | CDate t =>
           let* iso := lift (toISOString t) in
           ret (EObj [("_type", EStr "Date"); ("value", EStr iso)])
         | _ => ret (EVal value)
         end) ({[ l ]} ∪ seen)
  | _ => ret (EVal value)
  end.

Definition serialize (h : heap) (data : value) : outcome (option text) :=
  (JSON_stringify replacer h (EVal data) ∅).1.

(** [typeof d === 'object' && d !== null], on the decoder's side. *)
Definition is_object (d : dval) : bool :=
  match d with
  | DUndef | DNull | DBool _ | DNum _ | DStr _ => false
  | _ => true
  end.

(** [value.k] on what the reviver is given, for the keys it reads.  An
    object the parser built has its own properties and, under these keys,
    inherits nothing; an array has none of them either ([entries] and
    [values] are functions there, and the reviver asks for an array). *)
Definition dget (value : dval) (k : string) : dval :=
  match value with
  | DObj fields => default DUndef (assoc_get k fields)
  | _ => DUndef
  end.

Definition is_string_of (d : dval) (s : string) : bool :=
  match d with DStr s' => String.eqb s' s | _ => false end.

(** [Array.isArray(d)] and the elements. *)
Definition array_items (d : dval) : option (list dval) :=
  match d with DArr items => Some items | _ => None end.

(** [entry[0]] and [entry[1]] on an item of the array given to [new Map]:
    an element of an array, an own property of an object the parser built,
    and [undefined] on the other objects. *)
Definition entry_get (entry : dval) (i : nat) : dval :=
  match entry with
  | DArr items => default DUndef (items !! i)
  | DObj fields => default DUndef (assoc_get (if i is 0%nat then "0" else "1") fields)
  | _ => DUndef
  end.

(** [new Map(items)] on an array: an item that is not an object is
    refused. *)
Definition Map_from (items : list dval) : exn + list (dval * dval) :=
  if forallb is_object items
  then inr (Map_new (map (λ entry, (entry_get entry 0, entry_get entry 1)) items))
  else inl (TypeError "Iterator value is not an entry object").

(** The reviver handed to [JSON.parse].  It is called on a parsed value
    whose elements or properties were revived before; it never returns
    [undefined], so the host deletes no property. *)
Definition reviver (value : dval) : outcome dval :=
  if is_object value then
    (* Restore Map *)
    match is_string_of (dget value "_type") "Map", array_items (dget value "entries") with
    | true, Some entries =>
      bindo (lifto (Map_from entries)) (λ m, Ret (DMap m))
    | _, _ =>
    (* Restore Set *)
    match is_string_of (dget value "_type") "Set", array_items (dget value "values") with
    | true, Some values => Ret (DSet (Set_new values))
    | _, _ =>
    (* Restore Date *)
    match is_string_of (dget value "_type") "Date", dget value "value" with
    | true, DStr s => Ret (DDate (Date_new (JStr s)))
    | _, _ => Ret value
    end end end
  else Ret value.

(** [JSON.parse(json, reviver)] after the parse: InternalizeJSONProperty of
    ECMA-262.  The elements of an array and the properties of an object are
    revived first, in order, each put back in its place; then the reviver
    is called on the array or the object. *)
Fixpoint InternalizeJSONProperty (val : json) : outcome dval :=
  match val with
  | JArr items =>
    bindo (mapo InternalizeJSONProperty items) (λ ds, reviver (DArr ds))
  | JObj entries =>
    bindo (mapo (λ kv, bindo (InternalizeJSONProperty kv.2) (λ d, Ret (kv.1, d))) entries)
          (λ ds, reviver (DObj ds))
  | _ => reviver (raw val)
  end.

Definition deserialize (json : text) : outcome dval :=
  bindo (lifto (JSON_parse json)) InternalizeJSONProperty.

End SimpleSerializer.
End SimpleSerializer.

(** * Example hosts and heaps *)

(** A host whose text is the tree itself: the printed form of a document is
    the document, and the only malformed text is [None].  Its [Date] and
    [RegExp] take strings and nothing else. *)
Definition tree_host : Host := {|
  text := option json;
  JSON_print j := Some j;
  JSON_parse t :=
    match t with
    | Some j => inr j
    | None => inl (mkExn "SyntaxError" "Unexpected token")
    end;
  JSON_parse_print j := eq_refl;
  Date_toISOString ms := if Z.eqb ms 0 then "1970-01-01T00:00:00.000Z" else "";
  Date_new j :=
    match j with
    | JStr "1970-01-01T00:00:00.000Z" => Some 0%Z
    | _ => None
    end;
  RegExp_new source flags :=
    match source, flags with
    | Some (JStr s), Some (JStr f) => inr (s, f)
    | _, _ => inl (mkExn "SyntaxError" "Invalid regular expression")
    end;
|}.

(** [const a = {}; a.self = a] *)
Definition self_reference : gmap nat obj :=
  {[ 0 := plain [field "self" (VRef 0)] ]}.

(** [const shared = { x: 1 }; const v = { a: shared, b: shared }] *)
Definition shared_reference : gmap nat obj :=
  {[ 0 := plain [field "a" (VRef 1); field "b" (VRef 1)];
     1 := plain [field "x" (VNum 1)] ]}.

(** [{ nodeType: 3, id: 7, start: 0, length: 5 }] *)
Definition parse_node : gmap nat obj :=
  {[ 0 := plain [field "nodeType" (VNum 3); field "id" (VNum 7);
                 field "start" (VNum 0); field "length" (VNum 5)] ]}.

(** [{ label: "x", start: 1, length: 2 }] *)
Definition record_with_range_fields : gmap nat obj :=
  {[ 0 := plain [field "label" (VStr "x"); field "start" (VNum 1);
                 field "length" (VNum 2)] ]}.

(** [const s = new Set(); s.start = 0; s.length = 1] *)
Definition set_with_range_fields : gmap nat obj :=
  {[ 0 := mkObj (CSet []) [field "start" (VNum 0); field "length" (VNum 1)] [] ]}.

(** [new Date(ms)] *)
Definition one_date (ms : Z) : gmap nat obj :=
  {[ 0 := mkObj (CDate (Some ms)) [] [] ]}.

(** A diagnostic with a private field, over a range of two positions. *)
Definition diagnostic : gmap nat obj :=
  {[ 0 := plain [field "category" (VNum 1); field "message" (VStr "undefined name");
                 field "range" (VRef 1); field "_rule" (VStr "reportUndefinedVariable")];
     1 := plain [field "start" (VRef 2); field "end" (VRef 3)];
     2 := plain [field "line" (VNum 4); field "character" (VNum 0)];
     3 := plain [field "line" (VNum 4); field "character" (VNum 9)] ]}.


(** A record with a function, a getter that throws and an inherited
    property. *)
Definition awkward_record : gmap nat obj :=
  {[ 0 := mkObj CObject
            [field "x" (VNum 1); field "f" VFun;
             mkProp "g" true (inl (Error "boom")); field "y" (VStr "s");
             mkProp "hidden" false (inr (VNum 2))]
            [field "inherited" (VNum 3)] ]}.

(** A tree with one object of most kinds. *)
Definition sample : gmap nat obj :=
  {[ 0 := plain [field "name" (VStr "x"); field "items" (VRef 1); field "when" (VRef 2);
                 field "tags" (VRef 3); field "span" (VRef 4)];
     1 := mkObj (CArray [VNum 1; VNull; VRef 5]) [] [];
     2 := mkObj (CDate (Some 0%Z)) [] [];
     3 := mkObj (CSet [VStr "a"; VStr "b"]) [] [];
     4 := plain [field "start" (VNum 0); field "length" (VNum 5)];
     5 := mkObj (CMap [(VStr "k", VBool true)]) [] [] ]}.


(** [new Date(NaN)], alone and in an array: [[1, new Date(NaN)]] *)
Definition invalid_date : gmap nat obj :=
  {[ 0 := mkObj (CDate None) [] [];
     1 := mkObj (CArray [VNum 1; VRef 0]) [] [] ]}.

(** [const d = { message: "m", range: null }; d.category = d], with
    [category] listed first *)
Definition cyclic_diagnostic : gmap nat obj :=
  {[ 0 := plain [field "category" (VRef 0); field "message" (VStr "m");
                 field "range" VNull] ]}.

(** [[1, undefined, () => 0, "x", NaN, Symbol(), -0]] *)
Definition array_with_holes : gmap nat obj :=
  {[ 0 := mkObj (CArray [VNum 1; VUndef; VFun; VStr "x"; VSpecial NaN; VSymbol 0;
                         VSpecial NegZero]) [] [] ]}.

(** [[1, 2n]] *)
Definition array_with_bigint : gmap nat obj :=
  {[ 0 := mkObj (CArray [VNum 1; VBigInt 2]) [] [] ]}.

(** [{ get start() { throw new Error("boom") }, x: 1 }] *)
Definition record_with_throwing_start : gmap nat obj :=
  {[ 0 := plain [mkProp "start" true (inl (Error "boom")); field "x" (VNum 1)] ]}.

(** [const d = { message: "m", range: null }; d.category = d;
    const r = { d }], with [category] listed first in [d] *)
Definition record_with_cyclic_diagnostic : gmap nat obj :=
  {[ 0 := plain [field "d" (VRef 1)];
     1 := plain [field "category" (VRef 1); field "message" (VStr "m");
                 field "range" VNull] ]}.

(** [const shared = { x: 1 }; const v = [shared, shared]] *)
Definition shared_in_array : gmap nat obj :=
  {[ 0 := mkObj (CArray [VRef 1; VRef 1]) [] [];
     1 := plain [field "x" (VNum 1)] ]}.

(** What the flat codec gives back for [sample]: the date is a string. *)
Definition sample_flat_image : dval :=
  DObj [("name", DStr "x");
        ("items", DArr [DNum 1; DNull; DMap [(DStr "k", DBool true)]]);
        ("when", DStr "1970-01-01T00:00:00.000Z");
        ("tags", DSet [DStr "a"; DStr "b"]);
        ("span", DObj [("start", DNum 0); ("length", DNum 5)])].

(** [const a = ["a", "b", "c"]; a.start = 7] *)
Definition array_with_start : gmap nat obj :=
  {[ 0 := mkObj (CArray [VStr "a"; VStr "b"; VStr "c"]) [field "start" (VNum 7)] [] ]}.

(** [{ _type: "Date", value: "1970-01-01T00:00:00.000Z", note: 1 }] *)
Definition date_look_alike : gmap nat obj :=
  {[ 0 := plain [field "_type" (VStr "Date");
                 field "value" (VStr "1970-01-01T00:00:00.000Z");
                 field "note" (VNum 1)] ]}.

(** * Notions used in the statements *)

Section Notions.
Context `{Host}.
Import CacheSerializer.

(** The context [serialize] starts from. *)
Definition fresh_context : SerializationContext :=
  {| seen := ∅; refs := []; refCount := 0 |}.

(** The context after [l] got the next number. *)
Definition marked (l : loc) (c : SerializationContext) : SerializationContext :=
  {| seen := <[l := refCount c]> (seen c); refs := refs c; refCount := S (refCount c) |}.

(** The four classes the dispatch tests before any shape test. *)
Definition is_builtin (k : cls) : bool :=
  match k with
  | CDate _ | CRegExp _ _ | CMap _ | CSet _ => true
  | _ => false
  end.

(** The numbers handed out are below the counter, and no two objects share
    one. *)
Definition ctx_ok (c : SerializationContext) : Prop :=
  (∀ l n, seen c !! l = Some n → (n < refCount c)%nat) ∧
  (∀ l1 l2 n, seen c !! l1 = Some n → seen c !! l2 = Some n → l1 = l2).

(** From [c] to [c']: the counter does not decrease, an object keeps the
    number it has, and a number handed out in between is at least the old
    counter and below the new one. *)
Definition ctx_grows (c c' : SerializationContext) : Prop :=
  (refCount c ≤ refCount c')%nat ∧
  refs c' = refs c ∧
  (∀ l n, seen c !! l = Some n → seen c' !! l = Some n) ∧
  (∀ l n, seen c' !! l = Some n → seen c !! l = None → (refCount c ≤ n < refCount c')%nat).

(** What a computation does to the context, whatever it returns. *)
Definition steady {A} (m : M SerializationContext A) : Prop :=
  ∀ c r c', m c = (r, c') → ctx_grows c c' ∧ (ctx_ok c → ctx_ok c').

(** A record: an object that no test of the dispatch claims. *)
Definition is_record (o : obj) : Prop :=
  kind o = CObject ∧ _isTextRange o = inr false ∧ _isDiagnostic o = false.

Definition own_enumerable_keys (o : obj) : list string :=
  pkey <$> filter (λ p, penum p = true) (own o).

(** The record rule in the spec's words: the object's own enumerable keys,
    in order, each mapped to the encoding of its value; a key whose value
    raises while it is read or encoded is skipped; a key whose encoding is
    absence is omitted. *)
Definition record_step (recur : value → M SerializationContext enc) (o : obj)
    (entries : list (string * enc)) (key : string)
    : M SerializationContext (list (string * enc)) :=
  λ c, match (let* v := lift (get o key) in recur v) c with
       | (Ret e, c') =>
         (Ret (if is_undefined e then entries else obj_set key e entries), c')
       | (Throw _, c') => (Ret entries, c')
       | (Stuck, c') => (Stuck, c')
       end.

Definition encode_record (recur : value → M SerializationContext enc) (o : obj)
    : M SerializationContext enc :=
  let* entries := foldM (record_step recur o) [] (own_enumerable_keys o) in
  ret (EObj entries).

(** ** Values that survive a round trip *)

(** [null], a boolean, an integer or a string: the primitives the host
    writes as they are. *)
Definition is_scalar (v : value) : bool :=
  match v with
  | VNull | VBool _ | VNum _ | VStr _ => true
  | _ => false
  end.

(** The same scalar, on the decoder's side. *)
Definition scalar_image (v : value) : dval :=
  match v with
  | VNull => DNull
  | VBool b => DBool b
  | VNum n => DNum n
  | VStr s => DStr s
  | _ => DUndef
  end.

(** Keys the decoder reads as type markers, and the key that assignment
    does not store. *)
Definition reserved_keys : list string := "__proto__" :: TYPE_MARKERS.all.

(** No own property that [for..in] would list. *)
Definition bare (o : obj) : Prop := own_enumerable_keys o = [].

(** [Tree h v d L]: in the heap [h], the value [v] is built from the
    supported kinds, and [d] is the same structure on the decoder's side:
    the same kind at every node, the same scalars, the elements of
    arrays, sets and range collections in the same order, the entries of
    maps and records in the same order.  [L] lists the objects of [v] in
    the order of the walk, once for each time the walk reaches them; [v]
    is a tree when no object occurs twice in [L].

    The rules say what each kind has to look like for the text of the
    document to determine it: a date is valid and the host reads it back
    from its ISO string; the host accepts the source and the flags of a
    regular expression and gives them back; the keys of a map and the
    members of a set are distinct; a text range has [start] and [length]
    and nothing else, a diagnostic [category], [message] and [range] and
    nothing else, with a scalar category and message; the properties of a
    record are enumerable data properties with distinct keys, none of
    them reserved; an array, a range collection or a record does not pass
    for a text range or a diagnostic; dates, regular expressions, maps,
    sets, range collections and arrays have no enumerable property of
    their own besides their contents.  A number is an integer: [NaN], the
    infinities and [-0] do not come back as they are.  Absence, functions,
    symbols and BigInts are not supported anywhere below the root. *)
Inductive Tree (h : gmap nat obj) : value → dval → list nat → Prop :=
| T_null : Tree h VNull DNull []
| T_bool b : Tree h (VBool b) (DBool b) []
| T_num n : Tree h (VNum n) (DNum n) []
| T_str s : Tree h (VStr s) (DStr s) []
| T_date l o ms :
    h !! l = Some o → kind o = CDate (Some ms) → bare o →
    Date_new (JStr (Date_toISOString ms)) = Some ms →
    Tree h (VRef l) (DDate (Some ms)) [l]
| T_regexp l o source flags :
    h !! l = Some o → kind o = CRegExp source flags → bare o →
    RegExp_new (Some (JStr source)) (Some (JStr flags)) = inr (source, flags) →
    Tree h (VRef l) (DRegExp source flags) [l]
| T_map l o entries ds L :
    h !! l = Some o → kind o = CMap entries → bare o →
    NoDup entries.*1 →
    TreeEntries h entries ds L →
    Tree h (VRef l) (DMap ds) (l :: L)
| T_set l o members ds L :
    h !! l = Some o → kind o = CSet members → bare o →
    NoDup members →
    Trees h members ds L →
    Tree h (VRef l) (DSet ds) (l :: L)
| T_text_range l o a b :
    h !! l = Some o → kind o = CObject →
    own o = [field "start" (VNum a); field "length" (VNum b)] →
    Tree h (VRef l) (DObj [("start", DNum a); ("length", DNum b)]) [l]
| T_range_collection l o items ds L :
    h !! l = Some o → kind o = CTextRangeCollection items → bare o →
    _isTextRange o = inr false →
    Trees h items ds L →
    Tree h (VRef l) (DTextRangeCollection (DArr ds)) (l :: L)
| T_diagnostic l o category message range d L :
    h !! l = Some o → kind o = CObject →
    own o = [field "category" category; field "message" message; field "range" range] →
    is_scalar category = true → is_scalar message = true →
    _isTextRange o = inr false →
    Tree h range d L →
    Tree h (VRef l)
      (DObj [("category", scalar_image category); ("message", scalar_image message);
             ("range", d)])
      (l :: L)
| T_array l o elems ds L :
    h !! l = Some o → kind o = CArray elems → bare o →
    _isTextRange o = inr false → _isDiagnostic o = false →
    Trees h elems ds L →
    Tree h (VRef l) (DArr ds) (l :: L)
| T_record l o ds L :
    h !! l = Some o → is_record o →
    NoDup (own_keys o) →
    Forall (λ k, k ∉ reserved_keys) (own_keys o) →
    TreeProps h (own o) ds L →
    Tree h (VRef l) (DObj ds) (l :: L)
with Trees (h : gmap nat obj) : list value → list dval → list nat → Prop :=
| Ts_nil : Trees h [] [] []
| Ts_cons v d L vs ds Ls :
    Tree h v d L → Trees h vs ds Ls →
    Trees h (v :: vs) (d :: ds) (L ++ Ls)
with TreeEntries (h : gmap nat obj)
     : list (value * value) → list (dval * dval) → list nat → Prop :=
| Te_nil : TreeEntries h [] [] []
| Te_cons k v dk dv Lk Lv es ds Ls :
    Tree h k dk Lk → Tree h v dv Lv → TreeEntries h es ds Ls →
    TreeEntries h ((k, v) :: es) ((dk, dv) :: ds) (Lk ++ Lv ++ Ls)
with TreeProps (h : gmap nat obj)
     : list prop → list (string * dval) → list nat → Prop :=
| Tp_nil : TreeProps h [] [] []
| Tp_cons k v d L ps ds Ls :
    Tree h v d L → TreeProps h ps ds Ls →
    TreeProps h (field k v :: ps) ((k, d) :: ds) (L ++ Ls).

Scheme Tree_mut := Minimality for Tree Sort Prop
  with Trees_mut := Minimality for Trees Sort Prop
  with TreeEntries_mut := Minimality for TreeEntries Sort Prop
  with TreeProps_mut := Minimality for TreeProps Sort Prop.
Combined Scheme Tree_mutind from Tree_mut, Trees_mut, TreeEntries_mut, TreeProps_mut.

(** The tree the host writes for a scalar. *)
Definition scalar_json (v : value) : json :=
  match v with
  | VBool b => JBool b
  | VNum n => JNum n
  | VStr s => JStr s
  | _ => JNull
  end.

(** The host's walk over what the encoder returned, with any bound on its
    depth and from inside any objects. *)
Definition host_walk (n : nat) (h : gmap nat obj) (stack : list nat) (e : enc)
    : outcome (option json) * unit :=
  stringify_enc (SerializeJSONProperty no_replacer n h stack) e tt.

(** The host writes [e] as the tree [j]. *)
Definition walks (h : gmap nat obj) (e : enc) (j : json) : Prop :=
  ∀ n stack, host_walk n h stack e = (Ret (Some j), tt).

(** [j] decodes to [d] whenever the decoder may go as deep as [j] is. *)
Definition decodes (j : json) (d : dval) : Prop :=
  ∀ fuel refs, (json_depth j ≤ fuel)%nat →
    _deserializeValue fuel (Some j) {| de_refs := [] |} refs = Ret d.

(** [e] is not absence, the host writes it as some tree, and that tree
    decodes to [d]. *)
Definition codes (h : gmap nat obj) (e : enc) (d : dval) : Prop :=
  is_undefined e = false ∧ ∃ j, walks h e j ∧ decodes j d.

(** No two elements are the same key for [Map] and [Set]. *)
Fixpoint distinct (ds : list dval) : Prop :=
  match ds with
  | [] => True
  | d :: ds => Forall (λ d', same_value_zero d d' = false) ds ∧ distinct ds
  end.

(** None of the objects in [L] has a number yet. *)
Definition unseen (L : list nat) (c : SerializationContext) : Prop :=
  ∀ l, l ∈ L → seen c !! l = None.

(** From [c] to [c'], only objects in [L] got a number. *)
Definition marks_within (L : list nat) (c c' : SerializationContext) : Prop :=
  ∀ l, l ∉ L → seen c !! l = None → seen c' !! l = None.

(** ** Heaps on which the encoder returns *)

(** The values an object holds: its contents and what its properties
    read. *)
Definition values_of (o : obj) : list value :=
  match kind o with
  | CArray elems => elems
  | CMap entries => entries.*1 ++ entries.*2
  | CSet members => members
  | CTextRangeCollection items => items
  | _ => []
  end ++
  omap (λ p, match pread p with inr v => Some v | inl _ => None end)
       (own o ++ inherited o).

Definition in_heap (h : gmap nat obj) (v : value) : Prop :=
  match v with
  | VRef l => is_Some (h !! l)
  | _ => True
  end.

(** Every reference an object of the heap holds is in the heap. *)
Definition closed (h : gmap nat obj) : Prop :=
  ∀ l o, h !! l = Some o → Forall (in_heap h) (values_of o).

(** How many objects of the heap have no number yet. *)
Definition unmarked (h : gmap nat obj) (c : SerializationContext) : nat :=
  size (dom h ∖ dom (seen c)).

(** [m] keeps the context in order and, with fewer than [n] objects left to
    number, has a result. *)
Definition returns_within (h : gmap nat obj) (n : nat) {A}
    (m : M SerializationContext A) : Prop :=
  steady m ∧ ∀ c, (unmarked h c < n)%nat → (m c).1 ≠ Stuck.

(** ** Postconditions and invariants of a computation *)

(** Whatever state [m] starts from: what it returns satisfies [P], and if
    it throws then [T] holds ([T := False]: it does not throw;
    [T := True]: nothing is said about a throw). *)
Definition ensures {St A} (T : Prop) (P : A → Prop) (m : M St A) : Prop :=
  ∀ c r c', m c = (r, c') →
    match r with Ret a => P a | Throw _ => T | Stuck => True end.

(** [m] keeps [I], whatever it returns. *)
Definition preserves {St A} (I : St → Prop) (m : M St A) : Prop :=
  ∀ c r c', m c = (r, c') → I c → I c'.

(** Every number below the counter has been given to an object. *)
Definition dense (c : SerializationContext) : Prop :=
  ∀ n, (n < refCount c)%nat → ∃ l, seen c !! l = Some n.

(** ** Heaps on which the encoder does not throw *)

(** [typeof v !== 'object'], or [v] is [null]. *)
Definition is_primitive (v : value) : bool :=
  match v with VRef _ => false | _ => true end.

(** [typeof v === 'bigint'] *)
Definition is_bigint (v : value) : bool :=
  match v with VBigInt _ => true | _ => false end.

(** No reference to the heap and no BigInt is left in [e]. *)
Fixpoint scalar_leaves (e : enc) : bool :=
  match e with
  | EVal v => is_primitive v && negb (is_bigint v)
  | EArr items => forallb scalar_leaves items
  | EObj entries => forallb (λ kv, scalar_leaves kv.2) entries
  end.

(** A new array or a new object. *)
Definition is_compound (e : enc) : bool :=
  match e with EVal _ => false | _ => true end.

(** Not an invalid date, and no accessor that throws. *)
Definition quiet_object (o : obj) : Prop :=
  kind o ≠ CDate None ∧ ∀ p, p ∈ own o ++ inherited o → ∃ v, pread p = inr v.

Definition quiet (h : gmap nat obj) : Prop :=
  ∀ l o, h !! l = Some o → quiet_object o.

(** No object holds a BigInt. *)
Definition no_bigint (h : gmap nat obj) : Prop :=
  ∀ l o, h !! l = Some o → Forall (λ v, is_bigint v = false) (values_of o).

(** An object of the heap, or a primitive that is not a BigInt. *)
Definition writable (h : gmap nat obj) (v : value) : Prop :=
  in_heap h v ∧ is_bigint v = false.

(** The category and the message of what passes for a diagnostic are not
    objects. *)
Definition plain_summaries (h : gmap nat obj) : Prop :=
  ∀ l o v, h !! l = Some o → _isDiagnostic o = true →
    get o "category" = inr v ∨ get o "message" = inr v → is_primitive v = true.

(** [undefined], a function or a symbol: what the host has no text for. *)
Definition is_absent (v : value) : bool :=
  match v with VUndef | VFun | VSymbol _ => true | _ => false end.

(** What a primitive that is not a BigInt comes back as when it is the
    root: the host writes [null] for a number that is not finite and [0]
    for [-0], and nothing for [undefined], a function or a symbol. *)
Definition root_image (v : value) : dval :=
  match v with
  | VSpecial NegZero => DNum 0
  | VSpecial _ => DNull
  | _ => scalar_image v
  end.

(** The tree the host writes for a primitive that is not a BigInt, where it
    has to write one: [null] where it has no text. *)
Definition element_json (v : value) : json :=
  match v with
  | VSpecial NegZero => JNum 0
  | _ => scalar_json v
  end.

(** What it comes back as when it is an element of an array: the host
    writes [null] where it has no text. *)
Definition element_image (v : value) : dval :=
  if is_absent v then DNull else root_image v.

(** ** Documents *)

Definition opt_depth (v : option json) : nat :=
  match v with Some j => json_depth j | None => 0%nat end.

(** Arrays, objects and scalars, with no key that the decoder reads as a
    marker or that assignment does not store; the keys of an object are
    distinct, as they are in every parsed object. *)
Fixpoint plain_data (j : json) : bool :=
  match j with
  | JArr items => forallb plain_data items
  | JObj entries =>
    bool_decide (NoDup entries.*1) &&
    forallb (λ kv, bool_decide (kv.1 ∉ reserved_keys) && plain_data kv.2) entries
  | _ => true
  end.



(** No object has a [_type]. *)
Fixpoint untagged (j : json) : bool :=
  match j with
  | JArr items => forallb untagged items
  | JObj entries =>
    negb (bool_decide ("_type" ∈ entries.*1)) && forallb (λ kv, untagged kv.2) entries
  | _ => true
  end.

(** ** The flat codec *)

(** The host's walk asks every object for a [toJSON] method before it
    hands it to the replacer.  In the model a [Date] has the one of
    [Date.prototype] and a function is not called: the objects of these
    statements have no [toJSON] of their own making, and on a date no
    property hides the one it inherits. *)
Definition no_toJSON (o : obj) : Prop :=
  match kind o with
  | CDate _ => has_property o "toJSON" = false
  | _ => ∃ v, get o "toJSON" = inr v ∧ v ≠ VFun
  end.

(** The objects the host writes property by property. *)
Definition plain_kind (k : cls) : bool :=
  match k with
  | CObject | CRegExp _ _ | CTextRangeCollection _ => true
  | _ => false
  end.

(** No object has a [toJSON] method of its own making (and no date a
    property that hides the one it inherits), and every own property is a
    data property, or an accessor that returns. *)
Definition data_properties (h : gmap nat obj) : Prop :=
  ∀ l o, h !! l = Some o →
    no_toJSON o ∧ ∀ p, p ∈ own o → ∃ v, pread p = inr v.

(** From a [seen] that has the objects of [stack], and with fewer than [n]
    objects of the heap outside [seen], [m] returns, and [seen] has only
    grown. *)
Definition flat_returns (h : gmap nat obj) (n : nat) (stack : list nat) {A}
    (m : M (gset nat) A) : Prop :=
  ∀ seen : gset nat, (∀ l, l ∈ stack → l ∈ seen) → (size (dom h ∖ seen) < n)%nat →
    ∃ a seen', m seen = (Ret a, seen') ∧ seen ⊆ seen'.

(** What [new Map] throws at an entry that is not an object. *)
Definition refusal : exn := TypeError "Iterator value is not an entry object".

Definition returns_or_refuses {A} (r : outcome A) : Prop :=
  match r with
  | Ret _ => True
  | Throw e => e = refusal
  | Stuck => False
  end.

(** [FlatTree h v d L]: what the flat codec gives back for [v] is [d].
    [null], a boolean, an integer and a string come back as they are,
    [NaN] and the infinities as [null], and [-0] as [0].  A date comes back
    as its ISO string (an invalid one as [null]), a map and a set as
    themselves when the images of their keys and members are distinct, an
    array as an array; an object comes back with its enumerable own
    properties, less those whose value is [undefined], a function or a
    symbol, and it has no property [_type].  No object has a [toJSON]
    method of its own making, and a date has the one of [Date.prototype].
    [L] lists the objects that the replacer adds to its visited set, in
    the order of the walk (a date is not among them: the replacer never
    sees one). *)
Inductive FlatTree (h : gmap nat obj) : value → dval → list nat → Prop :=
| F_null : FlatTree h VNull DNull []
| F_bool b : FlatTree h (VBool b) (DBool b) []
| F_num n : FlatTree h (VNum n) (DNum n) []
| F_str s : FlatTree h (VStr s) (DStr s) []
| F_special x : FlatTree h (VSpecial x) (root_image (VSpecial x)) []
| F_date l o ms :
    h !! l = Some o → kind o = CDate (Some ms) → no_toJSON o →
    FlatTree h (VRef l) (DStr (Date_toISOString ms)) []
| F_invalid_date l o :
    h !! l = Some o → kind o = CDate None → no_toJSON o →
    FlatTree h (VRef l) DNull []
| F_map l o entries ds L :
    h !! l = Some o → kind o = CMap entries → no_toJSON o →
    distinct ds.*1 →
    FlatEntries h entries ds L →
    FlatTree h (VRef l) (DMap ds) (l :: L)
| F_set l o members ds L :
    h !! l = Some o → kind o = CSet members → no_toJSON o →
    distinct ds →
    FlatTrees h members ds L →
    FlatTree h (VRef l) (DSet ds) (l :: L)
| F_array l o elems ds L :
    h !! l = Some o → kind o = CArray elems → no_toJSON o →
    FlatTrees h elems ds L →
    FlatTree h (VRef l) (DArr ds) (l :: L)
| F_record l o ds L :
    h !! l = Some o → kind o = CObject → no_toJSON o →
    "_type" ∉ own_keys o →
    FlatProps h (own o) ds L →
    FlatTree h (VRef l) (DObj ds) (l :: L)
with FlatTrees (h : gmap nat obj) : list value → list dval → list nat → Prop :=
| Fs_nil : FlatTrees h [] [] []
| Fs_cons v d L vs ds Ls :
    FlatTree h v d L → FlatTrees h vs ds Ls →
    FlatTrees h (v :: vs) (d :: ds) (L ++ Ls)
with FlatEntries (h : gmap nat obj)
     : list (value * value) → list (dval * dval) → list nat → Prop :=
| Fe_nil : FlatEntries h [] [] []
| Fe_cons k v dk dv Lk Lv es ds Ls :
    FlatTree h k dk Lk → FlatTree h v dv Lv → FlatEntries h es ds Ls →
    FlatEntries h ((k, v) :: es) ((dk, dv) :: ds) (Lk ++ Lv ++ Ls)
with FlatProps (h : gmap nat obj)
     : list prop → list (string * dval) → list nat → Prop :=
| Fp_nil : FlatProps h [] [] []
| Fp_cons k v d L ps ds Ls :
    FlatTree h v d L → FlatProps h ps ds Ls →
    FlatProps h (field k v :: ps) ((k, d) :: ds) (L ++ Ls)
| Fp_hidden p ps ds Ls :
    penum p = false → FlatProps h ps ds Ls →
    FlatProps h (p :: ps) ds Ls
| Fp_absent k v ps ds Ls :
    is_absent v = true → FlatProps h ps ds Ls →
    FlatProps h (field k v :: ps) ds Ls.

Scheme FlatTree_mut := Minimality for FlatTree Sort Prop
  with FlatTrees_mut := Minimality for FlatTrees Sort Prop
  with FlatEntries_mut := Minimality for FlatEntries Sort Prop
  with FlatProps_mut := Minimality for FlatProps Sort Prop.
Combined Scheme FlatTree_mutind from
  FlatTree_mut, FlatTrees_mut, FlatEntries_mut, FlatProps_mut.

End Notions.

(** * Properties *)

Section Properties.
Context `{Host}.
Import CacheSerializer.

(** The host's walk with the flat codec's replacer. *)
#[local] Abbreviation flat_walk := (SerializeJSONProperty SimpleSerializer.replacer).

(** ** The version gate *)

(** C5. Decode fails, and never returns a value, when the text is not
    well formed or when the document's version is absent or is not 1. The
    error it throws carries the context and the cause: the parser's error,
    or "Unsupported cache version" (or, for the document [null], the
    error of reading its version). *)
Theorem deserialize_rejects (t : text) :
  (∀ e, JSON_parse t = inl e →
     deserialize t =
     Throw (Error ("Failed to deserialize cache: " +:+ exn_toString e))) ∧
  (∀ parsed, JSON_parse t = inr parsed →
     json_get parsed "version" ≠ Some (JNum 1) →
     ∃ cause,
       deserialize t =
       Throw (Error ("Failed to deserialize cache: " +:+ exn_toString cause)) ∧
       (parsed ≠ JNull → cause = Error "Unsupported cache version")).
Proof.
  split.
  - intros e He. unfold deserialize. rewrite He. reflexivity.
  - intros parsed Hp Hv. unfold deserialize. rewrite Hp.
    destruct parsed;
      try (eexists; split; [reflexivity|done]);
      cbn [lifto bindo];
      destruct (json_get _ "version") as [[| |n| | |]|] eqn:E;
      try (eexists; split; [reflexivity|done]).
    destruct (decide (n = 1%Z)) as [->|Hn]; [done|].
    exists (Error "Unsupported cache version"). split; [|done].
    destruct n as [|[]|]; try done.
Qed.

(** ** The flat codec *)

(** C9. The host calls a date's [toJSON] before it calls the replacer, so
    the replacer sees a string, and the flat codec writes a date as its ISO
    string, without a [_type]. *)
Theorem flat_date_is_a_plain_string (h : gmap nat obj) l o ms :
  h !! l = Some o → kind o = CDate (Some ms) →
  SimpleSerializer.serialize h (VRef l) =
  Ret (Some (JSON_print (JStr (Date_toISOString ms)))).
Proof.
  intros Ho Hk. unfold SimpleSerializer.serialize, JSON_stringify.
  cbn [stringify_enc SerializeJSONProperty toJSON]. unfold bind, deref.
  rewrite Ho. cbn [ret]. rewrite Hk. reflexivity.
Qed.

(** The flat codec on the self-referential object: the second visit gives
    the sentinel. *)
Example flat_cycle_degrades :
  SimpleSerializer.serialize self_reference (VRef 0) =
  Ret (Some (JSON_print (JObj [("self", JStr "[Circular]")]))).
Proof. reflexivity. Qed.

(** The flat codec on a map and a set: both are written with a [_type]. *)
Example flat_map_and_set_are_tagged :
  SimpleSerializer.serialize sample (VRef 5) =
    Ret (Some (JSON_print
           (JObj [("_type", JStr "Map");
                  ("entries", JArr [JArr [JStr "k"; JBool true]])]))) ∧
  SimpleSerializer.serialize sample (VRef 3) =
    Ret (Some (JSON_print
           (JObj [("_type", JStr "Set"); ("values", JArr [JStr "a"; JStr "b"])]))).
Proof. split; reflexivity. Qed.

(** ** The kind dispatch *)

Lemma _serializeValue_seen fuel h l c n :
  seen c !! l = Some n →
  _serializeValue (S fuel) h (VRef l) c =
  (Ret (EObj [(TYPE_MARKERS.Circular, ENum (Z.of_nat n))]), c).
Proof.
  intros Hs. cbn [_serializeValue]. unfold bind, seen_get. rewrite Hs. reflexivity.
Qed.

Lemma _serializeValue_first fuel h l c o :
  seen c !! l = None → h !! l = Some o →
  _serializeValue (S fuel) h (VRef l) c =
  _serializeObject (_serializeValue fuel h) o (marked l c).
Proof.
  intros Hs Ho. cbn [_serializeValue]. unfold bind, seen_get, mark_seen, deref.
  rewrite Hs. cbn. unfold marked. rewrite Ho. unfold ret.
  destruct (_serializeObject _ _ _) as [[]]; reflexivity.
Qed.

Lemma not_text_range_not_parse_node (o : obj) :
  _isTextRange o = inr false → _isParseNode o = inr false.
Proof.
  unfold _isTextRange, _isParseNode. intros Ht.
  destruct (has_property o "nodeType" && has_property o "id"); [|done].
  exact Ht.
Qed.

Lemma text_range_test (o : obj) (a b : value) :
  get o "start" = inr a → get o "length" = inr b →
  is_number a = true → is_number b = true →
  _isTextRange o = inr true.
Proof. unfold _isTextRange. intros -> -> -> ->. reflexivity. Qed.

(** C10, as amended. An object that is none of [Date], [RegExp], [Map] and
    [Set], met for the first time, whose [start] and [length] are both
    numbers, is encoded under the [__TextRange__] marker with [start] and
    [length] and nothing else, whatever other properties it has.  And an
    object that fails the text-range test fails the parse-node test, so
    the [__ParseNode__] branch is never taken. *)
Theorem text_range_test_comes_first :
  (∀ fuel (h : gmap nat obj) l o c a b,
     h !! l = Some o → seen c !! l = None → is_builtin (kind o) = false →
     get o "start" = inr a → get o "length" = inr b →
     is_number a = true → is_number b = true →
     _serializeValue (S fuel) h (VRef l) c =
     (Ret (EObj [(TYPE_MARKERS.TextRange,
                  EObj [("start", EVal a); ("length", EVal b)])]),
      marked l c)) ∧
  (∀ o, _isTextRange o = inr false → _isParseNode o = inr false).
Proof.
  split; [|exact not_text_range_not_parse_node].
  intros fuel h l o c a b Ho Hs Hk Ha Hb Hna Hnb.
  rewrite (_serializeValue_first _ _ _ _ o) by done.
  unfold _serializeObject.
  rewrite (text_range_test o a b) by done.
  destruct (kind o); try discriminate; cbn; unfold bind, lift; rewrite Ha, Hb; reflexivity.
Qed.


(** ** Identities *)

Lemma ctx_grows_refl c : ctx_grows c c.
Proof.
  unfold ctx_grows. split; [lia|]. split; [done|]. split; [done|].
  intros l n H1 H2. congruence.
Qed.

Lemma ctx_grows_trans c1 c2 c3 :
  ctx_grows c1 c2 → ctx_grows c2 c3 → ctx_grows c1 c3.
Proof.
  intros (Hn1 & Hr1 & Hk1 & Hf1) (Hn2 & Hr2 & Hk2 & Hf2).
  unfold ctx_grows. split; [lia|]. split; [congruence|]. split; [auto|].
  intros l n H3 H1.
  destruct (seen c2 !! l) as [m|] eqn:E.
  - assert (m = n) by (apply Hk2 in E; congruence). subst.
    apply Hf1 in E; [lia|done].
  - apply Hf2 in H3; [lia|done].
Qed.

Lemma marked_grows l c : seen c !! l = None → ctx_grows c (marked l c).
Proof.
  intros Hl. unfold ctx_grows, marked; cbn.
  split; [lia|]. split; [done|]. split.
  - intros l' n Hn. rewrite lookup_insert_ne; [done|congruence].
  - intros l' n Hn Hnone. destruct (decide (l = l')) as [->|Hne].
    + rewrite lookup_insert_eq in Hn. injection Hn as <-. lia.
    + rewrite lookup_insert_ne in Hn by done. congruence.
Qed.

Lemma marked_ok l c : seen c !! l = None → ctx_ok c → ctx_ok (marked l c).
Proof.
  intros Hl [Hlt Hinj]. unfold marked. split; cbn.
  - intros l' n. destruct (decide (l = l')) as [->|Hne].
    + rewrite lookup_insert_eq. intros [= <-]. lia.
    + rewrite lookup_insert_ne by done. intros Hn. apply Hlt in Hn. lia.
  - intros l1 l2 n.
    destruct (decide (l = l1)) as [<-|H1], (decide (l = l2)) as [<-|H2];
      rewrite ?lookup_insert_eq, ?lookup_insert_ne by done; try done.
    + intros [= <-] Hn. apply Hlt in Hn. lia.
    + intros Hn [= <-]. apply Hlt in Hn. lia.
    + apply Hinj.
Qed.

Lemma steady_ret {A} (a : A) : steady (ret a).
Proof. intros c r c' [= <- <-]. split; [apply ctx_grows_refl|done]. Qed.

Lemma steady_throw {A} e : steady (throw (A := A) e).
Proof. intros c r c' [= <- <-]. split; [apply ctx_grows_refl|done]. Qed.

Lemma steady_stuck {A} : steady (stuck (A := A)).
Proof. intros c r c' [= <- <-]. split; [apply ctx_grows_refl|done]. Qed.

Lemma steady_lift {A} (x : exn + A) : steady (lift x).
Proof. destruct x; [apply steady_throw|apply steady_ret]. Qed.

Lemma steady_deref (h : gmap nat obj) l : steady (deref h l).
Proof. unfold deref. destruct (h !! l); [apply steady_ret|apply steady_stuck]. Qed.

Lemma steady_bind {A B} (m : M SerializationContext A) (k : A → M SerializationContext B) :
  steady m → (∀ a, steady (k a)) → steady (bind m k).
Proof.
  intros Hm Hk c r c'. unfold bind.
  destruct (m c) as [[a|e|] c1] eqn:E; apply Hm in E as [G O].
  - intros Ek. apply Hk in Ek as [G' O']. split; [by eapply ctx_grows_trans|auto].
  - intros [= <- <-]. done.
  - intros [= <- <-]. done.
Qed.

Lemma steady_try_catch {A} (m : M SerializationContext A) handler :
  steady m → (∀ e, steady (handler e)) → steady (try_catch m handler).
Proof.
  intros Hm Hk c r c'. unfold try_catch.
  destruct (m c) as [[a|e|] c1] eqn:E; apply Hm in E as [G O].
  - intros [= <- <-]. done.
  - intros Ek. apply Hk in Ek as [G' O']. split; [by eapply ctx_grows_trans|auto].
  - intros [= <- <-]. done.
Qed.

Lemma steady_mapM {A B} (f : A → M SerializationContext B) l :
  (∀ x, steady (f x)) → steady (mapM f l).
Proof.
  intros Hf. induction l as [|x l IH]; cbn [mapM].
  - apply steady_ret.
  - apply steady_bind; [done|]. intros y.
    apply steady_bind; [done|]. intros ys. apply steady_ret.
Qed.

Lemma steady_foldM {A B} (f : B → A → M SerializationContext B) l acc :
  (∀ b x, steady (f b x)) → steady (foldM f acc l).
Proof.
  intros Hf. revert acc. induction l as [|x l IH]; intros acc; cbn [foldM].
  - apply steady_ret.
  - apply steady_bind; [done|]. intros b. apply IH.
Qed.

Ltac steady_step :=
  first
    [ apply steady_ret | apply steady_throw | apply steady_stuck
    | apply steady_lift | apply steady_deref
    | apply steady_bind; [|intros ?]
    | apply steady_try_catch; [|intros ?]
    | apply steady_mapM; intros ?
    | apply steady_foldM; intros ? ?
    | assumption
    | match goal with
      | |- steady (match ?x with _ => _ end) => destruct x
      | |- steady (if ?b then _ else _) => destruct b
      | H : ∀ v, steady (?f v) |- steady (?f _) => apply H
      end ].

Lemma steady_serializeObject recur o :
  (∀ v, steady (recur v)) → steady (_serializeObject recur o).
Proof. intros IH. unfold _serializeObject. repeat steady_step. Qed.

Lemma steady_serializeValue fuel h v : steady (_serializeValue fuel h v).
Proof.
  revert v. induction fuel as [|fuel IH]; intros v;
    destruct v; cbn [_serializeValue];
    try apply steady_ret; try apply steady_stuck.
  intros c r c'.
  destruct (seen c !! l) as [n|] eqn:Hs.
  - unfold bind, seen_get. rewrite Hs. intros [= <- <-].
    split; [apply ctx_grows_refl|done].
  - unfold bind at 1 2. unfold seen_get, mark_seen. rewrite Hs. cbn.
    fold (marked l c). intros E.
    assert (steady (let* o := deref h l in _serializeObject (_serializeValue fuel h) o)) as St.
    { apply steady_bind; [apply steady_deref|]. intros o.
      apply steady_serializeObject, IH. }
    apply St in E as [G O]. split.
    + eapply ctx_grows_trans; [by apply marked_grows|done].
    + intros Hok. by apply O, marked_ok.
Qed.

(** C4. Within one encode call, every object gets one number, from a
    counter that only goes up, the first time it is visited; every later
    visit returns the circular marker with that number and touches
    nothing; and this is decided before the object's kind is looked
    at (no condition on the object, which need not even be in the heap).
    Numbers are never reused or changed, whatever the call returns. *)
Theorem identity_assigned_once fuel (h : gmap nat obj) v c r c' :
  _serializeValue (S fuel) h v c = (r, c') →
  ctx_grows c c' ∧ (ctx_ok c → ctx_ok c') ∧
  (∀ l, v = VRef l →
     match seen c !! l with
     | Some n => r = Ret (EObj [(TYPE_MARKERS.Circular, ENum (Z.of_nat n))]) ∧ c' = c
     | None => seen c' !! l = Some (refCount c)
     end).
Proof.
  intros E. pose proof (steady_serializeValue _ _ _ _ _ _ E) as [G O].
  split; [done|]. split; [done|]. intros l ->.
  destruct (seen c !! l) as [n|] eqn:Hs.
  - rewrite (_serializeValue_seen _ _ _ _ n) in E by done. by injection E as <- <-.
  - revert E. cbn [_serializeValue]. unfold bind at 1 2. unfold seen_get, mark_seen.
    rewrite Hs. cbn. fold (marked l c). intros E.
    assert (steady (let* o := deref h l in _serializeObject (_serializeValue fuel h) o)) as St.
    { apply steady_bind; [apply steady_deref|]. intros o.
      apply steady_serializeObject. intros v. apply steady_serializeValue. }
    apply St in E as [(_ & _ & Hk & _) _]. apply Hk. unfold marked. cbn.
    apply lookup_insert_eq.
Qed.


(** ** Records *)

Lemma foldM_app {St A B} (f : B → A → M St B) acc l1 l2 :
  ∀ c, foldM f acc (l1 ++ l2) c = (let* acc := foldM f acc l1 in foldM f acc l2) c.
Proof.
  revert acc. induction l1 as [|x l1 IH]; intros acc c; cbn [foldM app].
  - reflexivity.
  - unfold bind. destruct (f acc x c) as [[b|e|] c1]; [|done..].
    rewrite IH. reflexivity.
Qed.

Lemma foldM_ext {St A B} (f g : B → A → M St B) acc l :
  (∀ b x, x ∈ l → ∀ c, f b x c = g b x c) →
  ∀ c, foldM f acc l c = foldM g acc l c.
Proof.
  revert acc. induction l as [|x l IH]; intros acc Hfg c; cbn [foldM]; [done|].
  unfold bind. rewrite Hfg by left.
  destruct (g acc x c) as [[b|e|] c1]; [|done..].
  apply IH. intros b' y Hy. apply Hfg. by right.
Qed.

Lemma foldM_skip {St A B} (f : B → A → M St B) acc l :
  (∀ b x, x ∈ l → ∀ c, f b x c = (Ret b, c)) →
  ∀ c, foldM f acc l c = (Ret acc, c).
Proof.
  induction l as [|x l IH]; intros Hf c; cbn [foldM]; [done|].
  unfold bind. rewrite Hf by left. apply IH. intros b y Hy. apply Hf. by right.
Qed.

(** What holds of the accumulator at the start and is kept by each step
    that returns holds of the result. *)
Lemma foldM_invariant {St A B} (P : B → Prop) (f : B → A → M St B) acc l c b c' :
  P acc →
  (∀ b x c b' c', x ∈ l → P b → f b x c = (Ret b', c') → P b') →
  foldM f acc l c = (Ret b, c') → P b.
Proof.
  revert acc c. induction l as [|x l IH]; intros acc c Hacc Hf; cbn [foldM].
  - by intros [= <- <-].
  - unfold bind. destruct (f acc x c) as [[b1|e|] c1] eqn:E; [|done..].
    apply IH; [|intros; eapply Hf; [by right|done..]].
    eapply Hf; [by left|done..].
Qed.

Lemma foldM_never_throws {St A B} (f : B → A → M St B) acc l c :
  (∀ b x c e, (f b x c).1 ≠ Throw e) → ∀ e, (foldM f acc l c).1 ≠ Throw e.
Proof.
  intros Hf. revert acc c. induction l as [|x l IH]; intros acc c e; cbn [foldM]; [done|].
  unfold bind. destruct (f acc x c) as [[b1|e1|] c1] eqn:E; [apply IH| |done].
  specialize (Hf acc x c e1). by rewrite E in Hf.
Qed.

Lemma obj_set_keys {A} (k k' : string) (v : A) l :
  k' ∈ (obj_set k v l).*1 → k' = k ∨ k' ∈ l.*1.
Proof.
  unfold obj_set. destruct (String.eqb k "__proto__"); [by right|].
  induction l as [|[k1 v1] l IH]; cbn.
  - intros ->%list_elem_of_singleton. by left.
  - destruct (String.eqb k1 k) eqn:E; cbn.
    + intros [->|?]%elem_of_cons; [by left|]. right. by right.
    + intros [->|?]%elem_of_cons; [right; by left|].
      destruct IH as [->|?]; [done|by left|]. right. by right.
Qed.

Lemma record_loop recur o c :
  foldM (λ serialized key,
           if hasOwnProperty o key then
             try_catch
               (let* v := lift (get o key) in
                let* serializedValue := recur v in
                if is_undefined serializedValue then ret serialized
                else ret (obj_set key serializedValue serialized))
               (λ e, ret serialized)
           else ret serialized)
        [] (for_in_keys o) c =
  foldM (record_step recur o) [] (own_enumerable_keys o) c.
Proof.
  unfold for_in_keys. rewrite foldM_app. unfold bind at 1.
  match goal with |- context [foldM ?f [] (pkey <$> filter _ (own o)) c] =>
    rewrite (foldM_ext f (record_step recur o))
  end.
  - fold (own_enumerable_keys o).
    destruct (foldM _ [] (own_enumerable_keys o) c) as [[b|e|] c1]; [|done..].
    apply foldM_skip. intros b' k Hk c2.
    apply list_elem_of_fmap in Hk as (p & -> & Hp).
    apply list_elem_of_filter in Hp as [[_ Hp] _].
    unfold hasOwnProperty. by rewrite bool_decide_eq_false_2.
  - intros b k Hk c2.
    apply list_elem_of_fmap in Hk as (p & -> & Hp).
    apply list_elem_of_filter in Hp as [_ Hp].
    unfold hasOwnProperty. rewrite bool_decide_eq_true_2
      by (unfold own_keys; apply list_elem_of_fmap; eauto).
    unfold record_step, try_catch, bind, lift.
    destruct (get o (pkey p)) as [e0|v0]; [reflexivity|]. unfold ret.
    destruct (recur v0 c2) as [[e1| |] c3]; [|reflexivity..].
    destruct (is_undefined e1); reflexivity.
Qed.

(** The walk over a record goes through its own enumerable keys and no
    others; a key whose value raises while it is read or encoded is
    skipped, a key whose encoding is absence (an [undefined] or a
    function) is omitted, and the walk never throws. *)
Lemma record_walk fuel (h : gmap nat obj) l o c :
  h !! l = Some o → seen c !! l = None → is_record o →
  _serializeValue (S fuel) h (VRef l) c =
    encode_record (_serializeValue fuel h) o (marked l c) ∧
  (∀ e, (_serializeValue (S fuel) h (VRef l) c).1 ≠ Throw e) ∧
  (∀ e, (_serializeValue (S fuel) h (VRef l) c).1 = Ret e →
     ∃ entries, e = EObj entries ∧
       ∀ k, k ∈ entries.*1 →
         k ∈ own_enumerable_keys o ∧
         ∃ v, get o k = inr v ∧ v ≠ VUndef ∧ v ≠ VFun).
Proof.
  intros Ho Hs (Hk & Ht & Hd).
  assert (_serializeValue (S fuel) h (VRef l) c =
          encode_record (_serializeValue fuel h) o (marked l c)) as E.
  { rewrite (_serializeValue_first _ _ _ _ o) by done.
    unfold _serializeObject, encode_record.
    rewrite Hk, Ht, (not_text_range_not_parse_node o Ht), Hd.
    cbn [lift]. unfold bind at 1. cbn [ret]. unfold bind at 1. cbn [ret].
    unfold bind at 1. rewrite record_loop. reflexivity. }
  split; [done|]. rewrite E. unfold encode_record.
  set (f := record_step (_serializeValue fuel h) o).
  split.
  - intros e. unfold bind.
    assert (∀ e, (foldM f [] (own_enumerable_keys o) (marked l c)).1 ≠ Throw e) as Hn.
    { apply foldM_never_throws. intros b x c2 e2. unfold f, record_step, bind.
      destruct (lift (get o x) c2) as [[v|?|] c3]; [|done..].
      by destruct (_serializeValue fuel h v c3) as [[?|?|] ?]. }
    destruct (foldM f [] (own_enumerable_keys o) (marked l c)) as [[b|e1|] c1] eqn:Ef;
      [done| |done].
    by destruct (Hn e1).
  - intros e. unfold bind.
    destruct (foldM f [] (own_enumerable_keys o) (marked l c)) as [[b|e1|] c1] eqn:Ef;
      [|done..].
    intros [= <-]. exists b. split; [done|].
    eapply (foldM_invariant
              (λ b, ∀ k, k ∈ b.*1 → k ∈ own_enumerable_keys o ∧
                         ∃ v, get o k = inr v ∧ v ≠ VUndef ∧ v ≠ VFun));
      [| |exact Ef].
    + intros k Hk'. by apply elem_of_nil in Hk'.
    + intros b0 x c0 b' c' Hx Hb0. unfold f, record_step, bind, lift.
      destruct (get o x) as [e0|v] eqn:Eg; [by intros [= <- <-]|].
      unfold ret at 1.
      destruct (_serializeValue fuel h v c0) as [[e0|?|] c3] eqn:Ev;
        [|by intros [= <- <-]|done].
      intros [= <- <-]. destruct (is_undefined e0) eqn:Eu; [done|].
      intros k [->|Hk']%obj_set_keys; [|by apply Hb0].
      split; [done|]. exists v. split; [done|].
      split; intros ->; destruct fuel; cbn in Ev; injection Ev as <- <-; done.
Qed.


(** ** The round trip: what the host writes *)

Lemma walks_scalar h v : is_scalar v = true → walks h (EVal v) (scalar_json v).
Proof. intros Hv n stack. destruct v; try discriminate; destruct n; reflexivity. Qed.

Lemma walks_arr h items js :
  Forall2 (walks h) items js → walks h (EArr items) (JArr js).
Proof.
  intros HF n stack. unfold host_walk. cbn [stringify_enc].
  set (go := fix go (items : list enc) : M unit (list json) := _).
  assert (go items tt = (Ret js, tt)) as E.
  { induction HF as [|x j items js Hx _ IH]; [reflexivity|].
    cbn. unfold bind. specialize (Hx n stack). unfold host_walk in Hx.
    rewrite Hx. fold go. rewrite IH. reflexivity. }
  unfold bind. rewrite E. reflexivity.
Qed.

Lemma walks_obj h (entries : list (string * enc)) (js : list (string * json)) :
  Forall2 (λ kx kj, kx.1 = kj.1 ∧ walks h kx.2 kj.2) entries js →
  walks h (EObj entries) (JObj js).
Proof.
  intros HF n stack. unfold host_walk. cbn [stringify_enc].
  set (go := fix go (entries : list (string * enc)) : M unit (list (string * json)) := _).
  assert (go entries tt = (Ret js, tt)) as E.
  { induction HF as [|[k x] [k' j] entries js [Hk Hx] _ IH]; [reflexivity|].
    cbn in Hk, Hx. subst k'.
    cbn. unfold bind. specialize (Hx n stack). unfold host_walk in Hx.
    rewrite Hx. fold go. rewrite IH. reflexivity. }
  unfold bind. rewrite E. reflexivity.
Qed.


(** ** The round trip: what the decoder reads *)

Lemma json_depth_arr items n :
  (json_depth (JArr items) ≤ S n)%nat → Forall (λ j, (json_depth j ≤ n)%nat) items.
Proof.
  cbn [json_depth]. intros Hd. apply le_S_n in Hd.
  induction items as [|j items IH]; constructor; cbn in Hd; [lia|].
  apply IH. unfold list_max. lia.
Qed.

Lemma json_depth_obj (entries : list (string * json)) n :
  (json_depth (JObj entries) ≤ S n)%nat →
  Forall (λ kj, (json_depth kj.2 ≤ n)%nat) entries.
Proof.
  cbn [json_depth]. intros Hd. apply le_S_n in Hd.
  induction entries as [|j entries IH]; constructor; cbn in Hd; [lia|].
  apply IH. unfold list_max. lia.
Qed.

Lemma json_depth_pos_arr items : (0 < json_depth (JArr items))%nat.
Proof. cbn. lia. Qed.

Lemma json_depth_pos_obj entries : (0 < json_depth (JObj entries))%nat.
Proof. cbn. lia. Qed.

Lemma _deserializeValue_obj fuel entries context refs :
  _deserializeValue (S fuel) (Some (JObj entries)) context refs =
  _deserializeObject (λ v, _deserializeValue fuel v context refs) (JObj entries) context.
Proof. reflexivity. Qed.

Lemma _deserializeValue_arr fuel items context refs :
  _deserializeValue (S fuel) (Some (JArr items)) context refs =
  _deserializeObject (λ v, _deserializeValue fuel v context refs) (JArr items) context.
Proof. reflexivity. Qed.

Lemma mapo_ok {A B} (f : A → outcome B) xs ys :
  Forall2 (λ x y, f x = Ret y) xs ys → mapo f xs = Ret ys.
Proof.
  induction 1 as [|x y xs ys Hx _ IH]; [done|].
  cbn. rewrite Hx. cbn. rewrite IH. reflexivity.
Qed.

Lemma decodes_all js ds fuel refs :
  Forall2 decodes js ds → Forall (λ j, (json_depth j ≤ fuel)%nat) js →
  Forall2 (λ j d, _deserializeValue fuel (Some j) {| de_refs := [] |} refs = Ret d) js ds.
Proof.
  induction 1 as [|j d js ds Hj _ IH]; [constructor|].
  intros [Hd Hds]%Forall_cons. constructor; [by apply Hj|by apply IH].
Qed.

Lemma decodes_scalar v : is_scalar v = true → decodes (scalar_json v) (scalar_image v).
Proof. intros Hv fuel refs _. destruct v; try discriminate; destruct fuel; reflexivity. Qed.

Lemma decodes_arr js ds : Forall2 decodes js ds → decodes (JArr js) (DArr ds).
Proof.
  intros HF fuel refs Hd. destruct fuel as [|fuel]; [cbn in Hd; lia|].
  apply json_depth_arr in Hd.
  cbn [_deserializeValue]. unfold _deserializeObject. cbn [json_get].
  cbn -[mapo _deserializeValue].
  rewrite (mapo_ok _ js ds); [done|]. by apply decodes_all.
Qed.

Lemma decodes_date iso ms :
  Date_new (JStr iso) = Some ms →
  decodes (JObj [(TYPE_MARKERS.Date, JStr iso)]) (DDate (Some ms)).
Proof.
  intros Hn fuel refs Hd. destruct fuel as [|fuel]; [cbn in Hd; lia|].
  cbn. by rewrite Hn.
Qed.

Lemma decodes_regexp source flags :
  RegExp_new (Some (JStr source)) (Some (JStr flags)) = inr (source, flags) →
  decodes (JObj [(TYPE_MARKERS.RegExp,
                  JObj [("source", JStr source); ("flags", JStr flags)])])
          (DRegExp source flags).
Proof.
  intros Hn fuel refs Hd. destruct fuel as [|fuel]; [cbn in Hd; lia|].
  cbn. by rewrite Hn.
Qed.

Lemma decodes_text_range a b :
  decodes (JObj [(TYPE_MARKERS.TextRange, JObj [("start", JNum a); ("length", JNum b)])])
          (DObj [("start", DNum a); ("length", DNum b)]).
Proof.
  intros fuel refs Hd. destruct fuel as [|fuel]; [cbn in Hd; lia|]. reflexivity.
Qed.


Lemma Set_add_fresh x s :
  Forall (λ y, same_value_zero y x = false) s → Set_add x s = s ++ [x].
Proof.
  induction 1 as [|y s Hy _ IH]; [done|]. cbn. by rewrite Hy, IH.
Qed.

Lemma Set_new_distinct ds : distinct ds → Set_new ds = ds.
Proof.
  unfold Set_new. change ds with ([] ++ ds) at 3.
  assert (Forall (λ y, Forall (λ x, same_value_zero y x = false) ds) []) as Hacc
    by constructor.
  revert Hacc. generalize (@nil dval) as acc.
  induction ds as [|x ds IH]; intros acc Hacc Hd; cbn [fold_left].
  - by rewrite app_nil_r.
  - destruct Hd as [Hx Hd]. rewrite Set_add_fresh.
    + rewrite IH; [by rewrite <- app_assoc| |done].
      apply Forall_app. split.
      * eapply Forall_impl; [exact Hacc|]. by intros y [_ ?]%Forall_cons.
      * by constructor.
    + eapply Forall_impl; [exact Hacc|]. by intros y [? _]%Forall_cons.
Qed.

Lemma Map_set_fresh k v m :
  Forall (λ kv, same_value_zero kv.1 k = false) m → Map_set k v m = m ++ [(k, v)].
Proof.
  induction 1 as [|[k' v'] m Hy _ IH]; [done|]. cbn in *. by rewrite Hy, IH.
Qed.

Lemma Map_new_distinct (ds : list (dval * dval)) : distinct ds.*1 → Map_new ds = ds.
Proof.
  unfold Map_new. change ds with ([] ++ ds) at 3.
  assert (Forall (λ y : dval * dval,
            Forall (λ x, same_value_zero y.1 x = false) ds.*1) []) as Hacc
    by constructor.
  revert Hacc. generalize (@nil (dval * dval)) as acc.
  induction ds as [|[k v] ds IH]; intros acc Hacc Hd; cbn [fold_left].
  - by rewrite app_nil_r.
  - destruct Hd as [Hx Hd]. cbn [fst snd]. rewrite Map_set_fresh.
    + rewrite IH; [by rewrite <- app_assoc| |done].
      apply Forall_app. split.
      * eapply Forall_impl; [exact Hacc|]. by intros y [_ ?]%Forall_cons.
      * by constructor.
    + eapply Forall_impl; [exact Hacc|]. by intros y [? _]%Forall_cons.
Qed.

Lemma decodes_set js ds :
  Forall2 decodes js ds → distinct ds →
  decodes (JObj [(TYPE_MARKERS.Set_, JArr js)]) (DSet ds).
Proof.
  intros HF Hdis fuel refs Hd. destruct fuel as [|fuel]; [cbn in Hd; lia|].
  assert (Forall (λ j, (json_depth j ≤ fuel)%nat) js) as Hjs.
  { apply json_depth_obj in Hd. apply Forall_cons in Hd as [Hd _]. cbn [snd] in Hd.
    destruct fuel as [|fuel]; [cbn in Hd; lia|].
    apply json_depth_arr in Hd. eapply Forall_impl; [exact Hd|]. cbn. lia. }
  rewrite _deserializeValue_obj. unfold _deserializeObject.
  cbn -[mapo Set_new _deserializeValue].
  rewrite (mapo_ok _ js ds) by (by apply decodes_all).
  cbn -[Set_new]. by rewrite Set_new_distinct.
Qed.

Lemma decodes_map (js : list json) (ds : list (dval * dval)) :
  Forall2 (λ j d, ∃ jk jv, j = JArr [jk; jv] ∧ decodes jk d.1 ∧ decodes jv d.2) js ds →
  distinct ds.*1 →
  decodes (JObj [(TYPE_MARKERS.Map, JArr js)]) (DMap ds).
Proof.
  intros HF Hdis fuel refs Hd. destruct fuel as [|fuel]; [cbn in Hd; lia|].
  assert (Forall (λ j, (json_depth j ≤ fuel)%nat) js) as Hjs.
  { apply json_depth_obj in Hd. apply Forall_cons in Hd as [Hd _]. cbn [snd] in Hd.
    destruct fuel as [|fuel]; [cbn in Hd; lia|].
    apply json_depth_arr in Hd. eapply Forall_impl; [exact Hd|]. cbn. lia. }
  rewrite _deserializeValue_obj. unfold _deserializeObject.
  cbn -[mapo Map_new _deserializeValue].
  rewrite (mapo_ok _ js ds).
  - cbn -[Map_new]. by rewrite Map_new_distinct.
  - clear Hd Hdis. induction HF as [|j [dk dv] js ds (jk & jv & -> & Hk & Hv) _ IH];
      [constructor|].
    apply Forall_cons in Hjs as [Hj Hjs]. constructor; [|by apply IH].
    cbn [fst snd] in *.
    destruct fuel as [|fuel]; [cbn in Hj; lia|].
    apply json_depth_arr in Hj.
    apply Forall_cons in Hj as [Hjk Hj]. apply Forall_cons in Hj as [Hjv _].
    cbn -[_deserializeValue].
    rewrite Hk by lia. cbn -[_deserializeValue]. rewrite Hv by lia. reflexivity.
Qed.

Lemma decodes_range_collection js ds n :
  Forall2 decodes js ds →
  decodes (JObj [(TYPE_MARKERS.TextRangeCollection,
                  JObj [("items", JArr js); ("count", JNum n)])])
          (DTextRangeCollection (DArr ds)).
Proof.
  intros HF fuel refs Hd. destruct fuel as [|fuel]; [cbn in Hd; lia|].
  rewrite _deserializeValue_obj. unfold _deserializeObject.
  cbn -[_deserializeValue].
  rewrite (decodes_arr js ds HF); [done|].
  apply json_depth_obj in Hd. apply Forall_cons in Hd as [Hd _]. cbn [snd] in Hd.
  destruct fuel as [|fuel]; [cbn in Hd; lia|].
  apply json_depth_obj in Hd. apply Forall_cons in Hd as [Hd _]. cbn [snd] in Hd. lia.
Qed.

Lemma decodes_diagnostic category message jr dr :
  is_scalar category = true → is_scalar message = true →
  decodes jr dr →
  decodes (JObj [(TYPE_MARKERS.Diagnostic,
                  JObj [("category", scalar_json category);
                        ("message", scalar_json message); ("range", jr)])])
          (DObj [("category", scalar_image category);
                 ("message", scalar_image message); ("range", dr)]).
Proof.
  intros Hc Hm Hr fuel refs Hd. destruct fuel as [|fuel]; [cbn in Hd; lia|].
  assert (json_depth jr ≤ fuel)%nat as Hjr.
  { apply json_depth_obj in Hd. apply Forall_cons in Hd as [Hd _]. cbn [snd] in Hd.
    destruct fuel as [|fuel]; [cbn in Hd; lia|].
    apply json_depth_obj in Hd.
    apply Forall_cons in Hd as [_ Hd]. apply Forall_cons in Hd as [_ Hd].
    apply Forall_cons in Hd as [Hd _]. cbn [snd] in Hd. lia. }
  rewrite _deserializeValue_obj. unfold _deserializeObject.
  cbn -[_deserializeValue]. rewrite Hr by done.
  destruct category, message; try discriminate; reflexivity.
Qed.


Lemma assoc_get_None {A} k (l : list (string * A)) : k ∉ l.*1 → assoc_get k l = None.
Proof.
  induction l as [|[k' v] l IH]; [done|]. cbn. intros Hk.
  apply not_elem_of_cons in Hk as [Hne Hk].
  destruct (String.eqb k' k) eqn:E; [|by apply IH].
  apply String.eqb_eq in E. congruence.
Qed.

Lemma assoc_set_fresh {A} k (v : A) l : k ∉ l.*1 → assoc_set k v l = l ++ [(k, v)].
Proof.
  induction l as [|[k' v'] l IH]; [done|]. cbn. intros Hk.
  apply not_elem_of_cons in Hk as [Hne Hk].
  destruct (String.eqb k' k) eqn:E; [|by rewrite IH].
  apply String.eqb_eq in E. congruence.
Qed.

Lemma obj_set_fresh {A} k (v : A) l :
  k ∉ reserved_keys → k ∉ l.*1 → obj_set k v l = l ++ [(k, v)].
Proof.
  intros Hr Hk. unfold obj_set.
  destruct (String.eqb k "__proto__") eqn:E; [|by apply assoc_set_fresh].
  apply String.eqb_eq in E. subst. exfalso. apply Hr. by left.
Qed.

Lemma tag_absent {A} (l : list (string * A)) k :
  Forall (λ k, k ∉ reserved_keys) l.*1 → k ∈ reserved_keys → assoc_get k l = None.
Proof.
  intros HF Hk. apply assoc_get_None. intros Hin.
  by eapply Forall_forall in HF; [|exact Hin].
Qed.

Lemma decode_entries (recur : option json → outcome dval)
    (js : list (string * json)) (ds acc : list (string * dval)) :
  Forall2 (λ kj kd, kj.1 = kd.1 ∧ recur (Some kj.2) = Ret kd.2) js ds →
  NoDup (acc.*1 ++ js.*1) → Forall (λ k, k ∉ reserved_keys) js.*1 →
  fold_left (λ acc kv,
               bindo acc (λ deserialized,
               bindo (recur (Some kv.2)) (λ d,
               Ret (obj_set kv.1 d deserialized))))
            js (Ret acc) = Ret (acc ++ ds).
Proof.
  intros HF. revert acc.
  induction HF as [|[k j] [k' d] js ds [Hk Hj] _ IH]; intros acc Hnd Hres;
    cbn [fold_left].
  - by rewrite app_nil_r.
  - cbn [fst snd] in *. subst k'. rewrite Hj. cbn [bindo].
    rewrite fmap_cons in Hres. apply Forall_cons in Hres as [Hr Hres].
    rewrite fmap_cons in Hnd. cbn [fst] in Hnd.
    rewrite obj_set_fresh; [|done|].
    + rewrite IH; [by rewrite <- app_assoc| |done].
      rewrite fmap_app. cbn. rewrite <- app_assoc. exact Hnd.
    + apply NoDup_app in Hnd as (_ & Hnd & _). intros Hin.
      apply (Hnd _ Hin). by left.
Qed.

Lemma decodes_record (js : list (string * json)) (ds : list (string * dval)) :
  Forall2 (λ kj kd, kj.1 = kd.1 ∧ decodes kj.2 kd.2) js ds →
  NoDup js.*1 → Forall (λ k, k ∉ reserved_keys) js.*1 →
  decodes (JObj js) (DObj ds).
Proof.
  intros HF Hnd Hres fuel refs Hd. destruct fuel as [|fuel]; [cbn in Hd; lia|].
  apply json_depth_obj in Hd.
  rewrite _deserializeValue_obj. unfold _deserializeObject. cbn [json_get].
  rewrite !(tag_absent js _ Hres)
    by (unfold reserved_keys, TYPE_MARKERS.all; set_solver).
  rewrite (decode_entries (λ v, _deserializeValue fuel v {| de_refs := [] |} refs) js ds []);
    [done| |done|done].
  clear Hnd Hres. induction HF as [|kj kd js ds [Hk Hj] _ IH]; [constructor|].
  apply Forall_cons in Hd as [Hd Hds]. constructor; [|by apply IH].
  split; [done|]. by apply Hj.
Qed.


(** ** The round trip: what the encoder returns *)

Lemma bind_eval {St A B} (m : M St A) (k : A → M St B) c a c' :
  m c = (Ret a, c') → bind m k c = k a c'.
Proof. intros E. unfold bind. by rewrite E. Qed.

Lemma _serializeObject_date recur o t c :
  kind o = CDate t →
  _serializeObject recur o c =
  (let* iso := lift (toISOString t) in ret (EObj [(TYPE_MARKERS.Date, EStr iso)])) c.
Proof. intros Hk. unfold _serializeObject. by rewrite Hk. Qed.

Lemma _serializeObject_regexp recur o source flags c :
  kind o = CRegExp source flags →
  _serializeObject recur o c =
  (Ret (EObj [(TYPE_MARKERS.RegExp,
               EObj [("source", EStr source); ("flags", EStr flags)])]), c).
Proof. intros Hk. unfold _serializeObject. by rewrite Hk. Qed.

Lemma _serializeObject_map recur o entries c :
  kind o = CMap entries →
  _serializeObject recur o c =
  (let* es := mapM (λ kv, let* k := recur kv.1 in let* v := recur kv.2 in
                          ret (EArr [k; v])) entries in
   ret (EObj [(TYPE_MARKERS.Map, EArr es)])) c.
Proof. intros Hk. unfold _serializeObject. by rewrite Hk. Qed.

Lemma _serializeObject_set recur o members c :
  kind o = CSet members →
  _serializeObject recur o c =
  (let* es := mapM recur members in ret (EObj [(TYPE_MARKERS.Set_, EArr es)])) c.
Proof. intros Hk. unfold _serializeObject. by rewrite Hk. Qed.

Lemma _serializeObject_text_range recur o a b c :
  is_builtin (kind o) = false →
  get o "start" = inr a → get o "length" = inr b →
  is_number a = true → is_number b = true →
  _serializeObject recur o c =
  (Ret (EObj [(TYPE_MARKERS.TextRange,
               EObj [("start", EVal a); ("length", EVal b)])]), c).
Proof.
  intros Hk Ha Hb Hna Hnb. unfold _serializeObject.
  rewrite (text_range_test o a b) by done.
  destruct (kind o); try discriminate; cbn; unfold bind, lift; rewrite Ha, Hb; reflexivity.
Qed.

(** C2. An object that passes the parse-node test (it has [nodeType] and
    [id], and a numeric [start] and [length]) is encoded under the
    [__TextRange__] marker, with [start] and [length] only: the text-range
    test comes first and it holds of every such object. *)
Theorem parse_node_encoded_as_text_range fuel (h : gmap nat obj) l o c a b :
  h !! l = Some o → seen c !! l = None → is_builtin (kind o) = false →
  has_property o "nodeType" = true → has_property o "id" = true →
  get o "start" = inr (VNum a) → get o "length" = inr (VNum b) →
  _isParseNode o = inr true ∧
  _serializeValue (S fuel) h (VRef l) c =
  (Ret (EObj [(TYPE_MARKERS.TextRange, EObj [("start", ENum a); ("length", ENum b)])]),
   marked l c).
Proof.
  intros Ho Hs Hk Hn Hi Ha Hb. split.
  - unfold _isParseNode. by rewrite Hn, Hi, Ha, Hb.
  - rewrite (_serializeValue_first _ _ _ _ o) by done.
    by apply (_serializeObject_text_range _ _ (VNum a) (VNum b)).
Qed.

Lemma _serializeObject_range_collection recur o items c :
  kind o = CTextRangeCollection items → _isTextRange o = inr false →
  _serializeObject recur o c =
  (let* es := mapM recur items in
   ret (EObj [(TYPE_MARKERS.TextRangeCollection,
               EObj [("items", EArr es); ("count", ENum (Z.of_nat (length items)))])])) c.
Proof. intros Hk Ht. unfold _serializeObject. by rewrite Hk, Ht. Qed.

Lemma _serializeObject_diagnostic recur o category message range c :
  is_builtin (kind o) = false →
  (∀ items, kind o ≠ CTextRangeCollection items) →
  _isTextRange o = inr false → _isDiagnostic o = true →
  get o "category" = inr category → get o "message" = inr message →
  get o "range" = inr range →
  _serializeObject recur o c =
  (let* range := recur range in
   ret (EObj [(TYPE_MARKERS.Diagnostic,
               EObj [("category", EVal category); ("message", EVal message);
                     ("range", range)])])) c.
Proof.
  intros Hk Hc Ht Hd Hcat Hmsg Hrange. unfold _serializeObject.
  rewrite Ht, (not_text_range_not_parse_node o Ht), Hd, Hcat, Hmsg, Hrange.
  destruct (kind o); try discriminate; try reflexivity.
  by destruct (Hc items).
Qed.

Lemma _serializeObject_array recur o elems c :
  kind o = CArray elems → _isTextRange o = inr false → _isDiagnostic o = false →
  _serializeObject recur o c = (let* es := mapM recur elems in ret (EArr es)) c.
Proof.
  intros Hk Ht Hd. unfold _serializeObject.
  by rewrite Hk, Ht, (not_text_range_not_parse_node o Ht), Hd.
Qed.

Lemma _serializeObject_record recur o c :
  is_record o → _serializeObject recur o c = encode_record recur o c.
Proof.
  intros (Hk & Ht & Hd). unfold _serializeObject, encode_record.
  rewrite Hk, Ht, (not_text_range_not_parse_node o Ht), Hd.
  cbn [lift]. unfold bind at 1. cbn [ret]. unfold bind at 1. cbn [ret].
  unfold bind at 1. rewrite record_loop. reflexivity.
Qed.

Lemma unseen_marked l L c :
  NoDup (l :: L) → unseen (l :: L) c → unseen L (marked l c).
Proof.
  intros [Hl _]%NoDup_cons Hu l' Hl'. unfold marked. cbn.
  rewrite lookup_insert_ne by (intros ->; done). apply Hu. by right.
Qed.

Lemma marks_within_marked l L c c' :
  marks_within L (marked l c) c' → marks_within (l :: L) c c'.
Proof.
  intros Hm l' Hl' Hs. apply not_elem_of_cons in Hl' as [Hne Hl'].
  apply Hm; [done|]. unfold marked. cbn. by rewrite lookup_insert_ne.
Qed.

Lemma marks_within_refl L c : marks_within L c c.
Proof. by intros l _ Hs. Qed.

Lemma marks_within_app L1 L2 c c1 c2 :
  marks_within L1 c c1 → marks_within L2 c1 c2 → marks_within (L1 ++ L2) c c2.
Proof.
  intros H1 H2 l Hl Hs. apply not_elem_of_app in Hl as [Hl1 Hl2]. auto.
Qed.

Lemma unseen_app_l L1 L2 c : unseen (L1 ++ L2) c → unseen L1 c.
Proof. intros Hu l Hl. apply Hu, elem_of_app. by left. Qed.

Lemma unseen_next L1 L2 c c1 :
  NoDup (L1 ++ L2) → unseen (L1 ++ L2) c → marks_within L1 c c1 → unseen L2 c1.
Proof.
  intros (_ & Hd & _)%NoDup_app Hu Hm l Hl. apply Hm.
  - intros Hl1. by apply (Hd _ Hl1).
  - apply Hu, elem_of_app. by right.
Qed.

Lemma codes_split h es ds :
  Forall2 (codes h) es ds → ∃ js, Forall2 (walks h) es js ∧ Forall2 decodes js ds.
Proof.
  induction 1 as [|e d es ds (_ & j & Hw & Hd) _ (js & Hws & Hds)].
  - exists []. split; constructor.
  - exists (j :: js). split; by constructor.
Qed.


(** ** The round trip: trees *)

Lemma Tree_distinct h v d L v' d' L' :
  Tree h v d L → Tree h v' d' L' → v ≠ v' → same_value_zero d d' = false.
Proof.
  intros T1 T2 Hne. destruct T1, T2; cbn; try done.
  - destruct b, b0; done.
  - apply Z.eqb_neq. congruence.
  - apply String.eqb_neq. congruence.
Qed.

Lemma Trees_elem h vs ds L d :
  Trees h vs ds L → d ∈ ds → ∃ v L', v ∈ vs ∧ Tree h v d L'.
Proof.
  induction 1 as [|v d0 L0 vs ds Ls Hv _ IH]; [by intros ?%elem_of_nil|].
  intros [->|Hd]%elem_of_cons.
  - exists v, L0. split; [by left|done].
  - destruct (IH Hd) as (v' & L' & Hin & HT). exists v', L'. split; [by right|done].
Qed.

Lemma Trees_distinct h vs ds L : Trees h vs ds L → NoDup vs → distinct ds.
Proof.
  induction 1 as [|v d0 L0 vs ds Ls Hv Hvs IH]; [done|].
  intros [Hnin Hnd]%NoDup_cons. split; [|by apply IH].
  apply Forall_forall. intros d' Hd'.
  destruct (Trees_elem _ _ _ _ _ Hvs Hd') as (v' & L' & Hin & HT).
  eapply Tree_distinct; [done..|]. intros ->. done.
Qed.

Lemma TreeEntries_keys h es ds L :
  TreeEntries h es ds L → ∃ L', Trees h es.*1 ds.*1 L'.
Proof.
  induction 1 as [|k v dk dv Lk Lv es ds Ls Hk Hv _ [L' IH]].
  - exists []. constructor.
  - exists (Lk ++ L'). cbn. by constructor.
Qed.

Lemma TreeEntries_distinct h es ds L :
  TreeEntries h es ds L → NoDup es.*1 → distinct ds.*1.
Proof.
  intros [L' HT]%TreeEntries_keys. by eapply Trees_distinct.
Qed.

Lemma TreeProps_fields h ps ds L :
  TreeProps h ps ds L → filter (λ p, penum p = true) ps = ps.
Proof.
  induction 1 as [|k v d L0 ps ds Ls Hv _ IH]; [done|].
  rewrite filter_cons_True by done. by rewrite IH.
Qed.

Lemma find_prop_NoDup p ps :
  NoDup (pkey <$> ps) → p ∈ ps → find_prop (pkey p) ps = Some p.
Proof.
  induction ps as [|q ps IH]; [by intros _ ?%elem_of_nil|].
  rewrite fmap_cons. intros [Hq Hnd]%NoDup_cons [->|Hp]%elem_of_cons; cbn.
  - by rewrite String.eqb_refl.
  - destruct (String.eqb (pkey q) (pkey p)) eqn:E; [|by apply IH].
    apply String.eqb_eq in E. exfalso. apply Hq. rewrite E.
    apply list_elem_of_fmap. eauto.
Qed.

Lemma get_own_field o p :
  kind o = CObject → NoDup (own_keys o) → p ∈ own o → get o (pkey p) = pread p.
Proof.
  intros Hk Hnd Hp. unfold get. rewrite Hk.
  by rewrite (find_prop_NoDup p (own o)).
Qed.


Lemma TreeProps_keys h ps ds L : TreeProps h ps ds L → ds.*1 = pkey <$> ps.
Proof.
  induction 1 as [|k v d L0 ps ds Ls Hv _ IH]; [done|]. cbn. by rewrite IH.
Qed.

Lemma codes_scalar h v : is_scalar v = true → codes h (EVal v) (scalar_image v).
Proof.
  intros Hv. split; [by destruct v|]. exists (scalar_json v).
  split; [by apply walks_scalar|by apply decodes_scalar].
Qed.

Lemma codes_entries_split h (es : list enc) (ds : list (dval * dval)) :
  Forall2 (λ e d, ∃ ek ev, e = EArr [ek; ev] ∧ codes h ek d.1 ∧ codes h ev d.2) es ds →
  ∃ js, Forall2 (walks h) es js ∧
        Forall2 (λ j d, ∃ jk jv, j = JArr [jk; jv] ∧ decodes jk d.1 ∧ decodes jv d.2)
          js ds.
Proof.
  induction 1 as [|e d es ds (ek & ev & -> & (_ & jk & Hwk & Hdk) & (_ & jv & Hwv & Hdv))
                    _ (js & Hws & Hds)].
  - exists []. split; constructor.
  - exists (JArr [jk; jv] :: js). split; constructor; try done.
    + apply walks_arr. by repeat constructor.
    + by exists jk, jv.
Qed.

Lemma codes_props_split h (es : list (string * enc)) (ds : list (string * dval)) :
  Forall2 (λ e kd, e.1 = kd.1 ∧ codes h e.2 kd.2) es ds →
  ∃ js : list (string * json),
    js.*1 = ds.*1 ∧
    Forall2 (λ kx kj, kx.1 = kj.1 ∧ walks h kx.2 kj.2) es js ∧
    Forall2 (λ kj kd, kj.1 = kd.1 ∧ decodes kj.2 kd.2) js ds.
Proof.
  induction 1 as [|[k e] [k' d] es ds [Hk (_ & j & Hw & Hd)] _ (js & Hkeys & Hws & Hds)].
  - exists []. split; [done|]. split; constructor.
  - cbn in Hk. subst k'. exists ((k, j) :: js). cbn. rewrite Hkeys.
    split; [done|]. split; by constructor.
Qed.

Lemma visit_first (h : gmap nat obj) l o L fuel c :
  h !! l = Some o → (length (l :: L) ≤ fuel)%nat → NoDup (l :: L) → unseen (l :: L) c →
  ∃ fuel', fuel = S fuel' ∧ (length L ≤ fuel')%nat ∧
    _serializeValue fuel h (VRef l) c =
      _serializeObject (_serializeValue fuel' h) o (marked l c) ∧
    unseen L (marked l c) ∧ NoDup L.
Proof.
  intros Ho Hlen Hnd Hu. destruct fuel as [|fuel]; [cbn in Hlen; lia|].
  exists fuel. split; [done|]. split; [cbn in Hlen; lia|]. split.
  - apply _serializeValue_first; [|done]. apply Hu. by left.
  - split; [by apply unseen_marked|]. by apply NoDup_cons in Hnd as [_ ?].
Qed.


(** Encoding a tree returns, marks the objects of the tree and no others,
    and what it returns is written and read back as the tree's image. The
    same for the elements of an array, the entries of a map and the
    properties of a record. *)
Lemma encode_tree (h : gmap nat obj) :
  (∀ v d L, Tree h v d L →
     ∀ fuel c, (length L ≤ fuel)%nat → NoDup L → unseen L c →
     ∃ e c', _serializeValue fuel h v c = (Ret e, c') ∧
             marks_within L c c' ∧ codes h e d) ∧
  (∀ vs ds L, Trees h vs ds L →
     ∀ fuel c, (length L ≤ fuel)%nat → NoDup L → unseen L c →
     ∃ es c', mapM (_serializeValue fuel h) vs c = (Ret es, c') ∧
              marks_within L c c' ∧ Forall2 (codes h) es ds) ∧
  (∀ entries ds L, TreeEntries h entries ds L →
     ∀ fuel c, (length L ≤ fuel)%nat → NoDup L → unseen L c →
     ∃ es c',
       mapM (λ kv, let* k := _serializeValue fuel h kv.1 in
                   let* v := _serializeValue fuel h kv.2 in
                   ret (EArr [k; v])) entries c = (Ret es, c') ∧
       marks_within L c c' ∧
       Forall2 (λ e d, ∃ ek ev, e = EArr [ek; ev] ∧
                                codes h ek d.1 ∧ codes h ev d.2) es ds) ∧
  (∀ ps ds L, TreeProps h ps ds L →
     ∀ fuel c o acc, (length L ≤ fuel)%nat → NoDup L → unseen L c →
     Forall (λ p, get o (pkey p) = pread p) ps →
     NoDup (acc.*1 ++ (pkey <$> ps)) →
     Forall (λ k, k ∉ reserved_keys) (pkey <$> ps) →
     ∃ es c',
       foldM (record_step (_serializeValue fuel h) o) acc (pkey <$> ps) c =
         (Ret (acc ++ es), c') ∧
       marks_within L c c' ∧
       Forall2 (λ e kd, e.1 = kd.1 ∧ codes h e.2 kd.2) es ds).
Proof.
  apply Tree_mutind.
  - (* null *)
    intros fuel c _ _ _. exists (EVal VNull), c.
    split; [by destruct fuel|]. split; [apply marks_within_refl|].
    by apply (codes_scalar h VNull).
  - intros b fuel c _ _ _. exists (EVal (VBool b)), c.
    split; [by destruct fuel|]. split; [apply marks_within_refl|].
    by apply (codes_scalar h (VBool b)).
  - intros n fuel c _ _ _. exists (EVal (VNum n)), c.
    split; [by destruct fuel|]. split; [apply marks_within_refl|].
    by apply (codes_scalar h (VNum n)).
  - intros s fuel c _ _ _. exists (EVal (VStr s)), c.
    split; [by destruct fuel|]. split; [apply marks_within_refl|].
    by apply (codes_scalar h (VStr s)).
  - (* date *)
    intros l o ms Ho Hk _ Hdate fuel c Hlen Hnd Hu.
    destruct (visit_first h l o [] fuel c) as (fuel' & -> & _ & -> & _ & _); [done..|].
    rewrite (_serializeObject_date _ _ (Some ms)) by done.
    eexists _, _. split; [reflexivity|].
    split; [apply marks_within_marked, marks_within_refl|].
    split; [done|]. exists (JObj [(TYPE_MARKERS.Date, JStr (Date_toISOString ms))]).
    split; [|by apply decodes_date].
    apply walks_obj. repeat constructor. by apply (walks_scalar h (VStr _)).
  - (* regular expression *)
    intros l o source flags Ho Hk _ Hre fuel c Hlen Hnd Hu.
    destruct (visit_first h l o [] fuel c) as (fuel' & -> & _ & -> & _ & _); [done..|].
    rewrite (_serializeObject_regexp _ _ source flags) by done.
    eexists _, _. split; [reflexivity|].
    split; [apply marks_within_marked, marks_within_refl|].
    split; [done|].
    exists (JObj [(TYPE_MARKERS.RegExp,
                   JObj [("source", JStr source); ("flags", JStr flags)])]).
    split; [|by apply decodes_regexp].
    apply walks_obj. repeat constructor. cbn.
    apply walks_obj. repeat constructor; by apply (walks_scalar h (VStr _)).
  - (* map *)
    intros l o entries ds L Ho Hk _ Hkeys HT IH fuel c Hlen Hnd Hu.
    destruct (visit_first h l o L fuel c) as (fuel' & -> & Hlen' & -> & Hu' & Hnd');
      [done..|].
    destruct (IH fuel' (marked l c)) as (es & c' & E & Hm & Hc); [done..|].
    rewrite (_serializeObject_map _ _ entries) by done.
    rewrite (bind_eval _ _ _ _ _ E).
    eexists _, _. split; [reflexivity|]. split; [by apply marks_within_marked|].
    split; [done|]. apply codes_entries_split in Hc as (js & Hws & Hds).
    exists (JObj [(TYPE_MARKERS.Map, JArr js)]). split.
    + apply walks_obj. repeat constructor. by apply walks_arr.
    + apply decodes_map; [done|]. by eapply TreeEntries_distinct.
  - (* set *)
    intros l o members ds L Ho Hk _ Hkeys HT IH fuel c Hlen Hnd Hu.
    destruct (visit_first h l o L fuel c) as (fuel' & -> & Hlen' & -> & Hu' & Hnd');
      [done..|].
    destruct (IH fuel' (marked l c)) as (es & c' & E & Hm & Hc); [done..|].
    rewrite (_serializeObject_set _ _ members) by done.
    rewrite (bind_eval _ _ _ _ _ E).
    eexists _, _. split; [reflexivity|]. split; [by apply marks_within_marked|].
    split; [done|]. apply codes_split in Hc as (js & Hws & Hds).
    exists (JObj [(TYPE_MARKERS.Set_, JArr js)]). split.
    + apply walks_obj. repeat constructor. by apply walks_arr.
    + apply decodes_set; [done|]. by eapply Trees_distinct.
  - (* text range *)
    intros l o a b Ho Hk Hown fuel c Hlen Hnd Hu.
    destruct (visit_first h l o [] fuel c) as (fuel' & -> & _ & -> & _ & _); [done..|].
    rewrite (_serializeObject_text_range _ o (VNum a) (VNum b));
      [|by rewrite Hk|unfold get; by rewrite Hk, Hown|unfold get; by rewrite Hk, Hown
       |done|done].
    eexists _, _. split; [reflexivity|].
    split; [apply marks_within_marked, marks_within_refl|].
    split; [done|].
    exists (JObj [(TYPE_MARKERS.TextRange, JObj [("start", JNum a); ("length", JNum b)])]).
    split; [|by apply decodes_text_range].
    apply walks_obj. repeat constructor. cbn.
    apply walks_obj. repeat constructor; by apply (walks_scalar h (VNum _)).
  - (* range collection *)
    intros l o items ds L Ho Hk _ Ht HT IH fuel c Hlen Hnd Hu.
    destruct (visit_first h l o L fuel c) as (fuel' & -> & Hlen' & -> & Hu' & Hnd');
      [done..|].
    destruct (IH fuel' (marked l c)) as (es & c' & E & Hm & Hc); [done..|].
    rewrite (_serializeObject_range_collection _ _ items) by done.
    rewrite (bind_eval _ _ _ _ _ E).
    eexists _, _. split; [reflexivity|]. split; [by apply marks_within_marked|].
    split; [done|]. apply codes_split in Hc as (js & Hws & Hds).
    exists (JObj [(TYPE_MARKERS.TextRangeCollection,
                   JObj [("items", JArr js); ("count", JNum (Z.of_nat (length items)))])]).
    split; [|by apply decodes_range_collection].
    apply walks_obj. repeat constructor. cbn.
    apply walks_obj. repeat constructor; cbn.
    * by apply walks_arr.
    * by apply (walks_scalar h (VNum _)).
  - (* diagnostic *)
    intros l o category message range d L Ho Hk Hown Hcat Hmsg Ht HT IH
      fuel c Hlen Hnd Hu.
    destruct (visit_first h l o L fuel c) as (fuel' & -> & Hlen' & -> & Hu' & Hnd');
      [done..|].
    destruct (IH fuel' (marked l c)) as (e & c' & E & Hm & Hc); [done..|].
    rewrite (_serializeObject_diagnostic _ o category message range);
      [|by rewrite Hk|by rewrite Hk|done
       |unfold _isDiagnostic, has_property; by rewrite Hk, Hown
       |unfold get; by rewrite Hk, Hown..].
    rewrite (bind_eval _ _ _ _ _ E).
    eexists _, _. split; [reflexivity|]. split; [by apply marks_within_marked|].
    split; [done|]. destruct Hc as (_ & jr & Hwr & Hdr).
    exists (JObj [(TYPE_MARKERS.Diagnostic,
                   JObj [("category", scalar_json category);
                         ("message", scalar_json message); ("range", jr)])]).
    split; [|by apply decodes_diagnostic].
    apply walks_obj. repeat constructor. cbn.
    apply walks_obj. repeat constructor; cbn; try done; by apply walks_scalar.
  - (* array *)
    intros l o elems ds L Ho Hk _ Ht Hd HT IH fuel c Hlen Hnd Hu.
    destruct (visit_first h l o L fuel c) as (fuel' & -> & Hlen' & -> & Hu' & Hnd');
      [done..|].
    destruct (IH fuel' (marked l c)) as (es & c' & E & Hm & Hc); [done..|].
    rewrite (_serializeObject_array _ _ elems) by done.
    rewrite (bind_eval _ _ _ _ _ E).
    eexists _, _. split; [reflexivity|]. split; [by apply marks_within_marked|].
    split; [done|]. apply codes_split in Hc as (js & Hws & Hds).
    exists (JArr js). split; [by apply walks_arr|by apply decodes_arr].
  - (* record *)
    intros l o ds L Ho Hrec Hkeys Hres HT IH fuel c Hlen Hnd Hu.
    destruct (visit_first h l o L fuel c) as (fuel' & -> & Hlen' & -> & Hu' & Hnd');
      [done..|].
    destruct (IH fuel' (marked l c) o []) as (es & c' & E & Hm & Hc); [done..| | | |].
    { apply Forall_forall. intros p Hp. destruct Hrec as (Hk & _).
      by apply get_own_field. }
    { exact Hkeys. }
    { exact Hres. }
    rewrite _serializeObject_record by done. unfold encode_record, own_enumerable_keys.
    rewrite (TreeProps_fields _ _ _ _ HT).
    rewrite (bind_eval _ _ _ _ _ E).
    eexists _, _. split; [reflexivity|]. split; [by apply marks_within_marked|].
    split; [done|]. apply codes_props_split in Hc as (js & Hjk & Hws & Hds).
    exists (JObj js). split; [by apply walks_obj|].
    rewrite (TreeProps_keys _ _ _ _ HT) in Hjk.
    apply decodes_record; [done|by rewrite Hjk..].
  - (* no element *)
    intros fuel c _ _ _. exists [], c.
    split; [done|]. split; [apply marks_within_refl|constructor].
  - (* an element and the rest *)
    intros v d L vs ds Ls HT IH HTs IHs fuel c Hlen Hnd Hu.
    rewrite length_app in Hlen.
    destruct (IH fuel c) as (e & c1 & E & Hm & Hc);
      [lia|by apply NoDup_app in Hnd as [? _]|by eapply unseen_app_l|].
    destruct (IHs fuel c1) as (es & c2 & Es & Hms & Hcs);
      [lia|by apply NoDup_app in Hnd as (_ & _ & ?)|by eapply unseen_next|].
    exists (e :: es), c2. split.
    + cbn [mapM]. rewrite (bind_eval _ _ _ _ _ E), (bind_eval _ _ _ _ _ Es). done.
    + split; [by eapply marks_within_app|by constructor].
  - (* no entry *)
    intros fuel c _ _ _. exists [], c.
    split; [done|]. split; [apply marks_within_refl|constructor].
  - (* an entry and the rest *)
    intros k v dk dv Lk Lv es ds Ls HTk IHk HTv IHv HTs IHs fuel c Hlen Hnd Hu.
    rewrite !length_app in Hlen.
    pose proof Hnd as (Hndk & _ & Hnd')%NoDup_app.
    pose proof Hnd' as (Hndv & _ & Hnds)%NoDup_app.
    destruct (IHk fuel c) as (ek & c1 & Ek & Hmk & Hck);
      [lia|done|by eapply unseen_app_l|].
    assert (unseen (Lv ++ Ls) c1) as Hu1 by (by eapply unseen_next).
    destruct (IHv fuel c1) as (ev & c2 & Ev & Hmv & Hcv);
      [lia|done|by eapply unseen_app_l|].
    destruct (IHs fuel c2) as (es' & c3 & Es & Hms & Hcs);
      [lia|done|by eapply unseen_next|].
    exists (EArr [ek; ev] :: es'), c3. split.
    + cbn [mapM fst snd].
      rewrite (bind_eval _ _ c (EArr [ek; ev]) c2).
      * by rewrite (bind_eval _ _ _ _ _ Es).
      * by rewrite (bind_eval _ _ _ _ _ Ek), (bind_eval _ _ _ _ _ Ev).
    + split.
      * eapply marks_within_app; [done|]. by eapply marks_within_app.
      * constructor; [|done]. by exists ek, ev.
  - (* no property *)
    intros fuel c o acc _ _ _ _ _ _. exists [], c.
    split; [by rewrite app_nil_r|]. split; [apply marks_within_refl|constructor].
  - (* a property and the rest *)
    intros k v d L ps ds Ls HT IH HTs IHs fuel c o acc Hlen Hnd Hu Hget Hkeys Hres.
    rewrite length_app in Hlen.
    apply Forall_cons in Hget as [Hg Hget]. cbn in Hg.
    rewrite fmap_cons in Hres, Hkeys. cbn [pkey field] in Hres, Hkeys.
    apply Forall_cons in Hres as [Hr Hres].
    destruct (IH fuel c) as (e & c1 & E & Hm & Hc);
      [lia|by apply NoDup_app in Hnd as [? _]|by eapply unseen_app_l|].
    assert (record_step (_serializeValue fuel h) o acc k c = (Ret (acc ++ [(k, e)]), c1))
      as Estep.
    { unfold record_step. rewrite Hg. cbn [lift].
      rewrite (bind_eval _ _ c v c) by done. rewrite E.
      destruct Hc as [-> _]. rewrite obj_set_fresh; [done..|].
      apply NoDup_app in Hkeys as (_ & Hkeys & _). intros Hin.
      apply (Hkeys _ Hin). by left. }
    destruct (IHs fuel c1 o (acc ++ [(k, e)])) as (es & c2 & Es & Hms & Hcs);
      [lia|by apply NoDup_app in Hnd as (_ & _ & ?)|by eapply unseen_next|done| |done|].
    { rewrite fmap_app. cbn. by rewrite <- app_assoc. }
    exists ((k, e) :: es), c2. split.
    + rewrite fmap_cons. cbn [foldM pkey field].
      rewrite (bind_eval _ _ _ _ _ Estep), Es. by rewrite <- app_assoc.
    + split; [by eapply marks_within_app|]. by constructor.
Qed.


Lemma Tree_in_heap (h : gmap nat obj) :
  (∀ v d L, Tree h v d L → ∀ l, l ∈ L → is_Some (h !! l)) ∧
  (∀ vs ds L, Trees h vs ds L → ∀ l, l ∈ L → is_Some (h !! l)) ∧
  (∀ es ds L, TreeEntries h es ds L → ∀ l, l ∈ L → is_Some (h !! l)) ∧
  (∀ ps ds L, TreeProps h ps ds L → ∀ l, l ∈ L → is_Some (h !! l)).
Proof.
  apply Tree_mutind; intros;
    repeat match goal with
           | H : _ ∈ [] |- _ => by apply elem_of_nil in H
           | H : _ ∈ _ :: _ |- _ => apply elem_of_cons in H as [->|H]
           | H : _ ∈ _ ++ _ |- _ => apply elem_of_app in H as [H|H]
           end; eauto.
Qed.

Lemma footprint_fits (h : gmap nat obj) v d L :
  Tree h v d L → NoDup L → (length L ≤ size h)%nat.
Proof.
  intros HT Hnd. rewrite <- size_dom. unfold size, set_size. cbn.
  apply submseteq_length, NoDup_submseteq; [done|].
  intros l Hl. apply elem_of_elements, elem_of_dom.
  by eapply (proj1 (Tree_in_heap h)).
Qed.

(** From the encoded value to the document and back. *)
Lemma document_round_trip (h : gmap nat obj) v e c' d :
  _serializeValue (S (size h)) h v fresh_context = (Ret e, c') → codes h e d →
  ∃ t, serialize h v = Ret t ∧ deserialize t = Ret d.
Proof.
  intros E (_ & j & Hw & Hd).
  pose proof (steady_serializeValue _ _ _ _ _ _ E) as [(_ & Hrefs & _) _].
  cbn in Hrefs.
  set (doc := JObj [("version", JNum 1); ("data", j); ("refs", JArr [])]).
  assert (walks h (EObj [("version", ENum 1); ("data", e); ("refs", EArr (refs c'))]) doc)
    as Hdoc.
  { rewrite Hrefs. apply walks_obj.
    repeat constructor; cbn; try done;
      first [by apply (walks_scalar h (VNum 1))|apply walks_arr; constructor]. }
  exists (JSON_print doc). split.
  - unfold serialize. fold fresh_context. rewrite E.
    unfold JSON_stringify. specialize (Hdoc (S (size h)) []). unfold host_walk in Hdoc.
    unfold bind. by rewrite Hdoc.
  - unfold deserialize. rewrite JSON_parse_print. cbn -[json_depth _deserializeValue].
    rewrite (Hd (json_depth doc) (Some (JArr []))); [done|]. cbn. lia.
Qed.

Lemma unseen_fresh L : unseen L fresh_context.
Proof. intros l _. apply lookup_empty. Qed.


(** C8. A diagnostic, that is an object that has [category], [message]
    and [range] and does not pass for a text range, with a scalar
    category and message and a range that is a tree of the supported
    kinds, whatever other properties it has: encode returns a document,
    and decode returns from it an object with exactly [category],
    [message] and [range], the range being the image of the original
    one. *)
Theorem diagnostic_keeps_three_fields (h : gmap nat obj) l o category message range d L :
  h !! l = Some o → kind o = CObject →
  _isTextRange o = inr false → _isDiagnostic o = true →
  get o "category" = inr category → get o "message" = inr message →
  get o "range" = inr range →
  is_scalar category = true → is_scalar message = true →
  Tree h range d L → NoDup (l :: L) →
  ∃ t, serialize h (VRef l) = Ret t ∧
       deserialize t =
       Ret (DObj [("category", scalar_image category);
                  ("message", scalar_image message); ("range", d)]).
Proof.
  intros Ho Hk Ht Hdiag Hc Hm Hr Hsc Hsm HT Hnd.
  assert (length (l :: L) ≤ S (size h))%nat as Hlen.
  { cbn. apply le_n_S. rewrite <- size_dom. unfold size, set_size. cbn.
    apply submseteq_length, NoDup_submseteq; [by apply NoDup_cons in Hnd as [_ ?]|].
    intros l' Hl'. apply elem_of_elements, elem_of_dom.
    by eapply (proj1 (Tree_in_heap h)). }
  destruct (visit_first h l o L (S (size h)) fresh_context)
    as (fuel' & [= <-] & Hlen' & E & Hu' & Hnd'); [done..|apply unseen_fresh|].
  destruct (proj1 (encode_tree h) range d L HT (size h) (marked l fresh_context))
    as (e & c' & Er & _ & (_ & jr & Hwr & Hdr)); [done..|].
  rewrite (_serializeObject_diagnostic _ o category message range) in E;
    [|by rewrite Hk|by rewrite Hk|done..].
  rewrite (bind_eval _ _ _ _ _ Er) in E.
  eapply document_round_trip; [exact E|].
  split; [done|].
  exists (JObj [(TYPE_MARKERS.Diagnostic,
                 JObj [("category", scalar_json category);
                       ("message", scalar_json message); ("range", jr)])]).
  split; [|by apply decodes_diagnostic].
  apply walks_obj. repeat constructor. cbn.
  apply walks_obj. repeat constructor; cbn; try done; by apply walks_scalar.
Qed.


(** ** The encoder returns *)

Lemma unmarked_grows (h : gmap nat obj) c c' :
  ctx_grows c c' → (unmarked h c' ≤ unmarked h c)%nat.
Proof.
  intros (_ & _ & Hk & _). unfold unmarked. apply subseteq_size.
  intros l [Hl Hn]%elem_of_difference. apply elem_of_difference. split; [done|].
  intros [n Hs]%elem_of_dom. apply Hn, elem_of_dom. exists n. by apply Hk.
Qed.

Lemma unmarked_marked (h : gmap nat obj) l c :
  is_Some (h !! l) → seen c !! l = None →
  unmarked h c = S (unmarked h (marked l c)).
Proof.
  intros Hl Hs. unfold unmarked, marked. cbn. rewrite dom_insert_L.
  assert (dom h ∖ dom (seen c) = {[l]} ∪ dom h ∖ ({[l]} ∪ dom (seen c))) as ->.
  { apply set_eq. intros x. rewrite elem_of_union, !elem_of_difference, elem_of_union,
      elem_of_singleton.
    destruct (decide (x = l)) as [->|Hne].
    - split; [by left|]. intros _. split; [by apply elem_of_dom|].
      by apply not_elem_of_dom.
    - split.
      + intros [Hx Hn]. right. split; [done|]. by intros [?|?].
      + intros [?|[Hx Hn]]; [done|]. split; [done|]. intros ?. apply Hn. by right. }
  rewrite size_union.
  - by rewrite size_singleton.
  - intros x ->%elem_of_singleton [_ Hn]%elem_of_difference. apply Hn.
    apply elem_of_union. left. by apply elem_of_singleton.
Qed.

Lemma returns_ret (h : gmap nat obj) n {A} (a : A) : returns_within h n (ret a).
Proof. split; [apply steady_ret|done]. Qed.

Lemma returns_throw (h : gmap nat obj) n {A} e : returns_within h n (throw (A := A) e).
Proof. split; [apply steady_throw|done]. Qed.

Lemma returns_lift (h : gmap nat obj) n {A} (r : exn + A) : returns_within h n (lift r).
Proof. destruct r; [apply returns_throw|apply returns_ret]. Qed.

Lemma returns_bind (h : gmap nat obj) n {A B}
    (m : M SerializationContext A) (k : A → M SerializationContext B) :
  returns_within h n m → (∀ a, returns_within h n (k a)) →
  returns_within h n (bind m k).
Proof.
  intros [Sm Rm] Hk. split; [apply steady_bind; [done|by intros a; apply Hk]|].
  intros c Hc. unfold bind. specialize (Rm c Hc).
  destruct (m c) as [[a|e|] c1] eqn:E; [|done..].
  apply Hk. apply Sm in E as [G _]. pose proof (unmarked_grows h _ _ G). lia.
Qed.

Lemma returns_bind_lift (h : gmap nat obj) n {A B}
    (r : exn + A) (k : A → M SerializationContext B) :
  (∀ a, r = inr a → returns_within h n (k a)) →
  returns_within h n (bind (lift r) k).
Proof.
  intros Hk. destruct r as [e|a].
  - split.
    + intros c r' c' [= <- <-]. split; [apply ctx_grows_refl|done].
    + intros c _. discriminate.
  - specialize (Hk a eq_refl). destruct Hk as [Sk Rk]. split.
    + intros c r c'. apply Sk.
    + intros c. apply Rk.
Qed.

Lemma returns_try_catch (h : gmap nat obj) n {A}
    (m : M SerializationContext A) handler :
  returns_within h n m → (∀ e, returns_within h n (handler e)) →
  returns_within h n (try_catch m handler).
Proof.
  intros [Sm Rm] Hk. split; [apply steady_try_catch; [done|by intros a; apply Hk]|].
  intros c Hc. unfold try_catch. specialize (Rm c Hc).
  destruct (m c) as [[a|e|] c1] eqn:E; [done| |done].
  apply Hk. apply Sm in E as [G _]. pose proof (unmarked_grows h _ _ G). lia.
Qed.

Lemma returns_mapM (h : gmap nat obj) n {A B} (f : A → M SerializationContext B) l :
  (∀ x, x ∈ l → returns_within h n (f x)) → returns_within h n (mapM f l).
Proof.
  induction l as [|x l IH]; intros Hf; cbn [mapM]; [apply returns_ret|].
  apply returns_bind; [apply Hf; by left|]. intros y.
  apply returns_bind; [apply IH; intros z Hz; apply Hf; by right|].
  intros ys. apply returns_ret.
Qed.

Lemma returns_foldM (h : gmap nat obj) n {A B} (f : B → A → M SerializationContext B) l b :
  (∀ b x, x ∈ l → returns_within h n (f b x)) → returns_within h n (foldM f b l).
Proof.
  revert b. induction l as [|x l IH]; intros b Hf; cbn [foldM]; [apply returns_ret|].
  apply returns_bind; [apply Hf; by left|]. intros b'.
  apply IH. intros b'' z Hz. apply Hf. by right.
Qed.

Lemma find_prop_elem k ps p : find_prop k ps = Some p → p ∈ ps.
Proof.
  induction ps as [|q ps IH]; [done|]. cbn.
  destruct (String.eqb (pkey q) k); [intros [= ->]; by left|]. intros ?. right. auto.
Qed.

Lemma get_in_heap (h : gmap nat obj) o k v :
  Forall (in_heap h) (values_of o) → get o k = inr v → in_heap h v.
Proof.
  intros HF. unfold values_of in HF. apply Forall_app in HF as [_ HF].
  assert (∀ p, p ∈ own o ++ inherited o → pread p = inr v → in_heap h v) as Hp.
  { intros p Hp Hr. eapply Forall_forall; [exact HF|].
    apply list_elem_of_omap. exists p. split; [done|]. by rewrite Hr. }
  assert (match find_prop k (own o) with
          | Some p => pread p
          | None => match find_prop k (inherited o) with
                    | Some p => pread p
                    | None => inr VUndef
                    end
          end = inr v → in_heap h v) as Hfind.
  { destruct (find_prop k (own o)) as [p|] eqn:E1.
    - apply Hp, elem_of_app. left. by eapply find_prop_elem.
    - destruct (find_prop k (inherited o)) as [p|] eqn:E2; [|by intros [= <-]].
      apply Hp, elem_of_app. right. by eapply find_prop_elem. }
  unfold get. destruct (kind o); try exact Hfind.
  destruct (String.eqb k "length"); [by intros [= <-]|exact Hfind].
Qed.

Lemma returns_serializeObject (h : gmap nat obj) n recur o :
  (∀ v, in_heap h v → returns_within h n (recur v)) →
  Forall (in_heap h) (values_of o) →
  returns_within h n (_serializeObject recur o).
Proof.
  intros Hrec HF.
  pose proof (get_in_heap h o) as Hget. specialize (λ k v, Hget k v HF).
  assert (match kind o with
          | CArray elems => Forall (in_heap h) elems
          | CMap entries => Forall (λ kv, in_heap h kv.1 ∧ in_heap h kv.2) entries
          | CSet members => Forall (in_heap h) members
          | CTextRangeCollection items => Forall (in_heap h) items
          | _ => True
          end) as Hkind.
  { unfold values_of in HF. apply Forall_app in HF as [HF _].
    destruct (kind o); try done.
    apply Forall_app in HF as [H1 H2]. apply Forall_forall. intros kv Hkv.
    split; [eapply Forall_forall; [exact H1|]|eapply Forall_forall; [exact H2|]];
      apply list_elem_of_fmap; eauto. }
  clear HF. unfold _serializeObject.
  destruct (kind o) eqn:K;
    repeat first
      [ apply returns_ret | apply returns_throw | apply returns_lift
      | apply returns_bind_lift; intros ? ?
      | apply returns_bind; [|intros ?]
      | apply returns_try_catch; [|intros ?]
      | apply returns_mapM; intros ? ?
      | apply returns_foldM; intros ? ? ?
      | match goal with
        | |- returns_within _ _ (if ?b then _ else _) => destruct b
        | |- returns_within _ _ (recur _) => apply Hrec
        | Hin : ?x ∈ ?l, Hall : Forall _ ?l |- in_heap _ _ =>
            eapply Forall_forall in Hall; [|exact Hin]; cbn in Hall; tauto
        | Hg : get o _ = inr ?v |- in_heap _ ?v => exact (Hget _ _ Hg)
        end ].
Qed.

(** On a closed heap the encoder has a result, whatever the graph looks
    like: a walk that may go one level deeper than there are objects
    without a number never runs out. *)
Lemma serializeValue_returns (h : gmap nat obj) :
  closed h → ∀ fuel v, in_heap h v → returns_within h fuel (_serializeValue fuel h v).
Proof.
  intros Hcl fuel. induction fuel as [|fuel IH]; intros v Hv.
  - split; [apply steady_serializeValue|]. intros c Hc. lia.
  - split; [apply steady_serializeValue|]. intros c Hc.
    destruct v; try done. destruct Hv as [o Ho].
    destruct (seen c !! l) as [n|] eqn:Hs.
    + by rewrite (_serializeValue_seen _ _ _ _ n).
    + rewrite (_serializeValue_first _ _ _ _ o) by done.
      apply (returns_serializeObject h fuel); [done|by eapply Hcl|].
      rewrite (unmarked_marked h l c) in Hc by done. lia.
Qed.

(** C7. Encode terminates on cyclic input. On every closed heap, cyclic or
    not, the walk has a result within the depth [serialize] allows it
    (one more than the number of objects).  For [a], where [a = {}] and
    [a.self = a], encode returns this document: the second visit to [a]
    gives the circular marker with [a]'s number, and the walk does not
    descend again. *)
Theorem encode_terminates :
  (∀ (h : gmap nat obj) v c,
     closed h → in_heap h v → (_serializeValue (S (size h)) h v c).1 ≠ Stuck) ∧
  serialize self_reference (VRef 0) =
  Ret (JSON_print
         (JObj [("version", JNum 1);
                ("data", JObj [("self", JObj [(TYPE_MARKERS.Circular, JNum 0)])]);
                ("refs", JArr [])])).
Proof.
  split; [|reflexivity].
  intros h v c Hcl Hv. apply (serializeValue_returns h Hcl); [done|].
  unfold unmarked. apply Nat.lt_succ_r. rewrite <- (size_dom (D := gset nat) h).
  apply subseteq_size. intros l [Hl _]%elem_of_difference. exact Hl.
Qed.


Set Warnings "-clear-no-such-hyp".

(** ** The decoder on any document *)

Lemma assoc_get_elem {A} k (l : list (string * A)) x : assoc_get k l = Some x → (k, x) ∈ l.
Proof.
  induction l as [|[k' y] l IH]; [done|]. cbn.
  destruct (String.eqb k' k) eqn:E.
  - apply String.eqb_eq in E as ->. intros [= ->]. by left.
  - intros Hg. right. by apply IH.
Qed.

Lemma json_get_le value k x :
  json_get value k = Some x → (json_depth x ≤ pred (json_depth value))%nat.
Proof.
  destruct value as [| | | s | items | entries]; cbn [json_get]; try done.
  - case_match; [|done]. intros [= <-]. cbn. lia.
  - case_match; [|done]. intros [= <-]. cbn. lia.
  - intros Hg. apply assoc_get_elem in Hg.
    pose proof (json_depth_obj entries (pred (json_depth (JObj entries)))) as Hd.
    rewrite Forall_forall in Hd. apply (Hd ltac:(cbn; lia) _ Hg).
Qed.

Lemma opt_depth_get x k n : (json_depth x ≤ n)%nat → (opt_depth (json_get x k) ≤ n)%nat.
Proof.
  intros Hx. destruct (json_get x k) eqn:E; cbn; [apply json_get_le in E|]; lia.
Qed.

Lemma as_array_depth x items n :
  as_array x = inr items → (json_depth x ≤ n)%nat →
  Forall (λ j, (json_depth j ≤ n)%nat) items.
Proof.
  destruct x; try done. intros [= ->] Hd.
  destruct n as [|n]; [cbn in Hd; lia|].
  eapply Forall_impl; [by apply json_depth_arr|]. cbn. lia.
Qed.

Lemma destructure_pair_depth item kv n :
  destructure_pair item = inr kv → (json_depth item ≤ n)%nat →
  (opt_depth kv.1 ≤ n)%nat ∧ (opt_depth kv.2 ≤ n)%nat.
Proof.
  destruct item as [| | | s | items |]; try done.
  - destruct s as [|a [|b s]]; intros [= <-] _; cbn; lia.
  - intros [= <-] Hd. destruct n as [|n]; [cbn in Hd; lia|].
    apply json_depth_arr in Hd. rewrite Forall_forall in Hd.
    cbn [fst snd]. split.
    + destruct (items !! 0%nat) eqn:E; cbn; [|lia].
      apply list_elem_of_lookup_2, Hd in E. lia.
    + destruct (items !! 1%nat) eqn:E; cbn; [|lia].
      apply list_elem_of_lookup_2, Hd in E. lia.
Qed.

(** What the tag dispatch does with two recursive calls that agree, and
    have a result, on every value below a given depth. *)
Lemma bindo_agree {A B} (m m' : outcome A) (k k' : A → outcome B) :
  m = m' ∧ m ≠ Stuck → (∀ a, m = Ret a → k a = k' a ∧ k a ≠ Stuck) →
  bindo m k = bindo m' k' ∧ bindo m k ≠ Stuck.
Proof. intros [<- Hm] Hk. destruct m; cbn; [by apply Hk|done|done]. Qed.

Lemma lifto_agree {A} (r : exn + A) : lifto r = lifto r ∧ lifto r ≠ Stuck.
Proof. by destruct r. Qed.

Lemma mapo_agree {A B} (f g : A → outcome B) l :
  Forall (λ x, f x = g x ∧ f x ≠ Stuck) l →
  mapo f l = mapo g l ∧ mapo f l ≠ Stuck.
Proof.
  induction 1 as [|x l [Hx Hs] _ [IH IHs]]; [done|].
  cbn. rewrite <- Hx, <- IH. destruct (f x); [|done..].
  cbn. by destruct (mapo f l).
Qed.

Lemma record_fold_agree (f g : option json → outcome dval)
    (entries : list (string * json)) (acc : outcome (list (string * dval))) :
  Forall (λ kv, f (Some kv.2) = g (Some kv.2) ∧ f (Some kv.2) ≠ Stuck) entries →
  acc ≠ Stuck →
  let loop recur :=
    fold_left (λ acc kv,
                 bindo acc (λ deserialized,
                 bindo (recur (Some kv.2)) (λ d,
                 Ret (obj_set kv.1 d deserialized)))) entries acc in
  loop f = loop g ∧ loop f ≠ Stuck.
Proof.
  cbn zeta. intros HF. revert acc.
  induction HF as [|kv entries [Hx Hs] _ IH]; intros acc Hacc; [done|].
  cbn [fold_left]. rewrite <- Hx. apply IH.
  destruct acc; [|done..]. cbn. by destruct (f (Some kv.2)).
Qed.

Lemma deserializeObject_agree (f g : option json → outcome dval) value context n :
  (∀ v, (opt_depth v ≤ n)%nat → f v = g v ∧ f v ≠ Stuck) →
  (json_depth value ≤ S n)%nat →
  _deserializeObject f value context = _deserializeObject g value context ∧
  _deserializeObject f value context ≠ Stuck.
Proof.
  intros Hfg Hd.
  assert (Hget : ∀ k x, json_get value k = Some x → (json_depth x ≤ n)%nat).
  { intros k x Hx. apply json_get_le in Hx. lia. }
  unfold _deserializeObject.
  destruct (json_get value TYPE_MARKERS.Circular); [by destruct (refs_get _ _)|].
  destruct (json_get value TYPE_MARKERS.Date); [done|].
  destruct (json_get value TYPE_MARKERS.RegExp).
  { split; [done|]. destruct (destructure j); [done|]. cbn.
    by destruct (RegExp_new _ _). }
  destruct (json_get value TYPE_MARKERS.Map) as [x|] eqn:Em.
  { apply Hget in Em. apply bindo_agree; [apply lifto_agree|].
    intros items Hi. destruct (as_array x) as [|items'] eqn:Ea; [done|].
    injection Hi as ->. eapply as_array_depth in Ea; [|done].
    apply bindo_agree; [|done].
    apply mapo_agree. eapply Forall_impl; [exact Ea|]. cbn. intros item Hitem.
    apply bindo_agree; [apply lifto_agree|]. intros kv Hkv.
    destruct (destructure_pair item) eqn:Ep; [done|]. injection Hkv as ->.
    eapply destructure_pair_depth in Ep as [H1 H2]; [|done].
    apply bindo_agree; [by apply Hfg|]. intros k _.
    apply bindo_agree; [by apply Hfg|done]. }
  destruct (json_get value TYPE_MARKERS.Set_) as [x|] eqn:Es.
  { apply Hget in Es. apply bindo_agree; [apply lifto_agree|].
    intros items Hi. destruct (as_array x) as [|items'] eqn:Ea; [done|].
    injection Hi as ->. eapply as_array_depth in Ea; [|done].
    apply bindo_agree; [|done].
    apply mapo_agree. eapply Forall_impl; [exact Ea|]. cbn. intros item Hitem.
    by apply Hfg. }
  destruct (json_get value TYPE_MARKERS.TextRange) as [x|].
  { split; [done|]. by destruct (destructure x). }
  destruct (json_get value TYPE_MARKERS.TextRangeCollection) as [x|] eqn:Ec.
  { apply Hget in Ec. apply bindo_agree; [apply lifto_agree|].
    intros x' Hx'. destruct x; try done; injection Hx' as <-;
      (apply bindo_agree; [|done]); apply Hfg; by apply opt_depth_get. }
  destruct (json_get value TYPE_MARKERS.ParseNode) as [x|].
  { split; [done|]. by destruct (destructure x). }
  destruct (json_get value TYPE_MARKERS.Diagnostic) as [x|] eqn:Eg.
  { apply Hget in Eg. apply bindo_agree; [apply lifto_agree|].
    intros x' Hx'. destruct x; try done; injection Hx' as <-;
      (apply bindo_agree; [|done]); apply Hfg; by apply opt_depth_get. }
  destruct value as [| | | | items | entries]; try done.
  - apply json_depth_arr in Hd. apply bindo_agree; [|done].
    apply mapo_agree. eapply Forall_impl; [exact Hd|]. cbn. intros item Hitem.
    by apply Hfg.
  - apply json_depth_obj in Hd. apply bindo_agree; [|done].
    apply (record_fold_agree f g entries (Ret [])); [|done].
    eapply Forall_impl; [exact Hd|]. cbn. intros item Hitem. by apply Hfg.
Qed.

(** With a bound on its depth that is at least the depth of the value, the
    decoder has a result, and the result depends neither on the bound nor
    on [refs]. *)
Lemma deserializeValue_agree fuel : ∀ fuel' v context refs refs',
  (opt_depth v ≤ fuel)%nat → (opt_depth v ≤ fuel')%nat →
  _deserializeValue fuel v context refs = _deserializeValue fuel' v context refs' ∧
  _deserializeValue fuel v context refs ≠ Stuck.
Proof.
  induction fuel as [|fuel IH]; intros fuel' v context refs refs' Hd Hd'.
  - destruct v as [[]|]; cbn in Hd; try lia; by destruct fuel'.
  - destruct v as [[| | | | items | entries]|]; try (by destruct fuel').
    + destruct fuel' as [|fuel']; [cbn in Hd'; lia|].
      rewrite !_deserializeValue_arr.
      apply (deserializeObject_agree _ _ _ _ (Nat.min fuel fuel')); [|cbn in *; lia].
      intros v Hv. apply IH; lia.
    + destruct fuel' as [|fuel']; [cbn in Hd'; lia|].
      rewrite !_deserializeValue_obj.
      apply (deserializeObject_agree _ _ _ _ (Nat.min fuel fuel')); [|cbn in *; lia].
      intros v Hv. apply IH; lia.
Qed.

Lemma deserializeValue_not_stuck fuel v context refs :
  (opt_depth v ≤ fuel)%nat → _deserializeValue fuel v context refs ≠ Stuck.
Proof. intros Hd. by apply (deserializeValue_agree fuel fuel v context refs refs). Qed.

Lemma deserializeValue_fuel fuel fuel' v context refs refs' :
  (opt_depth v ≤ fuel)%nat → (opt_depth v ≤ fuel')%nat →
  _deserializeValue fuel v context refs = _deserializeValue fuel' v context refs'.
Proof. intros Hd Hd'. by apply deserializeValue_agree. Qed.

(** X1. On every text, decode returns a value or throws an [Error] whose
    message is "Failed to deserialize cache: " followed by the cause: the
    bound that [deserialize] gives the walk is enough on every document,
    and every exception, whatever its class, is caught and wrapped. *)
Theorem deserialize_returns_or_wraps (t : text) :
  (∃ d, deserialize t = Ret d) ∨
  (∃ cause,
     deserialize t =
     Throw (Error ("Failed to deserialize cache: " +:+ exn_toString cause))).
Proof.
  unfold deserialize.
  match goal with |- context [match ?b with Ret _ => _ | _ => _ end] => set (body := b) end.
  assert (Hb : body ≠ Stuck).
  { subst body. destruct (JSON_parse t) as [e|parsed]; [done|]. cbn [lifto bindo].
    destruct parsed; try done;
      cbn [bindo]; destruct (json_get _ "version") as [[| |[|[]|]| | |]|]; try done.
    all: apply deserializeValue_not_stuck; by apply opt_depth_get. }
  destruct body as [d|e|]; [left; by exists d|right; by exists e|done].
Qed.

(** X2. Decode reads [version] and [data] and nothing else: two documents
    with the same [version] and the same [data] decode alike, whatever
    [refs] and the other entries are. *)
Theorem deserialize_reads_version_and_data (es es' : list (string * json)) :
  assoc_get "version" es = assoc_get "version" es' →
  assoc_get "data" es = assoc_get "data" es' →
  deserialize (JSON_print (JObj es)) = deserialize (JSON_print (JObj es')).
Proof.
  intros Hv Hdata. unfold deserialize. rewrite !JSON_parse_print.
  cbn [lifto bindo json_get]. rewrite <- Hv, <- Hdata.
  destruct (assoc_get "version" es) as [[| |[|[]|]| | |]|]; try done.
  rewrite (deserializeValue_fuel (json_depth (JObj es)) (json_depth (JObj es'))
             (assoc_get "data" es) _ (assoc_get "refs" es) (assoc_get "refs" es'));
    [done| |].
  - apply (opt_depth_get (JObj es) "data"). lia.
  - rewrite Hdata. apply (opt_depth_get (JObj es') "data"). lia.
Qed.

(** ** Plain data and marker keys *)

Lemma plain_data_decodes n : ∀ j,
  (json_depth j ≤ n)%nat → plain_data j = true → decodes j (raw j).
Proof.
  induction n as [|n IH]; intros j Hd Hp.
  - destruct j; cbn in Hd; try lia; intros [|fuel] refs _; reflexivity.
  - destruct j as [| | | | items | entries];
      try (intros [|fuel] refs _; reflexivity).
    + apply json_depth_arr in Hd. cbn [plain_data] in Hp.
      rewrite forallb_forall in Hp.
      cbn [raw]. apply decodes_arr.
      induction items as [|j items IHi]; [constructor|].
      apply Forall_cons in Hd as [Hj Hd]. constructor.
      * apply IH; [done|]. apply Hp. by left.
      * apply IHi; [done|]. intros x Hx. apply Hp. by right.
    + apply json_depth_obj in Hd. cbn [plain_data] in Hp.
      apply andb_true_iff in Hp as [Hnd Hp]. apply bool_decide_eq_true in Hnd.
      rewrite forallb_forall in Hp.
      cbn [raw]. apply decodes_record; [|done|].
      * clear Hnd. induction entries as [|[k j] entries IHe]; [constructor|].
        apply Forall_cons in Hd as [Hj Hd]. constructor.
        -- split; [done|]. apply IH; [done|].
           specialize (Hp (k, j) ltac:(by left)).
           apply andb_true_iff in Hp. apply Hp.
        -- apply IHe; [done|]. intros x Hx. apply Hp. by right.
      * apply Forall_fmap, Forall_forall. intros kv Hkv.
        apply list_elem_of_In in Hkv.
        specialize (Hp kv Hkv). apply andb_true_iff in Hp as [Hk _].
        by apply bool_decide_eq_true in Hk.
Qed.

(** X3. Data without markers goes through decode unchanged: arrays, objects
    and scalars, nested in any way, with no key that is a type marker or
    [__proto__]. *)
Theorem plain_document_decodes_to_itself (es : list (string * json)) (data : json) :
  assoc_get "version" es = Some (JNum 1) → assoc_get "data" es = Some data →
  plain_data data = true →
  deserialize (JSON_print (JObj es)) = Ret (raw data).
Proof.
  intros Hv Hdata Hp. unfold deserialize. rewrite JSON_parse_print.
  cbn [lifto bindo json_get]. rewrite Hv, Hdata.
  pose proof (plain_data_decodes (json_depth data) data (le_n _) Hp) as Hdec.
  rewrite (Hdec (json_depth (JObj es)) (assoc_get "refs" es)); [done|].
  pose proof (opt_depth_get (JObj es) "data" (json_depth (JObj es)) ltac:(lia)) as Hle.
  cbn [json_get] in Hle. by rewrite Hdata in Hle.
Qed.

(** ** Circular markers *)





(** X4. A node whose first marker is [__ParseNode__] decodes to an object
    with [nodeType], [id], [start] and [length], in this order, each as it
    was parsed (a marker inside one of them is not decoded) or [undefined]
    if the payload does not have it; every other key of the payload and of
    the node is dropped. *)
Theorem parse_node_decodes_to_four_fields (es fields : list (string * json)) payload :
  assoc_get "version" es = Some (JNum 1) → assoc_get "data" es = Some (JObj fields) →
  Forall (λ tag, assoc_get tag fields = None)
    [TYPE_MARKERS.Circular; TYPE_MARKERS.Date; TYPE_MARKERS.RegExp; TYPE_MARKERS.Map;
     TYPE_MARKERS.Set_; TYPE_MARKERS.TextRange; TYPE_MARKERS.TextRangeCollection] →
  assoc_get TYPE_MARKERS.ParseNode fields = Some payload → payload ≠ JNull →
  deserialize (JSON_print (JObj es)) =
  Ret (DObj [("nodeType", raw_opt (json_get payload "nodeType"));
             ("id", raw_opt (json_get payload "id"));
             ("start", raw_opt (json_get payload "start"));
             ("length", raw_opt (json_get payload "length"))]).
Proof.
  intros Hv Hdata Htags Hp Hnull. unfold deserialize. rewrite JSON_parse_print.
  cbn [lifto bindo json_get]. rewrite Hv, Hdata. cbn [json_depth].
  rewrite _deserializeValue_obj. unfold _deserializeObject. cbn [json_get].
  repeat (apply Forall_cons in Htags as [-> Htags]). rewrite Hp.
  by destruct payload.
Qed.

(** X5. A node with the key [__Map__] (and none of [__Circular__],
    [__Date__], [__RegExp__]) whose payload is not an array makes decode
    throw: the payload has no [map] method.  So a record with a property
    of that name does not survive the round trip. *)
Theorem map_tag_needs_an_array (es fields : list (string * json)) payload :
  assoc_get "version" es = Some (JNum 1) → assoc_get "data" es = Some (JObj fields) →
  Forall (λ tag, assoc_get tag fields = None)
    [TYPE_MARKERS.Circular; TYPE_MARKERS.Date; TYPE_MARKERS.RegExp] →
  assoc_get TYPE_MARKERS.Map fields = Some payload → (∀ items, payload ≠ JArr items) →
  ∃ msg,
    deserialize (JSON_print (JObj es)) =
    Throw (Error ("Failed to deserialize cache: " +:+ exn_toString (TypeError msg))).
Proof.
  intros Hv Hdata Htags Hp Harr. unfold deserialize. rewrite JSON_parse_print.
  cbn [lifto bindo json_get]. rewrite Hv, Hdata. cbn [json_depth].
  rewrite _deserializeValue_obj. unfold _deserializeObject. cbn [json_get].
  repeat (apply Forall_cons in Htags as [-> Htags]). rewrite Hp.
  destruct payload; try (by eexists). by destruct (Harr items).
Qed.

(** ** The shape of the document *)

Lemma ensures_ret {St A} T (P : A → Prop) (a : A) : P a → ensures (St := St) T P (ret a).
Proof. intros Ha c r c' [= <- <-]. exact Ha. Qed.

Lemma ensures_throw {St A} (T : Prop) (P : A → Prop) e : T → ensures (St := St) T P (throw e).
Proof. intros Ht c r c' [= <- <-]. exact Ht. Qed.

Lemma ensures_stuck {St A} T (P : A → Prop) : ensures (St := St) T P stuck.
Proof. by intros c r c' [= <- <-]. Qed.

Lemma ensures_deref {St} T (P : obj → Prop) (h : gmap nat obj) l :
  (∀ o, h !! l = Some o → P o) → ensures (St := St) T P (deref h l).
Proof.
  intros Hp. unfold deref. destruct (h !! l) as [o|]; [|apply ensures_stuck].
  apply ensures_ret. by apply Hp.
Qed.

Lemma ensures_lift {St A} (T : Prop) (P : A → Prop) (r : exn + A) :
  (∀ e, r = inl e → T) → (∀ a, r = inr a → P a) → ensures (St := St) T P (lift r).
Proof.
  intros Ht Hp. destruct r as [e|a]; [apply ensures_throw|apply ensures_ret]; eauto.
Qed.

Lemma ensures_bind {St A B} T (P : A → Prop) (Q : B → Prop) (m : M St A) (k : A → M St B) :
  ensures T P m → (∀ a, P a → ensures T Q (k a)) → ensures T Q (bind m k).
Proof.
  intros Hm Hk c r c'. unfold bind. destruct (m c) as [[a|e|] c1] eqn:E.
  - apply Hk. apply (Hm _ _ _ E).
  - intros [= <- <-]. apply (Hm _ _ _ E).
  - by intros [= <- <-].
Qed.

Lemma ensures_bind_lift {St A B} (T : Prop) (Q : B → Prop) (r : exn + A) (k : A → M St B) :
  (∀ e, r = inl e → T) → (∀ a, r = inr a → ensures T Q (k a)) →
  ensures T Q (bind (lift r) k).
Proof.
  intros Ht Hk. destruct r as [e|a]; cbn [lift].
  - intros c r c' [= <- <-]. by eapply Ht.
  - intros c r c'. unfold bind, ret. by apply Hk.
Qed.

Lemma ensures_try_catch {St A} T T' (P : A → Prop) (m : M St A) handler :
  ensures T' P m → (∀ e, ensures T P (handler e)) → ensures T P (try_catch m handler).
Proof.
  intros Hm Hk c r c'. unfold try_catch. destruct (m c) as [[a|e|] c1] eqn:E.
  - intros [= <- <-]. apply (Hm _ _ _ E).
  - apply Hk.
  - by intros [= <- <-].
Qed.

Lemma ensures_mapM {St A B} T (P : B → Prop) (f : A → M St B) l :
  (∀ x, x ∈ l → ensures T P (f x)) → ensures T (Forall P) (mapM f l).
Proof.
  induction l as [|x l IH]; intros Hf; cbn [mapM]; [by apply ensures_ret|].
  eapply ensures_bind; [apply Hf; by left|]. intros y Hy.
  eapply ensures_bind; [apply IH; intros z Hz; apply Hf; by right|].
  intros ys Hys. apply ensures_ret. by constructor.
Qed.

Lemma ensures_foldM {St A B} T (I : B → Prop) (f : B → A → M St B) l b :
  I b → (∀ b x, I b → x ∈ l → ensures T I (f b x)) → ensures T I (foldM f b l).
Proof.
  revert b. induction l as [|x l IH]; intros b Hb Hf; cbn [foldM]; [by apply ensures_ret|].
  eapply ensures_bind; [apply Hf; [done|by left]|]. intros b' Hb'.
  apply IH; [done|]. intros b'' z Hb'' Hz. apply Hf; [done|by right].
Qed.

Lemma ensures_weaken {St A} (T : Prop) (P Q : A → Prop) (m : M St A) :
  (∀ a, P a → Q a) → ensures T P m → ensures T Q m.
Proof.
  intros Hpq Hm c r c' E. specialize (Hm c r c' E). destruct r; auto.
Qed.

Lemma ensures_eq {St A} (T : Prop) (P : A → Prop) (m m' : M St A) :
  (∀ c, m c = m' c) → ensures T P m' → ensures T P m.
Proof. intros E Hm c r c'. rewrite E. apply Hm. Qed.

(** The result of encoding an object is a new array or a new object. *)
Lemma compound_serializeObject recur o :
  ensures True (λ e, is_compound e = true) (_serializeObject recur o).
Proof.
  unfold _serializeObject.
  repeat first
    [ by apply ensures_ret
    | eapply (ensures_bind _ (λ _, True)); [by intros ? [] ? ?|intros ? _]
    | match goal with
      | |- ensures _ _ (match ?x with _ => _ end) => destruct x
      | |- ensures _ _ (if ?b then _ else _) => destruct b
      end ].
Qed.

Lemma compound_serializeValue fuel h l :
  ensures True (λ e, is_compound e = true) (_serializeValue fuel h (VRef l)).
Proof.
  destruct fuel as [|fuel]; [apply ensures_stuck|]. cbn [_serializeValue].
  eapply (ensures_bind _ (λ _, True)); [by intros ? [] ? ?|intros [n|] _].
  - by apply ensures_ret.
  - eapply (ensures_bind _ (λ _, True)); [by intros ? [] ? ?|intros ? _].
    eapply (ensures_bind _ (λ _, True)); [by intros ? [] ? ?|intros ? _].
    apply compound_serializeObject.
Qed.

Lemma stringify_compound {St} (leaf : value → M St (option json)) e c r c' :
  is_compound e = true → stringify_enc leaf e c = (Ret r, c') → is_Some r.
Proof.
  destruct e as [v|items|entries]; [done|..]; intros _; cbn [stringify_enc]; unfold bind;
    match goal with |- context [?go _ c] => destruct (go _ c) as [[]] end;
    intros [= <- _]; done.
Qed.

(** The host's walk over the document: [version], then [data] unless it is
    absence, then [refs]. *)
Lemma document_walk {St} (leaf : value → M St (option json)) e c :
  (∀ c, leaf (VNum 1) c = (Ret (Some (JNum 1)), c)) →
  stringify_enc leaf (EObj [("version", ENum 1); ("data", e); ("refs", EArr [])]) c =
  match stringify_enc leaf e c with
  | (Ret data, c') =>
    (Ret (Some (JObj (("version", JNum 1) ::
                      match data with Some j => [("data", j)] | None => [] end ++
                      [("refs", JArr [])]))), c')
  | (Throw x, c') => (Throw x, c')
  | (Stuck, c') => (Stuck, c')
  end.
Proof.
  intros Hleaf. cbn [stringify_enc]. unfold bind, ENum. cbn [stringify_enc].
  rewrite Hleaf. destruct (stringify_enc leaf e c) as [[[j|]| |] c']; reflexivity.
Qed.

(** X6. Every document that encode returns has [version: 1] first and
    [refs: []] last (nothing is ever pushed to [refs]), and between them
    [data], which is left out exactly when the root is [undefined], a
    function or a symbol. *)
Theorem encoded_document_shape (h : gmap nat obj) v t :
  serialize h v = Ret t →
  ∃ data : option json,
    t = JSON_print (JObj (("version", JNum 1) ::
                          match data with Some j => [("data", j)] | None => [] end ++
                          [("refs", JArr [])])) ∧
    (data = None ↔ is_absent v = true).
Proof.
  unfold serialize.
  destruct (_serializeValue _ _ _ _) as [[e| |] c'] eqn:E; [|done..].
  pose proof (steady_serializeValue _ _ _ _ _ _ E) as [(_ & Hrefs & _) _].
  cbn in Hrefs. rewrite Hrefs. unfold JSON_stringify, bind.
  rewrite document_walk by done.
  destruct (stringify_enc _ e tt) as [[data| |] []] eqn:W; [|done..].
  cbn. intros [= <-]. exists data. split; [done|].
  destruct v as [| | | |x| | | | |l].
  1-9: injection E as <- _; try destruct x; cbn in W; try discriminate;
       injection W as <-; by split.
  split; [|done]. intros ->.
  apply compound_serializeValue in E.
  by destruct (stringify_compound _ _ _ _ _ E W).
Qed.

Lemma codes_special h x : codes h (EVal (VSpecial x)) (root_image (VSpecial x)).
Proof.
  split; [done|].
  exists (match x with NegZero => JNum 0 | _ => JNull end). split.
  - intros n stack. by destruct x, n.
  - intros fuel refs _. by destruct x, fuel.
Qed.

(** X7. A root that is not an object.  [null], a boolean, an integer or a
    string comes back as it is; [NaN] and the infinities come back as
    [null], and [-0] as [0]; [undefined], a function or a symbol comes back
    as [undefined] (the document has no [data] then); a BigInt makes encode
    throw the host's TypeError. *)
Theorem primitive_root_round_trip (h : gmap nat obj) v :
  is_primitive v = true →
  match v with
  | VBigInt _ =>
    serialize h v = Throw (TypeError "Do not know how to serialize a BigInt")
  | _ => ∃ t, serialize h v = Ret t ∧ deserialize t = Ret (root_image v)
  end.
Proof.
  intros Hv.
  assert (∀ v, is_absent v = true →
            ∃ t, serialize h v = Ret t ∧ deserialize t = Ret (root_image v)) as Habsent.
  { clear v Hv. intros v Hv.
    exists (JSON_print (JObj [("version", JNum 1); ("refs", JArr [])])). split.
    - unfold serialize, JSON_stringify, bind.
      destruct v; try discriminate; cbn [_serializeValue ret refs];
        by rewrite document_walk.
    - unfold deserialize. rewrite JSON_parse_print. by destruct v. }
  assert (∀ v, is_scalar v = true →
            ∃ t, serialize h v = Ret t ∧ deserialize t = Ret (root_image v)) as Hscalar.
  { clear v Hv. intros v Hv.
    apply (document_round_trip h v (EVal v) fresh_context); [by destruct v|].
    replace (root_image v) with (scalar_image v) by (by destruct v).
    by apply codes_scalar. }
  destruct v as [| | | |x|n| | | |l]; try discriminate;
    try (by apply Habsent); try (by apply Hscalar).
  - apply (document_round_trip h _ (EVal (VSpecial x)) fresh_context); [done|].
    apply codes_special.
  - unfold serialize, JSON_stringify, bind. cbn [_serializeValue ret refs].
    by rewrite document_walk.
Qed.

(** ** Heaps on which encode returns *)

Lemma quiet_get o k e : quiet_object o → get o k ≠ inl e.
Proof.
  intros [_ Hq].
  assert (∀ p, p ∈ own o ++ inherited o → pread p ≠ inl e) as Hp.
  { intros p Hp. destruct (Hq p Hp) as [v ->]. done. }
  assert (match find_prop k (own o) with
          | Some p => pread p
          | None => match find_prop k (inherited o) with
                    | Some p => pread p
                    | None => inr VUndef
                    end
          end ≠ inl e) as Hfind.
  { destruct (find_prop k (own o)) as [p|] eqn:E1.
    - apply Hp, elem_of_app. left. by eapply find_prop_elem.
    - destruct (find_prop k (inherited o)) as [p|] eqn:E2; [|done].
      apply Hp, elem_of_app. right. by eapply find_prop_elem. }
  unfold get. destruct (kind o); try exact Hfind.
  destruct (String.eqb k "length"); [done|exact Hfind].
Qed.

Lemma quiet_isTextRange o e : quiet_object o → _isTextRange o ≠ inl e.
Proof.
  intros Hq. unfold _isTextRange.
  destruct (get o "start") eqn:E1; [by apply quiet_get in E1|].
  destruct (is_number v); [|done].
  destruct (get o "length") eqn:E2; [by apply quiet_get in E2|done].
Qed.

Lemma text_range_numbers o :
  _isTextRange o = inr true →
  ∃ a b, get o "start" = inr a ∧ get o "length" = inr b ∧
         is_number a = true ∧ is_number b = true.
Proof.
  unfold _isTextRange.
  destruct (get o "start") as [|a]; [done|].
  destruct (is_number a) eqn:Ha; [|done].
  destruct (get o "length") as [|b]; [done|]. intros [= Hb]. eauto 6.
Qed.

(** What holds of [undefined], of the integers and of every value an
    object holds, holds of what reading a property of the object gives. *)
Lemma get_holds (P : value → Prop) o k v :
  P VUndef → (∀ n, P (VNum n)) → Forall P (values_of o) → get o k = inr v → P v.
Proof.
  intros Hu Hn HF. unfold values_of in HF. apply Forall_app in HF as [_ HF].
  assert (∀ p, p ∈ own o ++ inherited o → pread p = inr v → P v) as Hp.
  { intros p Hp Hr. eapply Forall_forall; [exact HF|].
    apply list_elem_of_omap. exists p. split; [done|]. by rewrite Hr. }
  assert (match find_prop k (own o) with
          | Some p => pread p
          | None => match find_prop k (inherited o) with
                    | Some p => pread p
                    | None => inr VUndef
                    end
          end = inr v → P v) as Hfind.
  { destruct (find_prop k (own o)) as [p|] eqn:E1.
    - apply Hp, elem_of_app. left. by eapply find_prop_elem.
    - destruct (find_prop k (inherited o)) as [p|] eqn:E2; [|by intros [= <-]].
      apply Hp, elem_of_app. right. by eapply find_prop_elem. }
  unfold get. destruct (kind o); try exact Hfind.
  destruct (String.eqb k "length"); [by intros [= <-]|exact Hfind].
Qed.

Lemma get_no_bigint o k v :
  Forall (λ v, is_bigint v = false) (values_of o) → get o k = inr v → is_bigint v = false.
Proof. by apply (get_holds (λ v, is_bigint v = false)). Qed.

Lemma contents_hold (P : value → Prop) o :
  Forall P (values_of o) →
  match kind o with
  | CArray elems => Forall P elems
  | CMap entries => Forall (λ kv, P kv.1 ∧ P kv.2) entries
  | CSet members => Forall P members
  | CTextRangeCollection items => Forall P items
  | _ => True
  end.
Proof.
  unfold values_of. intros [HF _]%Forall_app. destruct (kind o); try done.
  apply Forall_app in HF as [H1 H2]. rewrite Forall_fmap in H1, H2.
  rewrite Forall_forall in H1, H2. apply Forall_forall. intros kv Hkv.
  split; [by apply H1|by apply H2].
Qed.

Lemma number_leaf v : is_number v = true → is_primitive v && negb (is_bigint v) = true.
Proof. by destruct v. Qed.

Lemma obj_set_Forall {A} (P : string * A → Prop) k v l :
  P (k, v) → Forall P l → Forall P (obj_set k v l).
Proof.
  intros Hv HF. unfold obj_set. destruct (String.eqb k "__proto__"); [done|].
  induction HF as [|[k' v'] l Hx HF IH]; cbn; [by repeat constructor|].
  destruct (String.eqb k' k); by constructor.
Qed.

Lemma scalar_leaves_arr es :
  Forall (λ e, scalar_leaves e = true) es → scalar_leaves (EArr es) = true.
Proof.
  intros HF. cbn. apply forallb_forall. intros e He.
  rewrite Forall_forall in HF. by apply HF, list_elem_of_In.
Qed.

Lemma isTextRange_throws o e :
  _isTextRange o = inl e → get o "start" = inl e ∨ get o "length" = inl e.
Proof.
  unfold _isTextRange. destruct (get o "start") as [e1|a]; [intros [= ->]; by left|].
  destruct (is_number a); [|done].
  destruct (get o "length") as [e2|b]; [intros [= ->]; by right|done].
Qed.

(** In these lemmas [T] is what is known when the walk throws: nothing
    ([T := True]), or that it does not ([T := False], on objects that are
    no invalid dates and have no accessor that throws). *)
Lemma scalar_encode_record (T T' : Prop) recur o :
  Forall (λ v, is_bigint v = false) (values_of o) →
  (∀ v, is_bigint v = false → ensures T (λ e, scalar_leaves e = true) (recur v)) →
  ensures T' (λ e, scalar_leaves e = true) (encode_record recur o).
Proof.
  intros Hbig Hrec. unfold encode_record. eapply ensures_bind.
  - apply (ensures_foldM _ (Forall (λ kv : string * enc, scalar_leaves kv.2 = true)));
      [constructor|].
    intros entries key Hacc _ c r c'. unfold record_step, bind.
    destruct (get o key) as [e|v] eqn:Hg; [by intros [= <- <-]|]. cbn [lift ret].
    pose proof (get_no_bigint o key v Hbig Hg) as Hv.
    destruct (recur v c) as [[e| |] c1] eqn:Er; intros [= <- <-]; [|done..].
    pose proof (Hrec v Hv c _ c1 Er) as He. cbn in He.
    destruct (is_undefined e); [done|]. by apply obj_set_Forall.
  - intros entries HF. apply ensures_ret. cbn. apply forallb_forall.
    intros kv Hkv. rewrite Forall_forall in HF. by apply HF, list_elem_of_In.
Qed.

Lemma scalar_serializeObject (T : Prop) recur o :
  (kind o = CDate None → T) → (∀ k e, get o k = inl e → T) →
  Forall (λ v, is_bigint v = false) (values_of o) →
  (_isDiagnostic o = true → ∀ v,
     get o "category" = inr v ∨ get o "message" = inr v → is_primitive v = true) →
  (∀ v, is_bigint v = false → ensures T (λ e, scalar_leaves e = true) (recur v)) →
  ensures T (λ e, scalar_leaves e = true) (_serializeObject recur o).
Proof.
  intros Hdate Hget Hbig Hdiag Hrec.
  pose proof (contents_hold _ o Hbig) as Hcont.
  assert (∀ vs, Forall (λ v, is_bigint v = false) vs →
            ensures T (λ es, scalar_leaves (EArr es) = true) (mapM recur vs))
    as Hlist.
  { intros vs Hvs. eapply ensures_weaken; [apply scalar_leaves_arr|].
    apply ensures_mapM. intros x Hx. apply Hrec.
    rewrite Forall_forall in Hvs. by apply Hvs. }
  assert (∀ tag (es : list enc),
            scalar_leaves (EArr es) = true → scalar_leaves (EObj [(tag, EArr es)]) = true)
    as Htag by (intros tag es Hes; cbn in Hes |- *; by rewrite Hes).
  destruct (kind o) as [|elems|t|source flags|entries|members|items] eqn:K.
  3: { eapply ensures_eq; [intros c; by apply (_serializeObject_date _ _ t)|].
       apply ensures_bind_lift; [|intros iso _; by apply ensures_ret].
       destruct t; [done|]. intros _ _. by apply Hdate. }
  3: { eapply ensures_eq; [intros c; by apply (_serializeObject_regexp _ _ source flags)|].
       by apply ensures_ret. }
  3: { eapply ensures_eq; [intros c; by apply (_serializeObject_map _ _ entries)|].
       eapply ensures_bind; [|intros es Hes; apply ensures_ret, Htag, Hes].
       eapply ensures_weaken; [apply scalar_leaves_arr|].
       apply ensures_mapM. intros kv Hkv.
       rewrite Forall_forall in Hcont. destruct (Hcont kv Hkv) as [Hbk Hbv].
       eapply ensures_bind; [by apply Hrec|]. intros k Hk.
       eapply ensures_bind; [by apply Hrec|]. intros v Hv.
       apply ensures_ret. cbn. by rewrite Hk, Hv. }
  3: { eapply ensures_eq; [intros c; by apply (_serializeObject_set _ _ members)|].
       eapply ensures_bind; [by apply Hlist|]. intros es Hes. apply ensures_ret, Htag, Hes. }
  all: destruct (_isTextRange o) as [e|[|]] eqn:Ht.
  1,4,7: intros c r c'; unfold _serializeObject; rewrite K, Ht; intros [= <- <-];
         destruct (isTextRange_throws o e Ht) as [He|He]; by eapply Hget.
  1,3,5: destruct (text_range_numbers o Ht) as (a & b & Ha & Hb & Hna & Hnb);
         (eapply ensures_eq;
          [intros c; apply (_serializeObject_text_range _ _ a b); by rewrite ?K|]);
         apply ensures_ret; cbn; by rewrite !number_leaf.
  3: { eapply ensures_eq; [intros c; by apply (_serializeObject_range_collection _ _ items)|].
       eapply ensures_bind; [by apply Hlist|]. intros es Hes. apply ensures_ret.
       cbn in Hes |- *. by rewrite Hes. }
  all: destruct (_isDiagnostic o) eqn:Hd.
  1,3: destruct (get o "category") as [e|category] eqn:Hc;
       [intros c r c'; unfold _serializeObject;
        rewrite K, Ht, (not_text_range_not_parse_node o Ht), Hd, Hc;
        intros [= <- <-]; by eapply Hget|];
       destruct (get o "message") as [e|message] eqn:Hm;
       [intros c r c'; unfold _serializeObject;
        rewrite K, Ht, (not_text_range_not_parse_node o Ht), Hd, Hc, Hm;
        intros [= <- <-]; by eapply Hget|];
       destruct (get o "range") as [e|range] eqn:Hr;
       [intros c r c'; unfold _serializeObject;
        rewrite K, Ht, (not_text_range_not_parse_node o Ht), Hd, Hc, Hm, Hr;
        intros [= <- <-]; by eapply Hget|];
       (eapply ensures_eq;
        [intros c; apply (_serializeObject_diagnostic _ _ category message range);
         rewrite ?K; (done || congruence)|]);
       (eapply ensures_bind; [eapply Hrec, get_no_bigint; [exact Hbig|exact Hr]|]);
       intros e He; apply ensures_ret; cbn;
       by rewrite (Hdiag eq_refl category), (Hdiag eq_refl message), He,
         (get_no_bigint o _ _ Hbig Hc), (get_no_bigint o _ _ Hbig Hm) by auto.
  - eapply ensures_eq; [intros c; by apply _serializeObject_record|].
    by apply (scalar_encode_record T).
  - eapply ensures_eq; [intros c; by apply (_serializeObject_array _ _ elems)|].
    eapply ensures_bind; [by apply Hlist|]. intros es Hes. by apply ensures_ret.
Qed.

(** When the category and the message of a diagnostic are not objects and
    there is no BigInt, what the walk returns holds no reference to the
    heap and no BigInt; and it throws only where an object is an invalid
    date or has an accessor that throws. *)
Lemma scalar_serializeValue (T : Prop) (h : gmap nat obj) :
  (∀ l o, h !! l = Some o → kind o = CDate None → T) →
  (∀ l o k e, h !! l = Some o → get o k = inl e → T) →
  plain_summaries h → no_bigint h →
  ∀ fuel v, is_bigint v = false →
    ensures T (λ e, scalar_leaves e = true) (_serializeValue fuel h v).
Proof.
  intros Hdate Hget Hp Hb fuel. induction fuel as [|fuel IH]; intros v Hv;
    (destruct v; try discriminate; cbn [_serializeValue];
     [by apply ensures_ret..|]); [apply ensures_stuck|].
  eapply (ensures_bind _ (λ _, True)); [by intros c r c' [= <- _]|]. intros [n|] _.
  { by apply ensures_ret. }
  eapply (ensures_bind _ (λ _, True)); [by intros c r c' [= <- _]|]. intros _ _.
  eapply ensures_bind; [apply (ensures_deref _ (λ o, h !! l = Some o)); auto|].
  intros o Ho. cbn beta in Ho.
  apply scalar_serializeObject;
    [intros Hk; by eapply Hdate|intros k e Hg; by eapply Hget|eapply Hb; exact Ho|
    |exact IH].
  intros Hd v Hv'. exact (Hp l o v Ho Hd Hv').
Qed.

Lemma quiet_serializeValue (h : gmap nat obj) :
  quiet h → plain_summaries h → no_bigint h →
  ∀ fuel v, is_bigint v = false →
    ensures False (λ e, scalar_leaves e = true) (_serializeValue fuel h v).
Proof.
  intros Hq. apply scalar_serializeValue.
  - intros l o Ho Hk. by destruct (Hq l o Ho) as [Hd _].
  - intros l o k e Ho Hg. by apply (quiet_get o k e (Hq l o Ho)).
Qed.

(** The host writes a tree without references as it is: nothing to look
    up, nothing to throw. *)
Lemma stringify_scalar_leaves n (h : gmap nat obj) stack : ∀ e,
  scalar_leaves e = true → ∃ j, host_walk n h stack e = (Ret j, tt).
Proof.
  unfold host_walk. fix IH 1. intros [v|items|entries] Hs.
  - clear IH. destruct v as [| | | |[]| | | | |]; try done; destruct n; cbn; eauto.
  - cbn [stringify_enc].
    set (go := fix go (items : list enc) : M unit (list json) := _).
    assert (∃ js, go items tt = (Ret js, tt)) as [js E].
    { cbn [scalar_leaves] in Hs. induction items as [|x items IHi]; [by eexists|].
      cbn [forallb] in Hs. apply andb_true_iff in Hs as [Hx Hs].
      destruct (IH x Hx) as [j Ej]. destruct (IHi Hs) as [js Ejs].
      exists (default JNull j :: js). cbn. unfold bind. rewrite Ej. fold go.
      by rewrite Ejs. }
    unfold bind. rewrite E. eauto.
  - cbn [stringify_enc].
    set (go := fix go (entries : list (string * enc)) : M unit (list (string * json)) := _).
    assert (∃ js, go entries tt = (Ret js, tt)) as [js E].
    { cbn [scalar_leaves] in Hs. induction entries as [|[k x] entries IHe]; [by eexists|].
      cbn [forallb snd] in Hs. apply andb_true_iff in Hs as [Hx Hs].
      destruct (IH x Hx) as [j Ej]. destruct (IHe Hs) as [js Ejs].
      eexists. cbn. unfold bind. rewrite Ej. fold go. by rewrite Ejs. }
    unfold bind. rewrite E. eauto.
Qed.

Lemma fresh_unmarked (h : gmap nat obj) : (unmarked h fresh_context < S (size h))%nat.
Proof.
  unfold unmarked. apply Nat.lt_succ_r. rewrite <- (size_dom (D := gset nat) h).
  apply subseteq_size. intros l [Hl _]%elem_of_difference. exact Hl.
Qed.

(** C6, as amended. A record is an object that no test of the dispatch
    claims: a plain object on which the text-range test returns false
    without raising, and that lacks one of [category], [message] and
    [range].  The walk over a record met for the first time goes through
    its own enumerable keys and no others; a key whose value raises while
    it is read or encoded is skipped and the keys after it are still
    encoded, a key whose encoding is absence (an [undefined] or a
    function) is omitted, and the walk does not throw.  And encode itself
    returns a document for a record of a closed heap that holds no BigInt
    and where the category and the message of what passes for a
    diagnostic are not objects, whatever raises at any depth below the
    record: an accessor, an invalid date. *)
Theorem record_encoding (h : gmap nat obj) l o :
  h !! l = Some o → is_record o →
  (∀ fuel c, seen c !! l = None →
     _serializeValue (S fuel) h (VRef l) c =
       encode_record (_serializeValue fuel h) o (marked l c) ∧
     (∀ e, (_serializeValue (S fuel) h (VRef l) c).1 ≠ Throw e) ∧
     (∀ e, (_serializeValue (S fuel) h (VRef l) c).1 = Ret e →
        ∃ entries, e = EObj entries ∧
          ∀ k, k ∈ entries.*1 →
            k ∈ own_enumerable_keys o ∧
            ∃ v, get o k = inr v ∧ v ≠ VUndef ∧ v ≠ VFun)) ∧
  (closed h → plain_summaries h → no_bigint h → ∃ t, serialize h (VRef l) = Ret t).
Proof.
  intros Ho Hrec. split; [intros fuel c Hs; by apply record_walk|].
  intros Hcl Hp Hb. unfold serialize. fold fresh_context.
  destruct (_serializeValue _ _ _ _) as [r c'] eqn:E.
  pose proof (scalar_serializeValue True h (λ _ _ _ _, I) (λ _ _ _ _ _ _, I) Hp Hb
                _ (VRef l) eq_refl _ _ _ E) as Hr.
  pose proof (proj2 (serializeValue_returns h Hcl (S (size h)) (VRef l)
                       (mk_is_Some _ _ Ho)) fresh_context (fresh_unmarked h)) as Hs.
  destruct (record_walk (size h) h l o fresh_context Ho (lookup_empty l) Hrec)
    as (_ & Hnt & _).
  rewrite E in Hs, Hnt. cbn in Hs, Hnt.
  pose proof (steady_serializeValue _ _ _ _ _ _ E) as [(_ & Hrefs & _) _].
  cbn in Hrefs. destruct r as [e|x|]; [|by destruct (Hnt x)|done].
  rewrite Hrefs. unfold JSON_stringify, bind.
  destruct (stringify_scalar_leaves (S (size h)) h []
              (EObj [("version", ENum 1); ("data", e); ("refs", EArr [])]))
    as [j Ej]; [cbn; by rewrite Hr|].
  unfold host_walk in Ej. rewrite Ej.
  destruct j as [j|]; [by eexists|].
  by destruct (stringify_compound _
                (EObj [("version", ENum 1); ("data", e); ("refs", EArr [])])
                _ _ _ eq_refl Ej).
Qed.

(** X8. Encode returns a document, and does not throw, on every heap,
    cyclic or not, that is closed, has no invalid date, no accessor that
    throws and no BigInt, and where the category and the message of what
    passes for a diagnostic are not objects; the root is any value of the
    heap that is not a BigInt. *)
Theorem encode_returns_a_document (h : gmap nat obj) v :
  closed h → quiet h → plain_summaries h → no_bigint h →
  in_heap h v → is_bigint v = false →
  ∃ t, serialize h v = Ret t.
Proof.
  intros Hcl Hq Hp Hb Hv Hvb. unfold serialize. fold fresh_context.
  destruct (_serializeValue _ _ _ _) as [r c'] eqn:E.
  pose proof (quiet_serializeValue h Hq Hp Hb _ _ Hvb _ _ _ E) as Hr.
  pose proof (proj2 (serializeValue_returns h Hcl (S (size h)) v Hv) fresh_context
                (fresh_unmarked h)) as Hs.
  rewrite E in Hs. cbn in Hs.
  pose proof (steady_serializeValue _ _ _ _ _ _ E) as [(_ & Hrefs & _) _].
  cbn in Hrefs. destruct r as [e| |]; [|done..].
  rewrite Hrefs. unfold JSON_stringify, bind.
  destruct (stringify_scalar_leaves (S (size h)) h []
              (EObj [("version", ENum 1); ("data", e); ("refs", EArr [])]))
    as [j Ej]; [cbn; by rewrite Hr|].
  unfold host_walk in Ej. rewrite Ej.
  destruct j as [j|]; [by eexists|].
  by destruct (stringify_compound _
                (EObj [("version", ENum 1); ("data", e); ("refs", EArr [])])
                _ _ _ eq_refl Ej).
Qed.

(** ** Exceptions that reach the caller *)

(** What the encoder returns for a primitive. *)
Lemma serialize_primitives fuel (h : gmap nat obj) vs c :
  Forall (λ v, is_primitive v = true) vs →
  mapM (_serializeValue fuel h) vs c =
  (Ret (map (λ v, EVal (match v with VFun => VUndef | _ => v end)) vs), c).
Proof.
  induction 1 as [|v vs Hv _ IH]; [done|]. cbn [mapM map]. unfold bind.
  assert (_serializeValue fuel h v c =
          (Ret (EVal (match v with VFun => VUndef | _ => v end)), c)) as ->.
  { destruct v; try done; by destruct fuel. }
  by rewrite IH.
Qed.

Lemma mapM_throws {St A B} (f : A → M St B) l1 x l2 c ys c1 e c2 :
  mapM f l1 c = (Ret ys, c1) → f x c1 = (Throw e, c2) →
  mapM f (l1 ++ x :: l2) c = (Throw e, c2).
Proof.
  revert c ys. induction l1 as [|y l1 IH]; intros c ys; cbn [mapM app].
  - intros [= _ <-] Hx. unfold bind. by rewrite Hx.
  - unfold bind. destruct (f y c) as [[b| |] c0]; [|done..].
    destruct (mapM f l1 c0) as [[bs| |] c3] eqn:E; [|done..].
    intros [= _ <-] Hx. by rewrite (IH _ _ E Hx).
Qed.

Lemma invalid_date_throws fuel (h : gmap nat obj) l o c :
  h !! l = Some o → kind o = CDate None → seen c !! l = None →
  _serializeValue (S fuel) h (VRef l) c =
  (Throw (RangeError "Invalid time value"), marked l c).
Proof.
  intros Ho Hk Hs. rewrite (_serializeValue_first _ _ _ _ o) by done.
  unfold _serializeObject. by rewrite Hk.
Qed.

(** X9. An invalid date makes encode throw the [RangeError] of
    [toISOString] when it is the root, and when it is an element of the
    root array after elements that are not objects: only a property of a
    record is inside a [try]. *)
Theorem invalid_date_makes_encode_throw (h : gmap nat obj) l o :
  h !! l = Some o → kind o = CDate None →
  serialize h (VRef l) = Throw (RangeError "Invalid time value") ∧
  ∀ la oa before after,
    h !! la = Some oa → la ≠ l →
    kind oa = CArray (before ++ VRef l :: after) →
    Forall (λ v, is_primitive v = true) before →
    _isTextRange oa = inr false → _isDiagnostic oa = false →
    serialize h (VRef la) = Throw (RangeError "Invalid time value").
Proof.
  intros Ho Hk. split.
  - unfold serialize. by rewrite (invalid_date_throws _ h l o).
  - intros la oa before after Hoa Hne Hka Hprim Ht Hd. unfold serialize.
    rewrite (_serializeValue_first _ _ _ _ oa) by done.
    rewrite (_serializeObject_array _ _ _ _ Hka Ht Hd). unfold bind.
    erewrite mapM_throws; [done|by apply serialize_primitives|].
    destruct (size h) as [|n] eqn:Hn.
    { apply map_size_empty_inv in Hn. by rewrite Hn, lookup_empty in Ho. }
    apply (invalid_date_throws n h l o); [done|done|].
    cbn. by rewrite lookup_insert_ne.
Qed.

Lemma toJSON_object {St} (h : gmap nat obj) l o (st : St) :
  h !! l = Some o → kind o = CObject → toJSON h (VRef l) st = (Ret (VRef l), st).
Proof. intros Ho Hk. unfold toJSON, bind, deref. rewrite Ho. cbn. by rewrite Hk. Qed.

Lemma walk_meets_stack (h : gmap nat obj) l o n stack :
  h !! l = Some o → kind o = CObject → l ∈ stack →
  SerializeJSONProperty no_replacer (S n) h stack (VRef l) tt =
  (Throw (TypeError "Converting circular structure to JSON"), tt).
Proof.
  intros Ho Hk Hl. cbn [SerializeJSONProperty]. unfold bind at 1.
  rewrite (toJSON_object h l o) by done.
  unfold bind at 1. cbn [no_replacer ret].
  by rewrite bool_decide_eq_true_2.
Qed.

Lemma self_reference_walk (h : gmap nat obj) l o k rest n stack :
  h !! l = Some o → kind o = CObject → own o = field k (VRef l) :: rest → l ∉ stack →
  SerializeJSONProperty no_replacer (S (S n)) h stack (VRef l) tt =
  (Throw (TypeError "Converting circular structure to JSON"), tt).
Proof.
  intros Ho Hk Hown Hl.
  pose proof (walk_meets_stack h l o n (l :: stack) Ho Hk ltac:(by left)) as Hin.
  revert Hin. generalize (S n). intros m Hin.
  cbn [SerializeJSONProperty]. unfold bind at 1.
  rewrite (toJSON_object h l o) by done.
  unfold bind at 1. cbn [no_replacer ret].
  rewrite bool_decide_eq_false_2 by done.
  unfold bind at 1. unfold deref at 1. rewrite Ho. cbn [ret]. rewrite Hk, Hown.
  rewrite filter_cons_True by done.
  cbn [foldM]. unfold bind at 1 2. cbn [lift field pread ret].
  unfold bind at 1. unfold ret at 1. unfold bind at 1. by rewrite Hin.
Qed.

(** X10. The category of a diagnostic is copied to the encoding without
    being encoded.  When it is the diagnostic itself, the identity table
    does not see the cycle, the host's walk does, and encode throws
    "Converting circular structure to JSON". *)
Theorem cyclic_diagnostic_makes_encode_throw (h : gmap nat obj) l o rest message range :
  h !! l = Some o → kind o = CObject → no_toJSON o →
  own o = field "category" (VRef l) :: rest →
  _isTextRange o = inr false → _isDiagnostic o = true →
  get o "message" = inr message → get o "range" = inr range →
  is_primitive range = true →
  serialize h (VRef l) = Throw (TypeError "Converting circular structure to JSON").
Proof.
  intros Ho Hk _ Hown Ht Hd Hm Hr Hp.
  assert (get o "category" = inr (VRef l)) as Hc.
  { unfold get. rewrite Hk, Hown. reflexivity. }
  destruct (size h) as [|n] eqn:Hn.
  { apply map_size_empty_inv in Hn. by rewrite Hn, lookup_empty in Ho. }
  unfold serialize. rewrite Hn.
  rewrite (_serializeValue_first _ _ _ _ o) by done.
  rewrite (_serializeObject_diagnostic _ o (VRef l) message range);
    [|by rewrite Hk|by rewrite Hk|done..].
  unfold bind.
  assert (∀ c, _serializeValue (S n) h range c =
               (Ret (EVal (match range with VFun => VUndef | _ => range end)), c)) as ->.
  { intros c. by destruct range. }
  cbn [ret refs marked]. unfold JSON_stringify, bind.
  rewrite document_walk by done.
  cbn [stringify_enc]. unfold bind at 1 2 3 4. rewrite Hn.
  rewrite (self_reference_walk h l o "category" rest n []); [done..|].
  apply not_elem_of_nil.
Qed.

(** ** Arrays *)

(** The host's walk over the elements of a new array. *)
Lemma stringify_arr_cons {St} (leaf : value → M St (option json)) x xs c :
  stringify_enc leaf (EArr (x :: xs)) c =
  (let* j := stringify_enc leaf x in
   let* a := stringify_enc leaf (EArr xs) in
   ret (match a with Some (JArr js) => Some (JArr (default JNull j :: js)) | _ => a end)) c.
Proof.
  cbn [stringify_enc]. unfold bind, ret.
  destruct (stringify_enc leaf x c) as [[j| |] c1]; [|done..].
  match goal with |- context [?go xs c1] => by destruct (go xs c1) as [[js| |] c2] end.
Qed.

Lemma walks_primitive (h : gmap nat obj) v :
  is_primitive v = true → is_bigint v = false →
  ∀ n stack, ∃ j, host_walk n h stack (EVal (match v with VFun => VUndef | _ => v end)) =
                  (Ret j, tt) ∧ default JNull j = element_json v.
Proof.
  intros Hp Hb n stack. unfold host_walk.
  destruct v as [| | | |[]| | | | |]; try done; destruct n; by eexists.
Qed.

Lemma walks_elements (h : gmap nat obj) vs :
  Forall (λ v, is_primitive v = true) vs → Forall (λ v, is_bigint v = false) vs →
  walks h (EArr (map (λ v, EVal (match v with VFun => VUndef | _ => v end)) vs))
        (JArr (map element_json vs)).
Proof.
  intros HF HB n stack. unfold host_walk.
  induction HF as [|v vs Hv _ IH]; [reflexivity|].
  apply Forall_cons in HB as [Hb HB]. cbn [map]. rewrite stringify_arr_cons. unfold bind.
  destruct (walks_primitive h v Hv Hb n stack) as (j & Ej & Hj).
  unfold host_walk in Ej. rewrite Ej, (IH HB). cbn. by rewrite Hj.
Qed.

(** The walk throws at the first BigInt. *)
Lemma walk_meets_bigint (h : gmap nat obj) vs n stack :
  Forall (λ v, is_primitive v = true) vs → Exists (λ v, is_bigint v = true) vs →
  host_walk n h stack (EArr (map (λ v, EVal (match v with VFun => VUndef | _ => v end)) vs)) =
  (Throw (TypeError "Do not know how to serialize a BigInt"), tt).
Proof.
  unfold host_walk. intros HF. induction HF as [|v vs Hv _ IH]; intros HE.
  { by apply Exists_nil in HE. }
  cbn [map]. rewrite stringify_arr_cons. unfold bind.
  destruct (is_bigint v) eqn:Hb.
  - destruct v; try discriminate. by destruct n.
  - destruct (walks_primitive h v Hv Hb n stack) as (j & Ej & _).
    unfold host_walk in Ej. rewrite Ej, IH; [done|].
    apply Exists_cons in HE as [HE|HE]; [congruence|done].
Qed.

Lemma decodes_elements vs :
  Forall (λ v, is_primitive v = true) vs → Forall (λ v, is_bigint v = false) vs →
  decodes (JArr (map element_json vs)) (DArr (map element_image vs)).
Proof.
  intros HF HB. apply decodes_arr.
  induction HF as [|v vs Hv _ IH]; [constructor|].
  apply Forall_cons in HB as [Hb HB]. cbn [map]. constructor; [|by apply IH].
  intros fuel refs _. destruct v as [| | | |[]| | | | |]; try done; by destruct fuel.
Qed.

(** X11. An array of values that are not objects.  Without a BigInt it
    comes back with the same length: [null], a boolean, an integer and a
    string as they are, [-0] as [0], and [null] in the place of
    [undefined], of a function, of a symbol, of [NaN] and of an infinity
    (in a record such a property is left out, or holds [null]).  With a
    BigInt encode throws the host's TypeError. *)
Theorem array_keeps_its_length (h : gmap nat obj) l o elems :
  h !! l = Some o → kind o = CArray elems →
  Forall (λ v, is_primitive v = true) elems →
  _isTextRange o = inr false → _isDiagnostic o = false →
  if forallb (λ v, negb (is_bigint v)) elems
  then ∃ t, serialize h (VRef l) = Ret t ∧
            deserialize t = Ret (DArr (map element_image elems))
  else serialize h (VRef l) = Throw (TypeError "Do not know how to serialize a BigInt").
Proof.
  intros Ho Hk Hprim Ht Hd.
  assert (_serializeValue (S (size h)) h (VRef l) fresh_context =
          (Ret (EArr (map (λ v, EVal (match v with VFun => VUndef | _ => v end)) elems)),
           marked l fresh_context)) as E.
  { rewrite (_serializeValue_first _ _ _ _ o) by done.
    rewrite (_serializeObject_array _ _ _ _ Hk Ht Hd). unfold bind.
    by rewrite serialize_primitives. }
  destruct (forallb _ elems) eqn:Hb.
  - assert (Forall (λ v, is_bigint v = false) elems) as HB.
    { apply Forall_forall. intros v Hv. rewrite forallb_forall in Hb.
      apply negb_true_iff, Hb, list_elem_of_In, Hv. }
    eapply (document_round_trip h (VRef l)); [exact E|].
    split; [done|]. eexists. split; [by apply walks_elements|by apply decodes_elements].
  - assert (Exists (λ v, is_bigint v = true) elems) as HE.
    { apply Exists_exists. apply not_true_iff_false in Hb.
      destruct (decide (Exists (λ v, is_bigint v = true) elems)) as [HE|HE];
        [by apply Exists_exists in HE|].
      destruct Hb. apply forallb_forall. intros v Hv%list_elem_of_In.
      apply negb_true_iff, not_true_iff_false. intros Hv'. apply HE, Exists_exists. eauto. }
    unfold serialize. fold fresh_context. rewrite E. cbn [refs marked fresh_context].
    unfold JSON_stringify, bind. rewrite document_walk by done.
    pose proof (walk_meets_bigint h elems (S (size h)) [] Hprim HE) as Hw.
    unfold host_walk in Hw. by rewrite Hw.
Qed.

Lemma walks_number (h : gmap nat obj) v :
  is_number v = true → walks h (EVal v) (element_json v).
Proof. intros Hv n stack. destruct v as [| | | |[]| | | | |]; try done; by destruct n. Qed.

(** X12. An array has a numeric [length], so an array with a numeric
    property [start] passes for a text range: it comes back as an object
    with [start] (as the host writes it: [null] for [NaN] and the
    infinities) and the number of its elements, and the elements are
    lost. *)
Theorem array_with_start_is_a_text_range (h : gmap nat obj) l o elems a :
  h !! l = Some o → kind o = CArray elems →
  get o "start" = inr a → is_number a = true →
  ∃ t, serialize h (VRef l) = Ret t ∧
       deserialize t =
       Ret (DObj [("start", root_image a); ("length", DNum (Z.of_nat (length elems)))]).
Proof.
  intros Ho Hk Ha Hna.
  eapply (document_round_trip h (VRef l)
            (EObj [(TYPE_MARKERS.TextRange,
                    EObj [("start", EVal a);
                          ("length", ENum (Z.of_nat (length elems)))])])).
  - rewrite (_serializeValue_first _ _ _ _ o) by done.
    apply _serializeObject_text_range; [by rewrite Hk|done| |done..].
    unfold get. by rewrite Hk.
  - split; [done|].
    exists (JObj [(TYPE_MARKERS.TextRange,
                   JObj [("start", element_json a);
                         ("length", JNum (Z.of_nat (length elems)))])]).
    split.
    + apply walks_obj. repeat constructor. cbn.
      apply walks_obj. repeat constructor; cbn;
        [by apply walks_number|by apply (walks_scalar h (VNum _))].
    + intros fuel refs Hd. destruct fuel as [|fuel]; [cbn in Hd; lia|].
      by destruct a as [| | | |[]| | | | |].
Qed.

(** ** The numbers of the identity table *)

Lemma preserves_pure {St A} (I : St → Prop) (m : M St A) :
  (∀ c, (m c).2 = c) → preserves I m.
Proof. intros Hm c r c' E. specialize (Hm c). rewrite E in Hm. by subst. Qed.

Lemma preserves_bind {St A B} (I : St → Prop) (m : M St A) (k : A → M St B) :
  preserves I m → (∀ a, preserves I (k a)) → preserves I (bind m k).
Proof.
  intros Hm Hk c r c'. unfold bind. destruct (m c) as [[a|e|] c1] eqn:E.
  - intros E' Hc. eapply Hk; [done|]. by eapply Hm.
  - intros [= <- <-]. by eapply Hm.
  - intros [= <- <-]. by eapply Hm.
Qed.

Lemma preserves_try_catch {St A} (I : St → Prop) (m : M St A) handler :
  preserves I m → (∀ e, preserves I (handler e)) → preserves I (try_catch m handler).
Proof.
  intros Hm Hk c r c'. unfold try_catch. destruct (m c) as [[a|e|] c1] eqn:E.
  - intros [= <- <-]. by eapply Hm.
  - intros E' Hc. eapply Hk; [done|]. by eapply Hm.
  - intros [= <- <-]. by eapply Hm.
Qed.

Lemma preserves_mapM {St A B} (I : St → Prop) (f : A → M St B) l :
  (∀ x, preserves I (f x)) → preserves I (mapM f l).
Proof.
  intros Hf. induction l as [|x l IH]; cbn [mapM]; [by apply preserves_pure|].
  apply preserves_bind; [done|]. intros y.
  apply preserves_bind; [done|]. intros ys. by apply preserves_pure.
Qed.

Lemma preserves_foldM {St A B} (I : St → Prop) (f : B → A → M St B) l b :
  (∀ b x, preserves I (f b x)) → preserves I (foldM f b l).
Proof.
  intros Hf. revert b. induction l as [|x l IH]; intros b; cbn [foldM];
    [by apply preserves_pure|].
  apply preserves_bind; [done|]. intros b'. apply IH.
Qed.

Ltac preserves_step :=
  first
    [ apply preserves_bind; [|intros ?]
    | apply preserves_try_catch; [|intros ?]
    | apply preserves_mapM; intros ?
    | apply preserves_foldM; intros ? ?
    | assumption
    | match goal with
      | |- preserves _ (match ?x with _ => _ end) => destruct x
      | |- preserves _ (if ?b then _ else _) => destruct b
      | H : ∀ v, preserves _ (?f v) |- preserves _ (?f _) => apply H
      | |- preserves _ (lift ?r) => apply preserves_pure; intros ?; by destruct r
      | |- preserves _ (ret _) => by apply preserves_pure
      end ].

(** The dispatch touches the context through its recursive calls only. *)
Lemma preserves_serializeObject (I : SerializationContext → Prop) recur o :
  (∀ v, preserves I (recur v)) → preserves I (_serializeObject recur o).
Proof. intros IH. unfold _serializeObject. repeat preserves_step. Qed.

Lemma dense_marked l c : seen c !! l = None → dense c → dense (marked l c).
Proof.
  intros Hs Hd n Hn. cbn in Hn.
  destruct (decide (n = refCount c)) as [->|Hne].
  - exists l. cbn. apply lookup_insert_eq.
  - destruct (Hd n ltac:(lia)) as [l' Hl']. exists l'. cbn.
    rewrite lookup_insert_ne; [done|]. intros ->. by rewrite Hs in Hl'.
Qed.

Lemma dense_serializeValue fuel (h : gmap nat obj) v :
  preserves dense (_serializeValue fuel h v).
Proof.
  revert v. induction fuel as [|fuel IH]; intros v;
    destruct v; try (by apply preserves_pure).
  intros c r c'.
  destruct (seen c !! l) as [n|] eqn:Hs.
  - rewrite (_serializeValue_seen fuel h l c n Hs). by intros [= <- <-].
  - destruct (h !! l) as [o|] eqn:Ho.
    + rewrite (_serializeValue_first fuel h l c o Hs Ho). intros E Hd.
      eapply (preserves_serializeObject dense); [exact IH|exact E|].
      by apply dense_marked.
    + cbn [_serializeValue]. unfold bind, seen_get, mark_seen, deref.
      rewrite Hs. cbn. rewrite Ho. intros [= <- <-]. by apply dense_marked.
Qed.

(** X13. The numbers handed out are consecutive: after any call, from a
    context in order, every number below the counter belongs to exactly
    one object.  From the fresh context of [serialize] these are the
    numbers 0 to n - 1 for the n objects visited. *)
Theorem identities_are_consecutive fuel (h : gmap nat obj) v c r c' :
  _serializeValue fuel h v c = (r, c') → ctx_ok c → dense c →
  ∀ n, (n < refCount c')%nat →
    ∃ l, seen c' !! l = Some n ∧ ∀ l', seen c' !! l' = Some n → l' = l.
Proof.
  intros E Hok Hd n Hn.
  destruct (dense_serializeValue fuel h v c r c' E Hd n Hn) as [l Hl].
  exists l. split; [done|]. intros l' Hl'.
  apply steady_serializeValue in E as [_ Hok']. by apply (proj2 (Hok' Hok) l' l n).
Qed.

Lemma first_visit_number fuel (h : gmap nat obj) l o c r c' :
  h !! l = Some o → seen c !! l = None →
  _serializeValue (S fuel) h (VRef l) c = (r, c') →
  seen c' !! l = Some (refCount c).
Proof.
  intros Ho Hs. rewrite (_serializeValue_first _ _ _ _ o) by done. intros E.
  apply steady_serializeObject in E as [(_ & _ & Hkeep & _) _];
    [|apply steady_serializeValue].
  apply Hkeep. cbn. apply lookup_insert_eq.
Qed.

Lemma Tree_root (h : gmap nat obj) l d L :
  Tree h (VRef l) d L → is_Some (h !! l) ∧ ∃ L', L = l :: L'.
Proof. inversion 1; subst; eauto. Qed.

Lemma decodes_marker n : decodes (JObj [(TYPE_MARKERS.Circular, JNum n)]) DNull.
Proof. intros [|fuel] refs Hd; [cbn in Hd; lia|reflexivity]. Qed.

(** X14. Sharing without a cycle is lost: in an array that holds the same
    object twice, the object being a tree of the supported kinds, the
    first occurrence comes back as the object's image and the second as
    [null]. *)
Theorem second_occurrence_decodes_to_null (h : gmap nat obj) la oa lx d L :
  h !! la = Some oa → kind oa = CArray [VRef lx; VRef lx] →
  _isTextRange oa = inr false → _isDiagnostic oa = false →
  Tree h (VRef lx) d L → NoDup L → la ∉ L →
  ∃ t, serialize h (VRef la) = Ret t ∧ deserialize t = Ret (DArr [d; DNull]).
Proof.
  intros Hoa Hk Ht Hd HT Hnd Hla.
  destruct (Tree_root h lx d L HT) as [[ox Hox] [L' ->]].
  pose proof (footprint_fits h _ _ _ HT Hnd) as Hfit.
  destruct (size h) as [|n] eqn:Hn; [cbn in Hfit; lia|].
  assert (unseen (lx :: L') (marked la fresh_context)) as Hu.
  { intros l Hl. cbn. rewrite lookup_insert_ne; [apply lookup_empty|].
    intros ->. by apply Hla. }
  destruct (proj1 (encode_tree h) _ _ _ HT (S n) (marked la fresh_context))
    as (e & c1 & E1 & _ & Hc); [done..|].
  pose proof (first_visit_number _ _ _ _ _ _ _ Hox (Hu lx ltac:(by left)) E1) as Hs.
  eapply (document_round_trip h (VRef la)
            (EArr [e; EObj [(TYPE_MARKERS.Circular, ENum 1)]])).
  - rewrite (_serializeValue_first _ _ _ _ oa) by done.
    rewrite (_serializeObject_array _ _ _ _ Hk Ht Hd). rewrite Hn.
    cbn [mapM]. unfold bind. rewrite E1.
    rewrite (_serializeValue_seen _ _ _ _ _ Hs). reflexivity.
  - split; [done|]. destruct Hc as (_ & j & Hw & Hj).
    exists (JArr [j; JObj [(TYPE_MARKERS.Circular, JNum 1)]]). split.
    + apply walks_arr. repeat constructor; [done|].
      apply walks_obj. repeat constructor. by apply (walks_scalar h (VNum 1)).
    + apply decodes_arr. repeat constructor; [done|apply decodes_marker].
Qed.

(** ** The flat codec: the walk *)

Lemma flat_walk_scalar fuel (h : gmap nat obj) stack v (seen : gset nat) :
  is_scalar v = true →
  flat_walk fuel h stack v seen = (Ret (Some (scalar_json v)), seen).
Proof. intros Hv. destruct v; try done; by destruct fuel. Qed.

Lemma flat_walk_absent fuel (h : gmap nat obj) stack v (seen : gset nat) :
  is_absent v = true → flat_walk fuel h stack v seen = (Ret None, seen).
Proof. intros Hv. destruct v; try done; by destruct fuel. Qed.

Lemma flat_walk_special fuel (h : gmap nat obj) stack x (seen : gset nat) :
  flat_walk fuel h stack (VSpecial x) seen =
  (Ret (Some (element_json (VSpecial x))), seen).
Proof. by destruct x, fuel. Qed.

Lemma flat_walk_date fuel (h : gmap nat obj) stack l o t (seen : gset nat) :
  h !! l = Some o → kind o = CDate t →
  flat_walk fuel h stack (VRef l) seen =
  (Ret (Some (match t with Some ms => JStr (Date_toISOString ms) | None => JNull end)), seen).
Proof.
  intros Ho Hk.
  assert (toJSON h (VRef l) seen =
          (Ret (match t with Some ms => VStr (Date_toISOString ms) | None => VNull end), seen))
    as E.
  { unfold toJSON, bind, deref. rewrite Ho. cbn. rewrite Hk. by destruct t. }
  destruct fuel; cbn [SerializeJSONProperty]; unfold bind at 1; rewrite E; by destruct t.
Qed.

Lemma flat_toJSON (h : gmap nat obj) l o (seen : gset nat) :
  h !! l = Some o → (∀ t, kind o ≠ CDate t) →
  toJSON h (VRef l) seen = (Ret (VRef l), seen).
Proof.
  intros Ho Hk. unfold toJSON, bind, deref. rewrite Ho. cbn.
  destruct (kind o) eqn:K; try done. by destruct (Hk t).
Qed.

(** A second encounter. *)
Lemma flat_walk_seen fuel (h : gmap nat obj) stack l o (seen : gset nat) :
  h !! l = Some o → (∀ t, kind o ≠ CDate t) → l ∈ seen →
  flat_walk fuel h stack (VRef l) seen = (Ret (Some (JStr "[Circular]")), seen).
Proof.
  intros Ho Hk Hl.
  destruct fuel; cbn [SerializeJSONProperty]; unfold bind at 1;
    rewrite (flat_toJSON h l o) by done; unfold bind at 1;
    cbn [SimpleSerializer.replacer]; by rewrite bool_decide_eq_true_2.
Qed.

Lemma flat_walk_array fuel (h : gmap nat obj) stack l o elems (seen : gset nat) :
  h !! l = Some o → kind o = CArray elems → l ∉ seen → l ∉ stack →
  flat_walk (S fuel) h stack (VRef l) seen =
  (let* js := mapM (λ x, let* j := flat_walk fuel h (l :: stack) x in
                         ret (default JNull j)) elems in
   ret (Some (JArr js))) ({[ l ]} ∪ seen).
Proof.
  intros Ho Hk Hs Hst. cbn [SerializeJSONProperty]. unfold bind at 1.
  rewrite (flat_toJSON h l o) by (done || by rewrite Hk).
  unfold bind at 1. cbn [SimpleSerializer.replacer].
  rewrite bool_decide_eq_false_2 by done.
  unfold bind at 1. unfold deref at 1. rewrite Ho. cbn [ret]. rewrite Hk.
  cbn [ret]. rewrite bool_decide_eq_false_2 by done.
  unfold bind at 1. unfold deref at 1. rewrite Ho. cbn [ret]. by rewrite Hk.
Qed.

Lemma flat_walk_record fuel (h : gmap nat obj) stack l o (seen : gset nat) :
  h !! l = Some o → plain_kind (kind o) = true → l ∉ seen → l ∉ stack →
  flat_walk (S fuel) h stack (VRef l) seen =
  (let* js := foldM (λ js p,
                 let* x := lift (pread p) in
                 let* j := flat_walk fuel h (l :: stack) x in
                 ret (match j with Some j => js ++ [(pkey p, j)] | None => js end))
               [] (filter (λ p, penum p = true) (own o)) in
   ret (Some (JObj js))) ({[ l ]} ∪ seen).
Proof.
  intros Ho Hk Hs Hst. cbn [SerializeJSONProperty]. unfold bind at 1.
  rewrite (flat_toJSON h l o) by (done || by destruct (kind o)).
  unfold bind at 1. cbn [SimpleSerializer.replacer].
  rewrite bool_decide_eq_false_2 by done.
  unfold bind at 1. unfold deref at 1. rewrite Ho. cbn [ret].
  destruct (kind o) eqn:K; try done; cbn [ret];
    rewrite bool_decide_eq_false_2 by done;
    unfold bind at 1; unfold deref at 1; rewrite Ho; cbn [ret]; by rewrite K.
Qed.

Lemma flat_walk_map fuel (h : gmap nat obj) stack l o entries (seen : gset nat) :
  h !! l = Some o → kind o = CMap entries → l ∉ seen →
  flat_walk (S fuel) h stack (VRef l) seen =
  stringify_enc (flat_walk fuel h stack)
    (EObj [("_type", EStr "Map");
           ("entries", EArr (map (λ kv, EArr [EVal kv.1; EVal kv.2]) entries))])
    ({[ l ]} ∪ seen).
Proof.
  intros Ho Hk Hs. cbn [SerializeJSONProperty]. unfold bind at 1.
  rewrite (flat_toJSON h l o) by (done || by rewrite Hk).
  unfold bind at 1. cbn [SimpleSerializer.replacer].
  rewrite bool_decide_eq_false_2 by done.
  unfold bind at 1. unfold deref at 1. rewrite Ho. cbn [ret]. by rewrite Hk.
Qed.

Lemma flat_walk_set fuel (h : gmap nat obj) stack l o members (seen : gset nat) :
  h !! l = Some o → kind o = CSet members → l ∉ seen →
  flat_walk (S fuel) h stack (VRef l) seen =
  stringify_enc (flat_walk fuel h stack)
    (EObj [("_type", EStr "Set"); ("values", EArr (map EVal members))])
    ({[ l ]} ∪ seen).
Proof.
  intros Ho Hk Hs. cbn [SerializeJSONProperty]. unfold bind at 1.
  rewrite (flat_toJSON h l o) by (done || by rewrite Hk).
  unfold bind at 1. cbn [SimpleSerializer.replacer].
  rewrite bool_decide_eq_false_2 by done.
  unfold bind at 1. unfold deref at 1. rewrite Ho. cbn [ret]. by rewrite Hk.
Qed.

Lemma mapM_map {St A B C} (f : B → M St C) (g : A → B) l :
  mapM f (map g l) = mapM (λ x, f (g x)) l.
Proof. induction l as [|x l IH]; [done|]. cbn [map mapM]. by rewrite IH. Qed.

Lemma stringify_arr {St} (leaf : value → M St (option json)) items c :
  stringify_enc leaf (EArr items) c =
  (let* js := mapM (λ x, let* j := stringify_enc leaf x in ret (default JNull j)) items in
   ret (Some (JArr js))) c.
Proof.
  cbn [stringify_enc].
  set (go := fix go (items : list enc) : M St (list json) := _).
  assert (∀ c, go items c =
               mapM (λ x, let* j := stringify_enc leaf x in ret (default JNull j)) items c)
    as E.
  { induction items as [|x items IH]; intros c'; [done|].
    cbn [mapM].
    assert (go (x :: items) =
            let* j := stringify_enc leaf x in
            let* js := go items in ret (default JNull j :: js)) as -> by done.
    unfold bind. destruct (stringify_enc leaf x c') as [[j| |] c1]; [|done..].
    cbn [ret]. by rewrite IH. }
  unfold bind. by rewrite E.
Qed.

Lemma stringify_tagged {St} (leaf : value → M St (option json)) tag key e c :
  (∀ c, leaf (VStr tag) c = (Ret (Some (JStr tag)), c)) →
  stringify_enc leaf (EObj [("_type", EStr tag); (key, e)]) c =
  (let* j := stringify_enc leaf e in
   ret (Some (JObj (("_type", JStr tag) ::
                    match j with Some j => [(key, j)] | None => [] end)))) c.
Proof.
  intros Hleaf. cbn [stringify_enc]. unfold bind, EStr. cbn [stringify_enc].
  rewrite Hleaf. destruct (stringify_enc leaf e c) as [[[j|]| |] c']; reflexivity.
Qed.

Lemma stringify_pair {St} (leaf : value → M St (option json)) k v c :
  stringify_enc leaf (EArr [EVal k; EVal v]) c =
  (let* jk := leaf k in
   let* jv := leaf v in
   ret (Some (JArr [default JNull jk; default JNull jv]))) c.
Proof.
  cbn [stringify_enc]. unfold bind.
  destruct (leaf k c) as [[jk| |] c1]; [|done..].
  by destruct (leaf v c1) as [[jv| |] c2].
Qed.

Lemma flat_returns_ret (h : gmap nat obj) n stack {A} (a : A) :
  flat_returns h n stack (ret a).
Proof. intros seen _ _. by exists a, seen. Qed.

Lemma flat_returns_ext (h : gmap nat obj) n stack {A} (m m' : M (gset nat) A) :
  (∀ c, m c = m' c) → flat_returns h n stack m' → flat_returns h n stack m.
Proof. intros E Hm seen Hst Hsz. rewrite E. by apply Hm. Qed.

Lemma flat_returns_bind (h : gmap nat obj) n stack {A B}
    (m : M (gset nat) A) (k : A → M (gset nat) B) :
  flat_returns h n stack m → (∀ a, flat_returns h n stack (k a)) →
  flat_returns h n stack (bind m k).
Proof.
  intros Hm Hk seen Hst Hsz.
  destruct (Hm seen Hst Hsz) as (a & seen1 & E & Hsub).
  destruct (Hk a seen1) as (b & seen2 & E2 & Hsub2).
  - intros l Hl. apply Hsub, Hst, Hl.
  - eapply Nat.le_lt_trans; [|exact Hsz]. apply subseteq_size. set_solver.
  - exists b, seen2. unfold bind. rewrite E. split; [done|]. set_solver.
Qed.

Lemma flat_returns_mapM (h : gmap nat obj) n stack {A B} (f : A → M (gset nat) B) l :
  (∀ x, x ∈ l → flat_returns h n stack (f x)) → flat_returns h n stack (mapM f l).
Proof.
  induction l as [|x l IH]; intros Hf; cbn [mapM]; [apply flat_returns_ret|].
  apply flat_returns_bind; [apply Hf; by left|]. intros y.
  apply flat_returns_bind; [apply IH; intros z Hz; apply Hf; by right|].
  intros ys. apply flat_returns_ret.
Qed.

Lemma flat_returns_foldM (h : gmap nat obj) n stack {A B}
    (f : B → A → M (gset nat) B) l b :
  (∀ b x, x ∈ l → flat_returns h n stack (f b x)) → flat_returns h n stack (foldM f b l).
Proof.
  revert b. induction l as [|x l IH]; intros b Hf; cbn [foldM]; [apply flat_returns_ret|].
  apply flat_returns_bind; [apply Hf; by left|]. intros b'.
  apply IH. intros b'' z Hz. apply Hf. by right.
Qed.

Lemma fewer_left (h : gmap nat obj) l (seen : gset nat) n :
  is_Some (h !! l) → l ∉ seen → (size (dom h ∖ seen) < S n)%nat →
  (size (dom h ∖ ({[ l ]} ∪ seen)) < n)%nat.
Proof.
  intros Hl Hs Hsz. apply elem_of_dom in Hl.
  assert (size (dom h ∖ ({[ l ]} ∪ seen)) < size (dom h ∖ seen))%nat; [|lia].
  apply subset_size. split; [set_solver|]. intros Hsub.
  assert (l ∈ dom h ∖ ({[ l ]} ∪ seen)) as Hin by (apply Hsub; set_solver).
  set_solver.
Qed.

(** Every object the walk enters was added to the visited set before, so
    an object on the stack is never entered again; and every level of the
    walk adds an object that was not in the set. *)
Lemma flat_walk_returns (h : gmap nat obj) :
  closed h → no_bigint h → data_properties h →
  ∀ fuel stack v, writable h v → flat_returns h fuel stack (flat_walk fuel h stack v).
Proof.
  intros Hcl Hbig Hdata fuel.
  induction fuel as [|fuel IH]; intros stack v [Hv Hvb] seen Hst Hsz; [lia|].
  destruct v as [| | | |[]| | | | |l]; try discriminate;
    try (eexists _, seen; split; [reflexivity|done]).
  destruct Hv as [o Ho].
  assert (Forall (writable h) (values_of o)) as Hvals
    by (apply Forall_and; split; [by eapply Hcl|by eapply Hbig]).
  unfold values_of in Hvals. apply Forall_app in Hvals as [Hkind Hprops].
  assert ((∃ t, kind o = CDate t) ∨ ∀ t, kind o ≠ CDate t) as [[t Ht]|Hnd']
    by (destruct (kind o); eauto; by right).
  { rewrite (flat_walk_date _ _ _ _ o t) by done. by eexists _, seen. }
  destruct (decide (l ∈ seen)) as [Hin|Hout].
  { rewrite (flat_walk_seen _ _ _ _ o) by done. by eexists _, seen. }
  assert (l ∉ stack) as Hstack by (intros Hl; by apply Hout, Hst).
  assert (∀ l', l' ∈ stack → l' ∈ ({[ l ]} ∪ seen : gset nat)) as Hst1 by set_solver.
  assert (∀ l', l' ∈ l :: stack → l' ∈ ({[ l ]} ∪ seen : gset nat)) as Hst2 by set_solver.
  pose proof (fewer_left h l seen fuel ltac:(eauto) Hout Hsz) as Hsz1.
  assert (∀ A (m : M (gset nat) A) stack',
            (∀ l', l' ∈ stack' → l' ∈ ({[ l ]} ∪ seen : gset nat)) →
            flat_returns h fuel stack' m →
            ∃ a seen', m ({[ l ]} ∪ seen) = (Ret a, seen') ∧ seen ⊆ seen') as Hrun.
  { intros A m stack' Hst' Hm. destruct (Hm _ Hst' Hsz1) as (a & seen' & E & Hsub).
    exists a, seen'. split; [done|]. set_solver. }
  assert (plain_kind (kind o) = true →
          ∃ a seen', flat_walk (S fuel) h stack (VRef l) seen = (Ret a, seen') ∧ seen ⊆ seen')
    as Hobject.
  { intros Hplain. rewrite (flat_walk_record _ _ _ _ o) by done.
    apply (Hrun _ _ (l :: stack) Hst2).
    apply flat_returns_bind; [|intros js; apply flat_returns_ret].
    apply flat_returns_foldM. intros js p Hp.
    apply list_elem_of_filter in Hp as [_ Hp].
    destruct (proj2 (Hdata l o Ho) p Hp) as [x Hx]. rewrite Hx. cbn [lift].
    apply (flat_returns_ext _ _ _ _
             (let* j := flat_walk fuel h (l :: stack) x in
              ret (match j with Some j => js ++ [(pkey p, j)] | None => js end))); [done|].
    apply flat_returns_bind; [|intros j; apply flat_returns_ret].
    apply IH. eapply Forall_forall; [exact Hprops|].
    apply list_elem_of_omap. exists p. split; [apply elem_of_app; by left|by rewrite Hx]. }
  destruct (kind o) as [|elems|t|source flags|entries|members|items] eqn:K;
    try (by apply Hobject).
  - (* an array *)
    rewrite (flat_walk_array _ _ _ _ o elems) by done.
    apply (Hrun _ _ (l :: stack) Hst2).
    apply flat_returns_bind; [|intros js; apply flat_returns_ret].
    apply flat_returns_mapM. intros x Hx.
    apply flat_returns_bind; [|intros j; apply flat_returns_ret].
    apply IH. rewrite Forall_forall in Hkind. by apply Hkind.
  - by destruct (Hnd' t).
  - (* a map *)
    rewrite (flat_walk_map _ _ _ _ o entries) by done.
    apply (Hrun _ _ stack Hst1).
    eapply flat_returns_ext;
      [intros c; apply stringify_tagged; intros c'; by destruct fuel|].
    apply flat_returns_bind; [|intros j; apply flat_returns_ret].
    eapply flat_returns_ext; [intros c; apply stringify_arr|].
    apply flat_returns_bind; [|intros js; apply flat_returns_ret].
    rewrite mapM_map. apply flat_returns_mapM. intros [k v] Hkv.
    apply flat_returns_bind; [|intros j; apply flat_returns_ret].
    eapply flat_returns_ext; [intros c; apply stringify_pair|].
    apply Forall_app in Hkind as [Hks Hvs].
    apply flat_returns_bind.
    + apply IH. eapply Forall_forall; [exact Hks|].
      apply list_elem_of_fmap. by exists (k, v).
    + intros jk. apply flat_returns_bind; [|intros jv; apply flat_returns_ret].
      apply IH. eapply Forall_forall; [exact Hvs|].
      apply list_elem_of_fmap. by exists (k, v).
  - (* a set *)
    rewrite (flat_walk_set _ _ _ _ o members) by done.
    apply (Hrun _ _ stack Hst1).
    eapply flat_returns_ext;
      [intros c; apply stringify_tagged; intros c'; by destruct fuel|].
    apply flat_returns_bind; [|intros j; apply flat_returns_ret].
    eapply flat_returns_ext; [intros c; apply stringify_arr|].
    apply flat_returns_bind; [|intros js; apply flat_returns_ret].
    rewrite mapM_map. apply flat_returns_mapM. intros x Hx.
    apply flat_returns_bind; [|intros j; apply flat_returns_ret].
    apply IH. rewrite Forall_forall in Hkind. by apply Hkind.
Qed.

(** X15. The flat encoder returns on every closed heap, cyclic or not,
    that holds no BigInt, whose objects have no [toJSON] of their own
    making and whose own properties can be read: it never throws
    "Converting circular structure to JSON" and never runs out of depth.
    The root is any value of the heap that is not a BigInt.  (It returns
    [undefined] when the root is [undefined], a function or a symbol.) *)
Theorem flat_encode_returns (h : gmap nat obj) v :
  closed h → no_bigint h → data_properties h → in_heap h v → is_bigint v = false →
  ∃ t, SimpleSerializer.serialize h v = Ret t.
Proof.
  intros Hcl Hbig Hdata Hv Hvb.
  destruct (flat_walk_returns h Hcl Hbig Hdata (S (size h)) [] v (conj Hv Hvb) ∅)
    as (j & seen' & E & _).
  - intros l Hl. by apply elem_of_nil in Hl.
  - apply Nat.lt_succ_r. rewrite <- (size_dom (D := gset nat) h).
    apply subseteq_size. set_solver.
  - exists (JSON_print <$> j). unfold SimpleSerializer.serialize, JSON_stringify.
    cbn [stringify_enc]. unfold bind. by rewrite E.
Qed.

(** ** The flat codec: round trip *)

Lemma internalize_scalar v :
  is_scalar v = true →
  SimpleSerializer.InternalizeJSONProperty (scalar_json v) = Ret (scalar_image v).
Proof. by destruct v. Qed.

Lemma internalize_arr js ds :
  mapo SimpleSerializer.InternalizeJSONProperty js = Ret ds →
  SimpleSerializer.InternalizeJSONProperty (JArr js) = Ret (DArr ds).
Proof. intros E. cbn [SimpleSerializer.InternalizeJSONProperty]. by rewrite E. Qed.

Lemma internalize_obj (js : list (string * json)) ds :
  mapo (λ kv, bindo (SimpleSerializer.InternalizeJSONProperty kv.2) (λ d, Ret (kv.1, d))) js
    = Ret ds →
  assoc_get "_type" ds = None →
  SimpleSerializer.InternalizeJSONProperty (JObj js) = Ret (DObj ds).
Proof.
  intros E Ht. cbn [SimpleSerializer.InternalizeJSONProperty]. rewrite E. cbn [bindo].
  unfold SimpleSerializer.reviver. cbn [SimpleSerializer.is_object SimpleSerializer.dget].
  rewrite Ht. reflexivity.
Qed.

Lemma Map_from_pairs (ds : list (dval * dval)) :
  distinct ds.*1 →
  SimpleSerializer.Map_from (map (λ kd, DArr [kd.1; kd.2]) ds) = inr ds.
Proof.
  intros Hd. unfold SimpleSerializer.Map_from.
  assert (forallb SimpleSerializer.is_object (map (λ kd : dval * dval, DArr [kd.1; kd.2]) ds)
          = true) as ->.
  { apply forallb_forall. intros x Hx. apply in_map_iff in Hx as (kd & <- & _). done. }
  rewrite map_map. rewrite (map_ext _ (λ x, x)) by (by intros []).
  rewrite map_id. by rewrite Map_new_distinct.
Qed.

Lemma internalize_map (jpairs : list json) (ds : list (dval * dval)) :
  mapo SimpleSerializer.InternalizeJSONProperty jpairs
    = Ret (map (λ kd, DArr [kd.1; kd.2]) ds) →
  distinct ds.*1 →
  SimpleSerializer.InternalizeJSONProperty
    (JObj [("_type", JStr "Map"); ("entries", JArr jpairs)]) = Ret (DMap ds).
Proof.
  intros E Hd. cbn [SimpleSerializer.InternalizeJSONProperty mapo bindo fst snd raw].
  rewrite E. cbn [bindo]. unfold SimpleSerializer.reviver at 1 2. cbn [SimpleSerializer.is_object bindo].
  unfold SimpleSerializer.reviver.
  cbn [SimpleSerializer.is_object SimpleSerializer.dget assoc_get String.eqb Ascii.eqb
       Bool.eqb default SimpleSerializer.is_string_of SimpleSerializer.array_items fst snd].
  cbn. by rewrite Map_from_pairs.
Qed.

Lemma internalize_set (js : list json) (ds : list dval) :
  mapo SimpleSerializer.InternalizeJSONProperty js = Ret ds →
  distinct ds →
  SimpleSerializer.InternalizeJSONProperty
    (JObj [("_type", JStr "Set"); ("values", JArr js)]) = Ret (DSet ds).
Proof.
  intros E Hd. cbn [SimpleSerializer.InternalizeJSONProperty mapo bindo fst snd raw].
  rewrite E. cbn [bindo]. unfold SimpleSerializer.reviver at 1 2.
  cbn [SimpleSerializer.is_object bindo].
  unfold SimpleSerializer.reviver. cbn. by rewrite Set_new_distinct.
Qed.

Lemma FlatProps_keys (h : gmap nat obj) ps ds L :
  FlatProps h ps ds L → ∀ k, k ∈ ds.*1 → k ∈ pkey <$> ps.
Proof.
  induction 1 as [|k v d L ps ds Ls _ _ IH|p ps ds Ls _ _ IH|k v ps ds Ls _ _ IH];
    intros k' Hk'; [by apply elem_of_nil in Hk'| | |].
  - rewrite fmap_cons in Hk'. apply elem_of_cons in Hk' as [->|Hk']; [by left|].
    right. by apply IH.
  - right. by apply IH.
  - right. by apply IH.
Qed.

(** The walk over a tree returns, adds the objects of the tree to the
    visited set and no others, and what it writes revives as the tree's
    image. *)
Lemma flat_encode_tree (h : gmap nat obj) :
  (∀ v d L, FlatTree h v d L →
     ∀ fuel stack (seen : gset nat), (length L ≤ fuel)%nat → NoDup L →
       (∀ l, l ∈ L → l ∉ seen) → (∀ l, l ∈ stack → l ∈ seen) →
     ∃ j seen', flat_walk fuel h stack v seen = (Ret (Some j), seen') ∧
                seen' = list_to_set L ∪ seen ∧
                SimpleSerializer.InternalizeJSONProperty j = Ret d) ∧
  (∀ vs ds L, FlatTrees h vs ds L →
     ∀ fuel stack (seen : gset nat), (length L ≤ fuel)%nat → NoDup L →
       (∀ l, l ∈ L → l ∉ seen) → (∀ l, l ∈ stack → l ∈ seen) →
     ∃ js seen',
       mapM (λ x, let* j := flat_walk fuel h stack x in ret (default JNull j)) vs seen
         = (Ret js, seen') ∧
       seen' = list_to_set L ∪ seen ∧
       mapo SimpleSerializer.InternalizeJSONProperty js = Ret ds) ∧
  (∀ es ds L, FlatEntries h es ds L →
     ∀ fuel stack (seen : gset nat), (length L ≤ fuel)%nat → NoDup L →
       (∀ l, l ∈ L → l ∉ seen) → (∀ l, l ∈ stack → l ∈ seen) →
     ∃ js seen',
       mapM (λ kv, let* j := stringify_enc (flat_walk fuel h stack)
                               (EArr [EVal kv.1; EVal kv.2]) in
                   ret (default JNull j)) es seen
         = (Ret js, seen') ∧
       seen' = list_to_set L ∪ seen ∧
       mapo SimpleSerializer.InternalizeJSONProperty js
         = Ret (map (λ kd, DArr [kd.1; kd.2]) ds)) ∧
  (∀ ps ds L, FlatProps h ps ds L →
     ∀ fuel stack (seen : gset nat) acc, (length L ≤ fuel)%nat → NoDup L →
       (∀ l, l ∈ L → l ∉ seen) → (∀ l, l ∈ stack → l ∈ seen) →
     ∃ js seen',
       foldM (λ js p,
                let* x := lift (pread p) in
                let* j := flat_walk fuel h stack x in
                ret (match j with Some j => js ++ [(pkey p, j)] | None => js end))
             acc (filter (λ p, penum p = true) ps) seen
         = (Ret (acc ++ js), seen') ∧
       seen' = list_to_set L ∪ seen ∧
       mapo (λ kv, bindo (SimpleSerializer.InternalizeJSONProperty kv.2)
                         (λ d, Ret (kv.1, d))) js = Ret ds).
Proof.
  apply FlatTree_mutind.
  - intros fuel stack seen _ _ _ _. exists JNull, seen.
    split; [by apply (flat_walk_scalar _ _ _ VNull)|]. split; [set_solver|done].
  - intros b fuel stack seen _ _ _ _. exists (JBool b), seen.
    split; [by apply (flat_walk_scalar _ _ _ (VBool b))|]. split; [set_solver|done].
  - intros n fuel stack seen _ _ _ _. exists (JNum n), seen.
    split; [by apply (flat_walk_scalar _ _ _ (VNum n))|]. split; [set_solver|done].
  - intros s fuel stack seen _ _ _ _. exists (JStr s), seen.
    split; [by apply (flat_walk_scalar _ _ _ (VStr s))|]. split; [set_solver|done].
  - intros x fuel stack seen _ _ _ _. exists (element_json (VSpecial x)), seen.
    split; [by apply flat_walk_special|]. split; [set_solver|by destruct x].
  - (* a date *)
    intros l o ms Ho Hk _ fuel stack seen _ _ _ _. eexists _, seen.
    split; [by apply (flat_walk_date _ _ _ _ o (Some ms))|]. split; [set_solver|done].
  - intros l o Ho Hk _ fuel stack seen _ _ _ _. eexists _, seen.
    split; [by apply (flat_walk_date _ _ _ _ o None)|]. split; [set_solver|done].
  - (* a map *)
    intros l o entries ds L Ho Hk _ Hdist _ IH fuel stack seen Hlen Hnd Hdisj Hstack.
    destruct fuel as [|fuel]; [cbn in Hlen; lia|].
    apply NoDup_cons in Hnd as [Hl Hnd].
    destruct (IH fuel stack ({[ l ]} ∪ seen)) as (js & seen' & E & Hs & Hi);
      [cbn in Hlen; lia|done|set_solver|set_solver|].
    exists (JObj [("_type", JStr "Map"); ("entries", JArr js)]), seen'.
    split; [|split; [set_solver|by apply internalize_map]].
    rewrite (flat_walk_map _ _ _ _ o entries) by (done || set_solver).
    rewrite stringify_tagged by (intros c; by destruct fuel).
    unfold bind. rewrite stringify_arr. rewrite mapM_map.
    unfold bind in E |- *. cbn beta. by rewrite E.
  - (* a set *)
    intros l o members ds L Ho Hk _ Hdist _ IH fuel stack seen Hlen Hnd Hdisj Hstack.
    destruct fuel as [|fuel]; [cbn in Hlen; lia|].
    apply NoDup_cons in Hnd as [Hl Hnd].
    destruct (IH fuel stack ({[ l ]} ∪ seen)) as (js & seen' & E & Hs & Hi);
      [cbn in Hlen; lia|done|set_solver|set_solver|].
    exists (JObj [("_type", JStr "Set"); ("values", JArr js)]), seen'.
    split; [|split; [set_solver|by apply internalize_set]].
    rewrite (flat_walk_set _ _ _ _ o members) by (done || set_solver).
    rewrite stringify_tagged by (intros c; by destruct fuel).
    unfold bind. rewrite stringify_arr. rewrite mapM_map.
    unfold bind in E |- *. cbn [stringify_enc]. by rewrite E.
  - (* an array *)
    intros l o elems ds L Ho Hk _ _ IH fuel stack seen Hlen Hnd Hdisj Hstack.
    destruct fuel as [|fuel]; [cbn in Hlen; lia|].
    apply NoDup_cons in Hnd as [Hl Hnd].
    destruct (IH fuel (l :: stack) ({[ l ]} ∪ seen)) as (js & seen' & E & Hs & Hi);
      [cbn in Hlen; lia|done|set_solver|set_solver|].
    exists (JArr js), seen'.
    split; [|split; [set_solver|by apply internalize_arr]].
    rewrite (flat_walk_array _ _ _ _ o elems); [|done|done|set_solver|].
    + unfold bind in E |- *. by rewrite E.
    + intros Hin. apply Hstack in Hin. set_solver.
  - (* a record *)
    intros l o ds L Ho Hk _ Htype HP IH fuel stack seen Hlen Hnd Hdisj Hstack.
    destruct fuel as [|fuel]; [cbn in Hlen; lia|].
    apply NoDup_cons in Hnd as [Hl Hnd].
    destruct (IH fuel (l :: stack) ({[ l ]} ∪ seen) []) as (js & seen' & E & Hs & Hi);
      [cbn in Hlen; lia|done|set_solver|set_solver|].
    exists (JObj js), seen'.
    split; [|split; [set_solver|]].
    + rewrite (flat_walk_record _ _ _ _ o); [|done|by rewrite Hk|set_solver|].
      * unfold bind in E |- *. by rewrite E.
      * intros Hin. apply Hstack in Hin. set_solver.
    + apply internalize_obj; [done|]. apply assoc_get_None. intros Hin.
      apply Htype. by eapply FlatProps_keys.
  - (* elements *)
    intros fuel stack seen _ _ _ _. exists [], seen. split; [done|]. split; [set_solver|done].
  - intros v d L vs ds Ls _ IH1 _ IH2 fuel stack seen Hlen Hnd Hdisj Hstack.
    rewrite length_app in Hlen. apply NoDup_app in Hnd as (Hnd1 & Hsep & Hnd2).
    destruct (IH1 fuel stack seen) as (j & seen1 & E1 & Hs1 & Hi1);
      [lia|done|set_solver|done|].
    destruct (IH2 fuel stack seen1) as (js & seen2 & E2 & Hs2 & Hi2);
      [lia|done|set_solver|set_solver|].
    exists (j :: js), seen2. split; [|split; [set_solver|]].
    + cbn [mapM]. unfold bind in E2 |- *. rewrite E1. cbn [ret default]. by rewrite E2.
    + cbn [mapo]. rewrite Hi1. cbn [bindo]. by rewrite Hi2.
  - (* entries *)
    intros fuel stack seen _ _ _ _. exists [], seen. split; [done|]. split; [set_solver|done].
  - intros k v dk dv Lk Lv es ds Ls _ IHk _ IHv _ IH fuel stack seen Hlen Hnd Hdisj Hstack.
    rewrite !length_app in Hlen.
    apply NoDup_app in Hnd as (Hndk & Hsepk & Hnd).
    apply NoDup_app in Hnd as (Hndv & Hsepv & Hnd).
    destruct (IHk fuel stack seen) as (jk & seen1 & E1 & Hs1 & Hi1);
      [lia|done|set_solver|done|].
    destruct (IHv fuel stack seen1) as (jv & seen2 & E2 & Hs2 & Hi2);
      [lia|done|set_solver|set_solver|].
    destruct (IH fuel stack seen2) as (js & seen3 & E3 & Hs3 & Hi3);
      [lia|done|set_solver|set_solver|].
    exists (JArr [jk; jv] :: js), seen3. split; [|split; [set_solver|]].
    + cbn [mapM fst snd]. unfold bind in E3 |- *. rewrite stringify_pair.
      unfold bind. rewrite E1, E2. cbn [ret default]. by rewrite E3.
    + cbn [mapo map fst snd]. cbn [SimpleSerializer.InternalizeJSONProperty mapo].
      rewrite Hi1. cbn [bindo]. rewrite Hi2. cbn [bindo].
      unfold SimpleSerializer.reviver at 1. cbn. by rewrite Hi3.
  - (* properties *)
    intros fuel stack seen acc _ _ _ _. exists [], seen.
    split; [by rewrite app_nil_r|]. split; [set_solver|done].
  - intros k v d L ps ds Ls _ IH1 _ IH2 fuel stack seen acc Hlen Hnd Hdisj Hstack.
    rewrite length_app in Hlen. apply NoDup_app in Hnd as (Hnd1 & Hsep & Hnd2).
    destruct (IH1 fuel stack seen) as (j & seen1 & E1 & Hs1 & Hi1);
      [lia|done|set_solver|done|].
    destruct (IH2 fuel stack seen1 (acc ++ [(k, j)])) as (js & seen2 & E2 & Hs2 & Hi2);
      [lia|done|set_solver|set_solver|].
    exists ((k, j) :: js), seen2. split; [|split; [set_solver|]].
    + rewrite filter_cons_True by done. cbn [foldM].
      assert ((let* x := lift (pread (field k v)) in
               let* j := flat_walk fuel h stack x in
               ret (match j with
                    | Some j => acc ++ [(pkey (field k v), j)]
                    | None => acc
                    end)) seen = (Ret (acc ++ [(k, j)]), seen1)) as Hstep.
      { cbn [lift field pread pkey]. unfold bind, ret. by rewrite E1. }
      rewrite (bind_eval _ _ _ _ _ Hstep). rewrite E2. by rewrite <- app_assoc.
    + cbn [mapo fst snd]. rewrite Hi1. cbn [bindo]. by rewrite Hi2.
  - intros p ps ds Ls Hp _ IH fuel stack seen acc Hlen Hnd Hdisj Hstack.
    rewrite filter_cons_False by (by rewrite Hp). by apply IH.
  - intros k v ps ds Ls Hv _ IH fuel stack seen acc Hlen Hnd Hdisj Hstack.
    destruct (IH fuel stack seen acc) as (js & seen2 & E2 & Hs2 & Hi2); [done..|].
    exists js, seen2. split; [|done].
    rewrite filter_cons_True by done. cbn [foldM].
    assert ((let* x := lift (pread (field k v)) in
             let* j := flat_walk fuel h stack x in
             ret (match j with
                  | Some j => acc ++ [(pkey (field k v), j)]
                  | None => acc
                  end)) seen = (Ret acc, seen)) as Hstep.
    { cbn [lift field pread pkey]. unfold bind, ret.
      by rewrite (flat_walk_absent _ _ _ v). }
    by rewrite (bind_eval _ _ _ _ _ Hstep).
Qed.

Lemma FlatTree_in_heap (h : gmap nat obj) :
  (∀ v d L, FlatTree h v d L → ∀ l, l ∈ L → is_Some (h !! l)) ∧
  (∀ vs ds L, FlatTrees h vs ds L → ∀ l, l ∈ L → is_Some (h !! l)) ∧
  (∀ es ds L, FlatEntries h es ds L → ∀ l, l ∈ L → is_Some (h !! l)) ∧
  (∀ ps ds L, FlatProps h ps ds L → ∀ l, l ∈ L → is_Some (h !! l)).
Proof.
  apply FlatTree_mutind; intros;
    repeat match goal with
           | H : _ ∈ [] |- _ => by apply elem_of_nil in H
           | H : _ ∈ _ :: _ |- _ => apply elem_of_cons in H as [->|H]
           | H : _ ∈ _ ++ _ |- _ => apply elem_of_app in H as [H|H]
           end; eauto.
Qed.

Lemma flat_footprint_fits (h : gmap nat obj) v d L :
  FlatTree h v d L → NoDup L → (length L ≤ size h)%nat.
Proof.
  intros HT Hnd. rewrite <- size_dom. unfold size, set_size. cbn.
  apply submseteq_length, NoDup_submseteq; [done|].
  intros l Hl. apply elem_of_elements, elem_of_dom.
  by eapply (proj1 (FlatTree_in_heap h)).
Qed.

(** X16. The flat round trip on a value in which no object other than a
    date is reached twice: decode gives back [null], the booleans, the
    integers and the strings of the value, [null] for [NaN] and the
    infinities and [0] for [-0], its arrays, maps, sets and records, a
    date as its ISO string, an invalid date as [null], and a record without
    its properties that are not enumerable or hold [undefined], a function
    or a symbol. *)
Theorem flat_round_trip (h : gmap nat obj) v d L :
  FlatTree h v d L → NoDup L →
  ∃ t, SimpleSerializer.serialize h v = Ret (Some t) ∧
       SimpleSerializer.deserialize t = Ret d.
Proof.
  intros HT Hnd.
  destruct (proj1 (flat_encode_tree h) v d L HT (S (size h)) [] ∅)
    as (j & seen' & E & _ & Hi).
  - pose proof (flat_footprint_fits h v d L HT Hnd). lia.
  - done.
  - set_solver.
  - intros l Hl. by apply elem_of_nil in Hl.
  - exists (JSON_print j). split.
    + unfold SimpleSerializer.serialize, JSON_stringify. cbn [stringify_enc].
      unfold bind. by rewrite E.
    + unfold SimpleSerializer.deserialize. rewrite JSON_parse_print. exact Hi.
Qed.

Lemma FlatTree_root (h : gmap nat obj) l d L :
  FlatTree h (VRef l) d L → L ≠ [] →
  ∃ o L', h !! l = Some o ∧ (∀ t, kind o ≠ CDate t) ∧ L = l :: L'.
Proof.
  inversion 1; subst; try done; intros _; eexists _, _;
    (split; [done|]); (split; [|done]); intros t; congruence.
Qed.

(** X17. The flat codec on sharing without a cycle: in an array that holds
    the same object twice, the second occurrence comes back as the string
    "[Circular]". *)
Theorem flat_second_occurrence_is_the_sentinel (h : gmap nat obj) la oa lx d L :
  h !! la = Some oa → kind oa = CArray [VRef lx; VRef lx] →
  FlatTree h (VRef lx) d L → L ≠ [] → NoDup L → la ∉ L →
  ∃ t, SimpleSerializer.serialize h (VRef la) = Ret (Some t) ∧
       SimpleSerializer.deserialize t = Ret (DArr [d; DStr "[Circular]"]).
Proof.
  intros Hoa Hk HT Hne Hnd Hla.
  destruct (FlatTree_root h lx d L HT Hne) as (ox & L' & Hox & Hkx & ->).
  pose proof (flat_footprint_fits h _ _ _ HT Hnd) as Hfit.
  destruct (size h) as [|n] eqn:Hn; [cbn in Hfit; lia|].
  destruct (proj1 (flat_encode_tree h) _ _ _ HT (S n) [la] ({[ la ]} ∪ ∅))
    as (j & seen' & E & Hs & Hi); [done|done|set_solver|set_solver|].
  exists (JSON_print (JArr [j; JStr "[Circular]"])). split.
  - unfold SimpleSerializer.serialize, JSON_stringify. cbn [stringify_enc].
    rewrite Hn. unfold bind at 1.
    rewrite (flat_walk_array _ _ _ _ oa [VRef lx; VRef lx]);
      [|done|done|set_solver|by apply not_elem_of_nil].
    cbn [mapM]. unfold bind. rewrite E. cbn [ret default].
    rewrite (flat_walk_seen _ _ _ _ ox); [done|done|done|].
    rewrite Hs. set_solver.
  - unfold SimpleSerializer.deserialize. rewrite JSON_parse_print.
    cbn [lifto bindo SimpleSerializer.InternalizeJSONProperty mapo].
    rewrite Hi. reflexivity.
Qed.

Lemma flat_props_fit (h : gmap nat obj) l ps ds L :
  is_Some (h !! l) → FlatProps h ps ds L → NoDup (l :: L) → (length L < size h)%nat.
Proof.
  intros Hl HP Hnd. rewrite <- size_dom. unfold size, set_size. cbn.
  apply (submseteq_length (l :: L)), NoDup_submseteq; [done|].
  intros l' [->|Hl']%elem_of_cons; apply elem_of_elements, elem_of_dom; [done|].
  by eapply (proj2 (proj2 (proj2 (FlatTree_in_heap h)))).
Qed.

(** X18. The flat decoder goes by the shape: a plain object whose
    [_type] is ["Date"] and whose [value] is a string comes back as a
    [Date], whatever else it holds. *)
Theorem flat_look_alike_is_revived (h : gmap nat obj) l o ds L s :
  h !! l = Some o → kind o = CObject → no_toJSON o →
  FlatProps h (own o) ds L → NoDup (l :: L) →
  assoc_get "_type" ds = Some (DStr "Date") → assoc_get "value" ds = Some (DStr s) →
  ∃ t, SimpleSerializer.serialize h (VRef l) = Ret (Some t) ∧
       SimpleSerializer.deserialize t = Ret (DDate (Date_new (JStr s))).
Proof.
  intros Ho Hk _ HP Hnd Htype Hvalue.
  pose proof (flat_props_fit h l _ _ _ ltac:(eauto) HP Hnd) as Hfit.
  apply NoDup_cons in Hnd as [Hl Hnd].
  destruct (size h) as [|n] eqn:Hn; [lia|].
  destruct (proj2 (proj2 (proj2 (flat_encode_tree h))) _ _ _ HP
              (S n) [l] ({[ l ]} ∪ ∅) [])
    as (js & seen' & E & _ & Hi); [lia|done|set_solver|set_solver|].
  exists (JSON_print (JObj js)). split.
  - unfold SimpleSerializer.serialize, JSON_stringify. cbn [stringify_enc].
    rewrite Hn. unfold bind at 1.
    rewrite (flat_walk_record _ _ _ _ o);
      [|done|by rewrite Hk|set_solver|by apply not_elem_of_nil].
    unfold bind in E |- *. by rewrite E.
  - unfold SimpleSerializer.deserialize. rewrite JSON_parse_print.
    cbn [lifto bindo SimpleSerializer.InternalizeJSONProperty]. rewrite Hi. cbn [bindo].
    unfold SimpleSerializer.reviver.
    cbn [SimpleSerializer.is_object SimpleSerializer.dget]. by rewrite Htype, Hvalue.
Qed.

(** ** The flat decoder *)

Lemma internalize_untagged : ∀ j,
  untagged j = true → SimpleSerializer.InternalizeJSONProperty j = Ret (raw j).
Proof.
  fix IH 1. intros [| | | | items | entries] Hu; try reflexivity.
  - apply internalize_arr. cbn [untagged] in Hu.
    induction items as [|j items IHi]; [done|].
    cbn [forallb] in Hu. apply andb_true_iff in Hu as [Hj Hu].
    cbn [mapo map]. rewrite (IH j Hj). cbn [bindo]. by rewrite (IHi Hu).
  - cbn [untagged] in Hu. apply andb_true_iff in Hu as [Ht Hu].
    apply negb_true_iff, bool_decide_eq_false in Ht.
    apply internalize_obj.
    + clear Ht. induction entries as [|[k j] entries IHe]; [done|].
      cbn [forallb snd] in Hu. apply andb_true_iff in Hu as [Hj Hu].
      cbn [mapo map fst snd]. rewrite (IH j Hj). cbn [bindo]. by rewrite (IHe Hu).
    + apply assoc_get_None. intros Hin. apply Ht.
      rewrite <- list_fmap_compose in Hin. exact Hin.
Qed.

(** X19. A text in which no object has a [_type] is decoded to what was
    parsed, unchanged. *)
Theorem flat_plain_data_passes_through (j : json) :
  untagged j = true → SimpleSerializer.deserialize (JSON_print j) = Ret (raw j).
Proof.
  intros Hu. unfold SimpleSerializer.deserialize. rewrite JSON_parse_print.
  by apply internalize_untagged.
Qed.

Lemma reviver_refuses d : returns_or_refuses (SimpleSerializer.reviver d).
Proof.
  unfold SimpleSerializer.reviver.
  destruct (SimpleSerializer.is_object d); [|done].
  destruct (SimpleSerializer.is_string_of _ "Map"),
           (SimpleSerializer.array_items (SimpleSerializer.dget d "entries"));
    try (unfold SimpleSerializer.Map_from; by destruct (forallb _ _));
    destruct (SimpleSerializer.is_string_of _ "Set"),
             (SimpleSerializer.array_items (SimpleSerializer.dget d "values"));
    try done;
    destruct (SimpleSerializer.is_string_of _ "Date"); try done;
    by destruct (SimpleSerializer.dget d "value").
Qed.

Lemma bindo_refuses {A B} (m : outcome A) (k : A → outcome B) :
  returns_or_refuses m → (∀ a, returns_or_refuses (k a)) → returns_or_refuses (bindo m k).
Proof. destruct m; cbn; auto. Qed.

Lemma mapo_refuses {A B} (f : A → outcome B) l :
  Forall (λ x, returns_or_refuses (f x)) l → returns_or_refuses (mapo f l).
Proof.
  induction 1 as [|x l Hx _ IH]; [done|]. cbn [mapo].
  apply bindo_refuses; [done|]. intros y. by apply bindo_refuses.
Qed.

Lemma internalize_refuses : ∀ j,
  returns_or_refuses (SimpleSerializer.InternalizeJSONProperty j).
Proof.
  fix IH 1. intros [| | | | items | entries]; try apply reviver_refuses.
  - cbn [SimpleSerializer.InternalizeJSONProperty].
    apply bindo_refuses; [|intros ds; apply reviver_refuses].
    apply mapo_refuses. induction items as [|j items IHi]; constructor; [apply IH|done].
  - cbn [SimpleSerializer.InternalizeJSONProperty].
    apply bindo_refuses; [|intros ds; apply reviver_refuses].
    apply mapo_refuses. induction entries as [|[k j] entries IHe]; constructor; [|done].
    apply bindo_refuses; [apply IH|done].
Qed.

(** X20. The flat decoder has a result on every text, and it fails in two
    ways only: with the parser's error, as it is (nothing wraps it), or
    with the [TypeError] of [new Map] at an entry that is not an
    object. *)
Theorem flat_decode_failures (t : text) :
  match SimpleSerializer.deserialize t with
  | Ret _ => True
  | Throw e => JSON_parse t = inl e ∨ e = refusal
  | Stuck => False
  end.
Proof.
  unfold SimpleSerializer.deserialize. destruct (JSON_parse t) as [e|j]; cbn; [by left|].
  pose proof (internalize_refuses j) as Hj.
  destruct (SimpleSerializer.InternalizeJSONProperty j); [done|by right|done].
Qed.


End Properties.

(** * The statements at concrete inputs *)

Section Instances.
Import CacheSerializer.
#[local] Existing Instance tree_host.


(** Encode, then decode, on the self-referential object: the reference
    comes back as [null]. *)
Example self_reference_comes_back_null :
  ∃ t, serialize self_reference (VRef 0) = Ret t ∧
       deserialize t = Ret (DObj [("self", DNull)]).
Proof. eexists. split; reflexivity. Qed.

(** The version gate on the spec's two examples: a document of version 2,
    and a text that is not JSON. *)
Lemma deserialize_rejects_witness :
  deserialize (H := tree_host)
    (Some (JObj [("version", JNum 2); ("data", JNull); ("refs", JArr [])])) =
    Throw (Error "Failed to deserialize cache: Error: Unsupported cache version") ∧
  deserialize (H := tree_host) None =
    Throw (Error "Failed to deserialize cache: SyntaxError: Unexpected token").
Proof.
  split.
  - destruct (proj2 (deserialize_rejects (H := tree_host)
        (Some (JObj [("version", JNum 2); ("data", JNull); ("refs", JArr [])])))
        _ eq_refl) as (cause & E & Hc); [discriminate|].
    rewrite E, Hc by discriminate. reflexivity.
  - apply (proj1 (deserialize_rejects (H := tree_host) None) _ eq_refl).
Defined.

Lemma parse_node_encoded_as_text_range_witness :
  _isParseNode (plain [field "nodeType" (VNum 3); field "id" (VNum 7);
                       field "start" (VNum 0); field "length" (VNum 5)]) = inr true ∧
  _serializeValue 1 parse_node (VRef 0) fresh_context =
  (Ret (EObj [(TYPE_MARKERS.TextRange, EObj [("start", ENum 0); ("length", ENum 5)])]),
   marked 0 fresh_context).
Proof.
  apply (parse_node_encoded_as_text_range 0 parse_node 0
           (plain [field "nodeType" (VNum 3); field "id" (VNum 7);
                   field "start" (VNum 0); field "length" (VNum 5)]));
    reflexivity.
Defined.

Lemma flat_date_is_a_plain_string_witness :
  SimpleSerializer.serialize (one_date 0) (VRef 0) =
  Ret (Some (Some (JStr "1970-01-01T00:00:00.000Z"))).
Proof.
  exact (flat_date_is_a_plain_string (H := tree_host) (one_date 0) 0
           (mkObj (CDate (Some 0%Z)) [] []) 0 eq_refl eq_refl).
Defined.

Lemma text_range_test_comes_first_witness :
  _serializeValue 1 record_with_range_fields (VRef 0) fresh_context =
  (Ret (EObj [(TYPE_MARKERS.TextRange, EObj [("start", ENum 1); ("length", ENum 2)])]),
   marked 0 fresh_context).
Proof.
  apply (proj1 text_range_test_comes_first 0 record_with_range_fields 0
           (plain [field "label" (VStr "x"); field "start" (VNum 1);
                   field "length" (VNum 2)]) _ (VNum 1) (VNum 2));
    reflexivity.
Defined.

(** Against C10 as it is stated: a [Set] with a numeric [start] and
    [length] is encoded as a set. *)
Lemma set_with_range_fields_is_a_set :
  ∃ o, set_with_range_fields !! 0 = Some o ∧
       get o "start" = inr (VNum 0) ∧ get o "length" = inr (VNum 1) ∧
       (_serializeValue 1 set_with_range_fields (VRef 0) fresh_context).1 =
       Ret (EObj [(TYPE_MARKERS.Set_, EArr [])]).
Proof. eexists. repeat split; reflexivity. Qed.

Lemma identity_assigned_once_witness :
  ∃ r c',
    _serializeValue 2 self_reference (VRef 0) fresh_context = (r, c') ∧
    ctx_grows fresh_context c' ∧ ctx_ok c' ∧ seen c' !! 0 = Some 0 ∧
    _serializeValue 1 self_reference (VRef 0) c' =
      (Ret (EObj [(TYPE_MARKERS.Circular, ENum 0)]), c').
Proof.
  eexists _, _. split; [reflexivity|].
  destruct (identity_assigned_once 1 self_reference (VRef 0) fresh_context _ _ eq_refl)
    as (Hg & Hok & Hv).
  split; [exact Hg|]. split.
  - apply Hok. split; intros ? ?; vm_compute; discriminate.
  - split; [exact (Hv 0 eq_refl)|]. reflexivity.
Defined.

Lemma encode_terminates_witness :
  closed self_reference ∧
  (_serializeValue 2 self_reference (VRef 0) fresh_context).1 ≠ Stuck.
Proof.
  assert (closed self_reference) as Hcl.
  { intros l o Ho. unfold self_reference in Ho.
    apply lookup_singleton_Some in Ho as [<- <-]. repeat constructor. cbn.
    exists (plain [field "self" (VRef 0)]). reflexivity. }
  split; [exact Hcl|].
  apply (proj1 encode_terminates self_reference (VRef 0) fresh_context Hcl).
  exists (plain [field "self" (VRef 0)]). reflexivity.
Defined.

Lemma record_encoding_witness :
  _serializeValue 1 awkward_record (VRef 0) fresh_context =
    (Ret (EObj [("x", ENum 1); ("y", EStr "s")]), marked 0 fresh_context) ∧
  ∃ t, serialize awkward_record (VRef 0) = Ret t.
Proof.
  destruct (record_encoding awkward_record 0
              (mkObj CObject
                 [field "x" (VNum 1); field "f" VFun;
                  mkProp "g" true (inl (Error "boom")); field "y" (VStr "s");
                  mkProp "hidden" false (inr (VNum 2))]
                 [field "inherited" (VNum 3)])) as [Hwalk Hcaller];
    [reflexivity|repeat split; reflexivity|].
  split.
  - destruct (Hwalk 0%nat fresh_context eq_refl) as (E & _). rewrite E. reflexivity.
  - apply Hcaller.
    + intros l o Ho. unfold awkward_record in Ho.
      apply lookup_singleton_Some in Ho as [<- <-]. by repeat constructor.
    + intros l o v Ho Hd. unfold awkward_record in Ho.
      apply lookup_singleton_Some in Ho as [<- <-]. discriminate.
    + intros l o Ho. unfold awkward_record in Ho.
      apply lookup_singleton_Some in Ho as [<- <-]. by repeat constructor.
Defined.

(** Against C6 as it is stated, two records.  The first has a [start]
    whose getter raises: the text-range test reads it outside the [try],
    and encode throws what the getter threw.  The second holds a
    diagnostic whose category is the diagnostic itself: the walk returns,
    and encode throws in the host's [JSON.stringify]. *)
Lemma record_failure_reaches_the_caller :
  (∃ o, record_with_throwing_start !! 0 = Some o ∧ kind o = CObject ∧
        _isDiagnostic o = false ∧
        "start" ∈ own_enumerable_keys o ∧ get o "start" = inl (Error "boom") ∧
        serialize record_with_throwing_start (VRef 0) = Throw (Error "boom")) ∧
  (∃ o e c, record_with_cyclic_diagnostic !! 0 = Some o ∧ is_record o ∧
        _serializeValue 3 record_with_cyclic_diagnostic (VRef 0) fresh_context =
          (Ret e, c) ∧
        serialize record_with_cyclic_diagnostic (VRef 0) =
          Throw (TypeError "Converting circular structure to JSON")).
Proof.
  split.
  - eexists. split; [reflexivity|]. split; [reflexivity|]. split; [reflexivity|].
    split; [apply (bool_decide_unpack _); vm_compute; exact I|].
    split; reflexivity.
  - eexists _, _, _. split; [reflexivity|].
    split; [repeat split; reflexivity|]. split; reflexivity.
Qed.


Ltac side :=
  first
    [ reflexivity
    | vm_compute; reflexivity
    | unfold bare; reflexivity
    | (split; [|split]; reflexivity)
    | (apply (bool_decide_unpack _); vm_compute; exact I) ].

Ltac tree :=
  lazymatch goal with
  | |- Tree _ VNull _ _ => apply T_null
  | |- Tree _ (VBool _) _ _ => apply T_bool
  | |- Tree _ (VNum _) _ _ => apply T_num
  | |- Tree _ (VStr _) _ _ => apply T_str
  | |- Tree _ (VRef _) (DDate _) _ => eapply T_date; side
  | |- Tree _ (VRef _) (DRegExp _ _) _ => eapply T_regexp; side
  | |- Tree _ (VRef _) (DMap _) _ => eapply T_map; [side..|tree]
  | |- Tree _ (VRef _) (DSet _) _ => eapply T_set; [side..|tree]
  | |- Tree _ (VRef _) (DTextRangeCollection _) _ =>
      eapply T_range_collection; [side..|tree]
  | |- Tree _ (VRef _) (DArr _) _ => eapply T_array; [side..|tree]
  | |- Tree _ (VRef _) (DObj _) _ =>
      first [ solve [eapply T_text_range; side]
            | solve [eapply T_diagnostic; [side..|tree]]
            | (eapply T_record; [side..|cbn [own plain]; tree]) ]
  | |- Trees _ [] _ _ => apply Ts_nil
  | |- Trees _ (_ :: _) _ _ => eapply Ts_cons; tree
  | |- TreeEntries _ [] _ _ => apply Te_nil
  | |- TreeEntries _ (_ :: _) _ _ => eapply Te_cons; tree
  | |- TreeProps _ [] _ _ => apply Tp_nil
  | |- TreeProps _ (_ :: _) _ _ => eapply Tp_cons; tree
  end.



Lemma diagnostic_keeps_three_fields_witness :
  ∃ t, serialize diagnostic (VRef 0) = Ret t ∧
       deserialize t =
       Ret (DObj [("category", DNum 1); ("message", DStr "undefined name");
                  ("range",
                   DObj [("start", DObj [("line", DNum 4); ("character", DNum 0)]);
                         ("end", DObj [("line", DNum 4); ("character", DNum 9)])])]).
Proof.
  assert (∃ L, Tree diagnostic (VRef 1)
                 (DObj [("start", DObj [("line", DNum 4); ("character", DNum 0)]);
                        ("end", DObj [("line", DNum 4); ("character", DNum 9)])]) L ∧
               NoDup (0 :: L)) as (L & HT & Hnd).
  { eexists. split; [tree|]. apply (bool_decide_unpack _). vm_compute. exact I. }
  apply (diagnostic_keeps_three_fields diagnostic 0
           (plain [field "category" (VNum 1); field "message" (VStr "undefined name");
                   field "range" (VRef 1);
                   field "_rule" (VStr "reportUndefinedVariable")])
           (VNum 1) (VStr "undefined name") (VRef 1) _ L);
    try reflexivity; [exact HT|exact Hnd].
Defined.

(** ** More statements at concrete inputs *)

Lemma deserialize_reads_version_and_data_witness :
  deserialize (H := tree_host)
    (Some (JObj [("version", JNum 1); ("data", JStr "x"); ("refs", JArr [])])) =
  deserialize (H := tree_host)
    (Some (JObj [("refs", JArr [JNum 7]); ("data", JStr "x"); ("version", JNum 1);
                 ("more", JNull)])).
Proof.
  exact (deserialize_reads_version_and_data (H := tree_host)
           [("version", JNum 1); ("data", JStr "x"); ("refs", JArr [])]
           [("refs", JArr [JNum 7]); ("data", JStr "x"); ("version", JNum 1);
            ("more", JNull)]
           eq_refl eq_refl).
Defined.

Lemma plain_document_decodes_to_itself_witness :
  plain_data (JObj [("a", JArr [JNum 1; JStr "x"; JNull]); ("b", JObj [("c", JBool true)])])
    = true ∧
  deserialize (H := tree_host)
    (Some (JObj [("version", JNum 1);
                 ("data", JObj [("a", JArr [JNum 1; JStr "x"; JNull]);
                                ("b", JObj [("c", JBool true)])]);
                 ("refs", JArr [])])) =
  Ret (DObj [("a", DArr [DNum 1; DStr "x"; DNull]); ("b", DObj [("c", DBool true)])]).
Proof.
  assert (plain_data (JObj [("a", JArr [JNum 1; JStr "x"; JNull]);
                            ("b", JObj [("c", JBool true)])]) = true) as Hp
    by (vm_compute; reflexivity).
  split; [exact Hp|].
  exact (plain_document_decodes_to_itself (H := tree_host)
           [("version", JNum 1);
            ("data", JObj [("a", JArr [JNum 1; JStr "x"; JNull]);
                           ("b", JObj [("c", JBool true)])]);
            ("refs", JArr [])]
           _ eq_refl eq_refl Hp).
Defined.

Lemma parse_node_decodes_to_four_fields_witness :
  deserialize (H := tree_host)
    (Some (JObj [("version", JNum 1);
                 ("data", JObj [("__ParseNode__",
                                 JObj [("nodeType", JNum 3); ("start", JNum 0);
                                       ("length", JNum 5); ("parent", JNull)]);
                                ("other", JNum 1)]);
                 ("refs", JArr [])])) =
  Ret (DObj [("nodeType", DNum 3); ("id", DUndef); ("start", DNum 0); ("length", DNum 5)]).
Proof.
  apply (parse_node_decodes_to_four_fields (H := tree_host)
           [("version", JNum 1);
            ("data", JObj [("__ParseNode__",
                            JObj [("nodeType", JNum 3); ("start", JNum 0);
                                  ("length", JNum 5); ("parent", JNull)]);
                           ("other", JNum 1)]);
            ("refs", JArr [])]
           [("__ParseNode__",
             JObj [("nodeType", JNum 3); ("start", JNum 0);
                   ("length", JNum 5); ("parent", JNull)]);
            ("other", JNum 1)]
           (JObj [("nodeType", JNum 3); ("start", JNum 0);
                  ("length", JNum 5); ("parent", JNull)]));
    [reflexivity|reflexivity|repeat constructor|reflexivity|discriminate].
Defined.

Lemma map_tag_needs_an_array_witness :
  ∃ msg,
    deserialize (H := tree_host)
      (Some (JObj [("version", JNum 1); ("data", JObj [("__Map__", JNum 5)]);
                   ("refs", JArr [])])) =
    Throw (Error ("Failed to deserialize cache: " +:+ exn_toString (TypeError msg))).
Proof.
  apply (map_tag_needs_an_array (H := tree_host)
           [("version", JNum 1); ("data", JObj [("__Map__", JNum 5)]); ("refs", JArr [])]
           [("__Map__", JNum 5)] (JNum 5));
    [reflexivity|reflexivity|repeat constructor|reflexivity|discriminate].
Defined.

Lemma encoded_document_shape_witness :
  ∃ data : option json,
    Some (JObj [("version", JNum 1);
                ("data", JObj [("self", JObj [("__Circular__", JNum 0)])]);
                ("refs", JArr [])]) =
    JSON_print (JObj (("version", JNum 1) ::
                      match data with Some j => [("data", j)] | None => [] end ++
                      [("refs", JArr [])])) ∧
    (data = None ↔ is_absent (VRef 0) = true).
Proof.
  exact (encoded_document_shape (H := tree_host) self_reference (VRef 0) _ eq_refl).
Defined.

Lemma primitive_root_round_trip_witness :
  (∃ t, serialize (H := tree_host) ∅ (VSpecial NaN) = Ret t ∧ deserialize t = Ret DNull) ∧
  (∃ t, serialize (H := tree_host) ∅ (VSymbol 0) = Ret t ∧ deserialize t = Ret DUndef) ∧
  serialize (H := tree_host) ∅ (VBigInt 1) =
    Throw (TypeError "Do not know how to serialize a BigInt").
Proof.
  split; [|split].
  - exact (primitive_root_round_trip (H := tree_host) ∅ (VSpecial NaN) eq_refl).
  - exact (primitive_root_round_trip (H := tree_host) ∅ (VSymbol 0) eq_refl).
  - exact (primitive_root_round_trip (H := tree_host) ∅ (VBigInt 1) eq_refl).
Defined.

Lemma encode_returns_a_document_witness :
  closed self_reference ∧ quiet self_reference ∧ plain_summaries self_reference ∧
  no_bigint self_reference ∧
  ∃ t, serialize (H := tree_host) self_reference (VRef 0) = Ret t.
Proof.
  assert (closed self_reference) as Hcl.
  { intros l o Ho. unfold self_reference in Ho.
    apply lookup_singleton_Some in Ho as [<- <-]. repeat constructor. cbn.
    exists (plain [field "self" (VRef 0)]). reflexivity. }
  assert (quiet self_reference) as Hq.
  { intros l o Ho. unfold self_reference in Ho.
    apply lookup_singleton_Some in Ho as [<- <-]. split; [discriminate|].
    intros p Hp. cbn in Hp. apply list_elem_of_singleton in Hp as ->. by eexists. }
  assert (plain_summaries self_reference) as Hp.
  { intros l o v Ho Hd. unfold self_reference in Ho.
    apply lookup_singleton_Some in Ho as [<- <-]. discriminate. }
  assert (no_bigint self_reference) as Hb.
  { intros l o Ho. unfold self_reference in Ho.
    apply lookup_singleton_Some in Ho as [<- <-]. by repeat constructor. }
  split; [exact Hcl|]. split; [exact Hq|]. split; [exact Hp|]. split; [exact Hb|].
  apply (encode_returns_a_document (H := tree_host) self_reference (VRef 0) Hcl Hq Hp Hb);
    [|reflexivity].
  exists (plain [field "self" (VRef 0)]). reflexivity.
Defined.

Lemma invalid_date_makes_encode_throw_witness :
  serialize (H := tree_host) invalid_date (VRef 0) =
    Throw (RangeError "Invalid time value") ∧
  serialize (H := tree_host) invalid_date (VRef 1) =
    Throw (RangeError "Invalid time value").
Proof.
  destruct (invalid_date_makes_encode_throw (H := tree_host) invalid_date 0
              (mkObj (CDate None) [] []) eq_refl eq_refl) as [Hroot Harray].
  split; [exact Hroot|].
  apply (Harray 1 (mkObj (CArray [VNum 1; VRef 0]) [] []) [VNum 1] []);
    [reflexivity|discriminate|reflexivity|by repeat constructor|reflexivity..].
Defined.

Lemma cyclic_diagnostic_makes_encode_throw_witness :
  serialize (H := tree_host) cyclic_diagnostic (VRef 0) =
  Throw (TypeError "Converting circular structure to JSON").
Proof.
  apply (cyclic_diagnostic_makes_encode_throw (H := tree_host) cyclic_diagnostic 0
           (plain [field "category" (VRef 0); field "message" (VStr "m");
                   field "range" VNull])
           [field "message" (VStr "m"); field "range" VNull] (VStr "m") VNull);
    first [reflexivity|by eexists].
Defined.

Lemma array_keeps_its_length_witness :
  (∃ t, serialize (H := tree_host) array_with_holes (VRef 0) = Ret t ∧
        deserialize t =
        Ret (DArr [DNum 1; DNull; DNull; DStr "x"; DNull; DNull; DNum 0])) ∧
  serialize (H := tree_host) array_with_bigint (VRef 0) =
    Throw (TypeError "Do not know how to serialize a BigInt").
Proof.
  split.
  - apply (array_keeps_its_length (H := tree_host) array_with_holes 0
             (mkObj (CArray [VNum 1; VUndef; VFun; VStr "x"; VSpecial NaN; VSymbol 0;
                             VSpecial NegZero]) [] [])
             [VNum 1; VUndef; VFun; VStr "x"; VSpecial NaN; VSymbol 0; VSpecial NegZero]);
      [reflexivity|reflexivity|by repeat constructor|reflexivity..].
  - apply (array_keeps_its_length (H := tree_host) array_with_bigint 0
             (mkObj (CArray [VNum 1; VBigInt 2]) [] []) [VNum 1; VBigInt 2]);
      [reflexivity|reflexivity|by repeat constructor|reflexivity..].
Defined.

Lemma identities_are_consecutive_witness :
  ∃ r c',
    _serializeValue 3 shared_reference (VRef 0) fresh_context = (r, c') ∧
    refCount c' = 2%nat ∧
    ∃ l, seen c' !! l = Some 1%nat ∧ ∀ l', seen c' !! l' = Some 1%nat → l' = l.
Proof.
  eexists _, _. split; [reflexivity|]. split; [reflexivity|].
  apply (identities_are_consecutive 3 shared_reference (VRef 0) fresh_context _ _ eq_refl).
  - split; intros ? ?; vm_compute; discriminate.
  - intros n Hn. cbn in Hn. lia.
  - cbn. lia.
Defined.

Lemma second_occurrence_decodes_to_null_witness :
  ∃ t, serialize (H := tree_host) shared_in_array (VRef 0) = Ret t ∧
       deserialize t = Ret (DArr [DObj [("x", DNum 1)]; DNull]).
Proof.
  assert (∃ L, Tree shared_in_array (VRef 1) (DObj [("x", DNum 1)]) L ∧ NoDup L ∧ 0%nat ∉ L)
    as (L & HT & Hnd & Hla).
  { eexists. split; [tree|].
    split; apply (bool_decide_unpack _); vm_compute; exact I. }
  exact (second_occurrence_decodes_to_null (H := tree_host) shared_in_array 0
           (mkObj (CArray [VRef 1; VRef 1]) [] []) 1 _ L
           eq_refl eq_refl eq_refl eq_refl HT Hnd Hla).
Defined.

Lemma flat_encode_returns_witness :
  closed self_reference ∧ no_bigint self_reference ∧ data_properties self_reference ∧
  ∃ t, SimpleSerializer.serialize (H := tree_host) self_reference (VRef 0) = Ret t.
Proof.
  assert (closed self_reference) as Hcl.
  { intros l o Ho. unfold self_reference in Ho.
    apply lookup_singleton_Some in Ho as [<- <-]. repeat constructor. cbn.
    exists (plain [field "self" (VRef 0)]). reflexivity. }
  assert (data_properties self_reference) as Hd.
  { intros l o Ho. unfold self_reference in Ho.
    apply lookup_singleton_Some in Ho as [<- <-]. split; [by eexists|].
    intros p Hp. cbn in Hp. apply list_elem_of_singleton in Hp as ->. by eexists. }
  assert (no_bigint self_reference) as Hb.
  { intros l o Ho. unfold self_reference in Ho.
    apply lookup_singleton_Some in Ho as [<- <-]. by repeat constructor. }
  split; [exact Hcl|]. split; [exact Hb|]. split; [exact Hd|].
  apply (flat_encode_returns (H := tree_host) self_reference (VRef 0) Hcl Hb Hd);
    [|reflexivity].
  exists (plain [field "self" (VRef 0)]). reflexivity.
Defined.

Ltac no_method := unfold no_toJSON; cbn; first [reflexivity | by eexists].

Ltac flat_tree :=
  lazymatch goal with
  | |- FlatTree _ VNull _ _ => apply F_null
  | |- FlatTree _ (VBool _) _ _ => apply F_bool
  | |- FlatTree _ (VNum _) _ _ => apply F_num
  | |- FlatTree _ (VStr _) _ _ => apply F_str
  | |- FlatTree _ (VRef ?l) (DStr _) _ =>
      eapply (F_date (H := tree_host) _ l _ 0%Z); [side|side|no_method]
  | |- FlatTree _ (VRef _) DNull _ => eapply F_invalid_date; [side|side|no_method]
  | |- FlatTree _ (VRef _) (DMap _) _ =>
      eapply F_map; [side|side|no_method|(cbn; repeat constructor)|flat_tree]
  | |- FlatTree _ (VRef _) (DSet _) _ =>
      eapply F_set; [side|side|no_method|(cbn; repeat constructor)|flat_tree]
  | |- FlatTree _ (VRef _) (DArr _) _ => eapply F_array; [side|side|no_method|flat_tree]
  | |- FlatTree _ (VRef _) (DObj _) _ =>
      eapply F_record; [side|side|no_method|side|cbn [own plain]; flat_tree]
  | |- FlatTrees _ [] _ _ => apply Fs_nil
  | |- FlatTrees _ (_ :: _) _ _ => eapply Fs_cons; flat_tree
  | |- FlatEntries _ [] _ _ => apply Fe_nil
  | |- FlatEntries _ (_ :: _) _ _ => eapply Fe_cons; flat_tree
  | |- FlatProps _ [] _ _ => apply Fp_nil
  | |- FlatProps _ (_ :: _) _ _ => eapply Fp_cons; flat_tree
  end.

Lemma flat_round_trip_witness :
  ∃ L, FlatTree sample (VRef 0) sample_flat_image L ∧ NoDup L ∧
       ∃ t, SimpleSerializer.serialize sample (VRef 0) = Ret (Some t) ∧
            SimpleSerializer.deserialize t = Ret sample_flat_image.
Proof.
  assert (∃ L, FlatTree sample (VRef 0) sample_flat_image L ∧ NoDup L) as (L & HT & Hnd).
  { eexists. split; [unfold sample_flat_image; flat_tree|].
    apply (bool_decide_unpack _). vm_compute. exact I. }
  exists L. split; [exact HT|]. split; [exact Hnd|].
  exact (flat_round_trip sample (VRef 0) sample_flat_image L HT Hnd).
Defined.

Lemma flat_second_occurrence_is_the_sentinel_witness :
  ∃ t, SimpleSerializer.serialize (H := tree_host) shared_in_array (VRef 0) = Ret (Some t) ∧
       SimpleSerializer.deserialize t =
       Ret (DArr [DObj [("x", DNum 1)]; DStr "[Circular]"]).
Proof.
  assert (∃ L, FlatTree shared_in_array (VRef 1) (DObj [("x", DNum 1)]) L ∧
               L ≠ [] ∧ NoDup L ∧ 0%nat ∉ L) as (L & HT & Hne & Hnd & Hla).
  { eexists. split; [flat_tree|]. split; [discriminate|].
    split; apply (bool_decide_unpack _); vm_compute; exact I. }
  exact (flat_second_occurrence_is_the_sentinel (H := tree_host) shared_in_array 0
           (mkObj (CArray [VRef 1; VRef 1]) [] []) 1 _ L
           eq_refl eq_refl HT Hne Hnd Hla).
Defined.

Lemma flat_plain_data_passes_through_witness :
  SimpleSerializer.deserialize (H := tree_host)
    (Some (JObj [("self", JStr "[Circular]"); ("items", JArr [JNum 1; JNull])])) =
  Ret (DObj [("self", DStr "[Circular]"); ("items", DArr [DNum 1; DNull])]).
Proof.
  exact (flat_plain_data_passes_through (H := tree_host)
           (JObj [("self", JStr "[Circular]"); ("items", JArr [JNum 1; JNull])])
           ltac:(vm_compute; reflexivity)).
Defined.

Lemma array_with_start_is_a_text_range_witness :
  ∃ t, serialize (H := tree_host) array_with_start (VRef 0) = Ret t ∧
       deserialize t = Ret (DObj [("start", DNum 7); ("length", DNum 3)]).
Proof.
  exact (array_with_start_is_a_text_range (H := tree_host) array_with_start 0
           (mkObj (CArray [VStr "a"; VStr "b"; VStr "c"]) [field "start" (VNum 7)] [])
           [VStr "a"; VStr "b"; VStr "c"] (VNum 7) eq_refl eq_refl eq_refl eq_refl).
Defined.

Lemma flat_look_alike_is_revived_witness :
  ∃ t, SimpleSerializer.serialize (H := tree_host) date_look_alike (VRef 0) = Ret (Some t) ∧
       SimpleSerializer.deserialize t = Ret (DDate (Some 0%Z)).
Proof.
  assert (FlatProps date_look_alike
            [field "_type" (VStr "Date");
             field "value" (VStr "1970-01-01T00:00:00.000Z");
             field "note" (VNum 1)]
            [("_type", DStr "Date"); ("value", DStr "1970-01-01T00:00:00.000Z");
             ("note", DNum 1)] ([] ++ [] ++ [] ++ [])) as HP.
  { repeat (apply Fp_cons; [constructor|]). apply Fp_nil. }
  exact (flat_look_alike_is_revived (H := tree_host) date_look_alike 0 _ _ _
           "1970-01-01T00:00:00.000Z" eq_refl eq_refl ltac:(by eexists) HP
           ltac:(repeat constructor; apply not_elem_of_nil) eq_refl eq_refl).
Defined.

End Instances.
